(** * mlflow-typescript-examples: the chatbot server core

    A shallow embedding of the research chatbot's server side:
    - [SessionManager]: [chatbot/server/src/session-manager.ts], the bounded,
      expiring in-memory session store;
    - [HtmlText]: [Tools.extractTextFromHTML] of [tools.ts], over a small
      backtracking matcher for the regular expressions the source uses;
    - [Agent]: [OpenAIAgent] of [agent.ts], the bounded tool-calling loop.

    External collaborators (the wall clock, [Math.random], the model
    boundary, the HTTP transport, [JSON.parse]) are Section variables. *)

From Stdlib Require Import List ZArith NArith String Ascii Lia Bool Arith
  Permutation Sorted DecimalString.
Import ListNotations.

Set Implicit Arguments.
Set Warnings "-abstract-large-number,-notation-for-abbreviation".

(* ================================================================== *)
(** * The session store  ([session-manager.ts]) *)
(* ================================================================== *)

Module SessionManager.

Inductive Role := user | assistant.

Record ChatMessage := mkChatMessage {
  role : Role;
  content : string;
  timestamp : Z
}.

Record ChatSession := mkChatSession {
  id : string;
  messages : list ChatMessage;
  createdAt : Z;
  lastActivity : Z
}.

Definition SESSION_EXPIRE_MS : Z := 60 * 60 * 1000.
Definition MAX_SESSIONS : nat := 100.
Definition MAX_MESSAGES_PER_SESSION : nat := 100.

(** ** [Map<string, ChatSession>]

    A JavaScript [Map] iterates in insertion order, and
    [enforceSessionLimit] sorts [Array.from(entries())] with a stable sort,
    so the order of the entries decides which of two equally old sessions
    goes first.  The map is an association list in insertion order; its
    representation invariant is that no key occurs twice. *)

Definition SessionMap := list (string * ChatSession).

Definition keys (m : SessionMap) : list string := map fst m.

Fixpoint Map_get (k : string) (m : SessionMap) : option ChatSession :=
  match m with
  | [] => None
  | (k', v) :: m' => if String.eqb k k' then Some v else Map_get k m'
  end.

Definition Map_has (k : string) (m : SessionMap) : bool :=
  match Map_get k m with Some _ => true | None => false end.

(** [set] on a present key keeps the entry where it is; a new key goes last. *)
Fixpoint Map_set (k : string) (v : ChatSession) (m : SessionMap) : SessionMap :=
  match m with
  | [] => [(k, v)]
  | (k', v') :: m' =>
      if String.eqb k k' then (k', v) :: m' else (k', v') :: Map_set k v m'
  end.

Definition Map_delete (k : string) (m : SessionMap) : SessionMap :=
  filter (fun e => negb (String.eqb k (fst e))) m.

Definition Map_size (m : SessionMap) : nat := List.length m.

(** ** [Array.prototype.sort], [slice] and [splice]

    The sort is stable (ECMAScript 2019), so with a consistent comparator
    its result is determined; insertion from the right is one stable sort. *)

Section ArraySort.
Context {A : Type} (cmp : A -> A -> Z).

Fixpoint sort_insert (x : A) (l : list A) : list A :=
  match l with
  | [] => [x]
  | y :: l' => if (cmp x y <=? 0)%Z then x :: y :: l' else y :: sort_insert x l'
  end.

Fixpoint Array_sort (l : list A) : list A :=
  match l with
  | [] => []
  | x :: l' => sort_insert x (Array_sort l')
  end.
End ArraySort.

(** [a.slice(0, n)] *)
Definition slice0 {A} (n : nat) (a : list A) : list A := firstn n a.

(** [a.splice(0, n)], the array that is left *)
Definition splice0 {A} (n : nat) (a : list A) : list A := skipn n a.

(** ** The manager's state and its two ambient oracles

    Each [new Date()] reads the wall clock once; each [Math.random()] draws
    once.  The n-th reading is [clock n]; [randomId n] is what
    [Math.random().toString(36).substr(2, 9)] yields at the n-th draw. *)

Record State := mkState {
  sessions : SessionMap;
  ticks : nat;
  draws : nat
}.

Definition initial : State := mkState [] 0 0.

Definition M (A : Type) : Type := State -> A * State.

Definition ret {A} (a : A) : M A := fun st => (a, st).

Definition bind {A B} (c : M A) (f : A -> M B) : M B :=
  fun st => let (a, st') := c st in f a st'.

Declare Scope sm_scope.
Delimit Scope sm_scope with sm.
Notation "x <- c ;; k" := (bind c (fun x => k))
  (at level 61, c at next level, right associativity) : sm_scope.
Notation "c ;;; k" := (bind c (fun _ => k))
  (at level 61, right associativity) : sm_scope.
Local Open Scope sm_scope.

Definition get_sessions : M SessionMap := fun st => (sessions st, st).

Definition put_sessions (m : SessionMap) : M unit :=
  fun st => (tt, mkState m (ticks st) (draws st)).

Section Manager.
Variable clock : nat -> Z.
Variable randomId : nat -> string.

Definition new_Date : M Z :=
  fun st => (clock (ticks st), mkState (sessions st) (S (ticks st)) (draws st)).

Definition generateSessionId : M string :=
  fun st => (randomId (draws st), mkState (sessions st) (ticks st) (S (draws st))).

Definition isSessionExpired (session : ChatSession) : M bool :=
  now <- new_Date ;;
  ret (now - lastActivity session >? SESSION_EXPIRE_MS)%Z.

Definition by_lastActivity (a b : string * ChatSession) : Z :=
  (lastActivity (snd a) - lastActivity (snd b))%Z.

Definition enforceSessionLimit : M unit :=
  m <- get_sessions ;;
  if Map_size m <=? MAX_SESSIONS then ret tt
  else
    let sessionEntries := Array_sort by_lastActivity m in
    let sessionsToRemove := slice0 (Map_size m - MAX_SESSIONS) sessionEntries in
    put_sessions
      (fold_left (fun acc e => Map_delete (fst e) acc) sessionsToRemove m).

Definition createSession : M string :=
  sessionId <- generateSessionId ;;
  created <- new_Date ;;
  active <- new_Date ;;
  let session := mkChatSession sessionId [] created active in
  m <- get_sessions ;;
  put_sessions (Map_set sessionId session m) ;;;
  enforceSessionLimit ;;;
  ret sessionId.

Definition touch (t : Z) (s : ChatSession) : ChatSession :=
  mkChatSession (id s) (messages s) (createdAt s) t.

Definition getSession (sessionId : string) : M (option ChatSession) :=
  m <- get_sessions ;;
  match Map_get sessionId m with
  | None => ret None
  | Some session =>
      expired <- isSessionExpired session ;;
      if expired then
        put_sessions (Map_delete sessionId m) ;;;
        ret None
      else
        now <- new_Date ;;
        let session' := touch now session in
        put_sessions (Map_set sessionId session' m) ;;;
        ret (Some session')
  end.

(** [push], the new [lastActivity], then the trim; the session object is the
    one the map holds, so the map's entry is what changes. *)
Definition addMessage (sessionId : string) (r : Role) (c : string) : M bool :=
  found <- getSession sessionId ;;
  match found with
  | None => ret false
  | Some session =>
      stamp <- new_Date ;;
      let message := mkChatMessage r c stamp in
      let pushed := messages session ++ [message] in
      active <- new_Date ;;
      let kept :=
        if MAX_MESSAGES_PER_SESSION <? List.length pushed
        then splice0 (List.length pushed - MAX_MESSAGES_PER_SESSION) pushed
        else pushed in
      m <- get_sessions ;;
      put_sessions
        (Map_set sessionId
           (mkChatSession (id session) kept (createdAt session) active) m) ;;;
      ret true
  end.

Definition getMessages (sessionId : string) : M (list ChatMessage) :=
  found <- getSession sessionId ;;
  ret (match found with Some session => messages session | None => [] end).

Definition deleteSession (sessionId : string) : M bool :=
  m <- get_sessions ;;
  let deleted := Map_has sessionId m in
  put_sessions (Map_delete sessionId m) ;;;
  ret deleted.

Definition getSessionCount : M nat :=
  m <- get_sessions ;; ret (Map_size m).

(** The first loop of [cleanup]: one clock reading per stored session. *)
Fixpoint findExpired (entries : SessionMap) : M (list string) :=
  match entries with
  | [] => ret []
  | (sessionId, session) :: rest =>
      expired <- isSessionExpired session ;;
      more <- findExpired rest ;;
      ret (if expired then sessionId :: more else more)
  end.

Definition cleanup : M unit :=
  m <- get_sessions ;;
  expiredSessions <- findExpired m ;;
  put_sessions (fold_left (fun acc k => Map_delete k acc) expiredSessions m) ;;;
  enforceSessionLimit.

Definition destroy : M unit := put_sessions [].

(** ** Every way the store is driven: the public methods and the timer *)

Inductive Op :=
| OpCreateSession
| OpGetSession (sessionId : string)
| OpAddMessage (sessionId : string) (r : Role) (c : string)
| OpGetMessages (sessionId : string)
| OpDeleteSession (sessionId : string)
| OpGetSessionCount
| OpCleanup
| OpDestroy.

Definition exec (o : Op) (st : State) : State :=
  match o with
  | OpCreateSession => snd (createSession st)
  | OpGetSession k => snd (getSession k st)
  | OpAddMessage k r c => snd (addMessage k r c st)
  | OpGetMessages k => snd (getMessages k st)
  | OpDeleteSession k => snd (deleteSession k st)
  | OpGetSessionCount => snd (getSessionCount st)
  | OpCleanup => snd (cleanup st)
  | OpDestroy => snd (destroy st)
  end.

Definition exec_all (ops : list Op) (st : State) : State :=
  fold_left (fun s o => exec o s) ops st.

End Manager.

(** ** Vocabulary for the store's properties *)

(** [a] was active no later than [b] *)
Definition older_first (a b : string * ChatSession) : Prop :=
  (lastActivity (snd a) <= lastActivity (snd b))%Z.

(** the loop [for (const [sessionId] of sessionsToRemove) delete(sessionId)] *)
Definition delete_entries (es m : SessionMap) : SessionMap :=
  fold_left (fun acc e => Map_delete (fst e) acc) es m.

(** the loop [for (const sessionId of expiredSessions) delete(sessionId)] *)
Definition delete_keys (ks : list string) (m : SessionMap) : SessionMap :=
  fold_left (fun acc k => Map_delete k acc) ks m.

(** The store's invariant: keys are unique, the two caps hold. *)
Definition within_caps (m : SessionMap) : Prop :=
  NoDup (keys m)
  /\ Map_size m <= MAX_SESSIONS
  /\ Forall (fun e => List.length (messages (snd e)) <= MAX_MESSAGES_PER_SESSION) m.

(** a decision procedure for "no key twice" *)
Fixpoint distinct (l : list string) : bool :=
  match l with
  | [] => true
  | k :: l' => negb (existsb (String.eqb k) l') && distinct l'
  end.

(** "the identifier returned is the identifier of no session in the store" *)
Definition returns_fresh_id (clock : nat -> Z) (randomId : nat -> string)
  (st : State) : Prop :=
  ~ In (fst (createSession clock randomId st)) (keys (sessions st)).

(** whether [isSessionExpired] answers yes when the clock reads [now] *)
Definition expired_at (now : Z) (s : ChatSession) : bool :=
  (now - lastActivity s >? SESSION_EXPIRE_MS)%Z.

(** The identifiers the first loop of [cleanup] collects: the entry number
    [i] of the map is compared with the clock's reading number [t + i]. *)
Fixpoint expired_keys (clock : nat -> Z) (t : nat) (entries : SessionMap)
  : list string :=
  match entries with
  | [] => []
  | (k, s) :: rest =>
      if expired_at (clock t) s then k :: expired_keys clock (S t) rest
      else expired_keys clock (S t) rest
  end.

(** [a] was active strictly before [b] *)
Definition strictly_older (a b : string * ChatSession) : Prop :=
  (lastActivity (snd a) < lastActivity (snd b))%Z.

(** [victim] is, in insertion order, the first of the least recently active
    entries of [m] *)
Definition first_oldest (victim : string * ChatSession) (m : SessionMap) : Prop :=
  exists earlier later,
    m = earlier ++ victim :: later
    /\ Forall (strictly_older victim) earlier
    /\ Forall (older_first victim) later.

(** every stored session carries the key it is stored under *)
Definition keyed_by_id (m : SessionMap) : Prop :=
  Forall (fun e => id (snd e) = fst e) m.

(** what [addMessage] leaves of the pushed array *)
Definition latest (n : nat) (pushed : list ChatMessage) : list ChatMessage :=
  skipn (List.length pushed - n) pushed.

End SessionManager.

(* ================================================================== *)
(** * Text extraction  ([Tools.extractTextFromHTML], [tools.ts]) *)
(* ================================================================== *)

Module HtmlText.

(** A JavaScript string is a sequence of UTF-16 code units; [length],
    [substring] and the regular expressions all count code units. *)
Definition code_unit := N.
Definition jsstring := list code_unit.

Fixpoint units (s : string) : jsstring :=
  match s with
  | EmptyString => []
  | String a s' => N_of_ascii a :: units s'
  end.

(** ** Character classes *)

Definition CharSet := code_unit -> bool.

(** [Canonicalize] of a non-unicode [/i] match.  A code unit of 128 or more
    never canonicalizes to one below 128, so against the ASCII characters of
    the patterns below only the ASCII letters fold. *)
Definition canonicalize (c : code_unit) : code_unit :=
  if ((97 <=? c) && (c <=? 122))%N then (c - 32)%N else c.

Definition chr (ignoreCase : bool) (p : code_unit) : CharSet :=
  fun c => if ignoreCase then (canonicalize c =? canonicalize p)%N else (c =? p)%N.

Definition not_chr (ignoreCase : bool) (p : code_unit) : CharSet :=
  fun c => negb (chr ignoreCase p c).

(** [[\s\S]] *)
Definition any_unit : CharSet := fun _ => true.

(** [\s]: WhiteSpace and LineTerminator, which is also what [trim] removes. *)
Definition white_space : CharSet :=
  fun c =>
    ((9 <=? c) && (c <=? 13) || (c =? 32) || (c =? 160) || (c =? 5760)
     || (8192 <=? c) && (c <=? 8202) || (c =? 8232) || (c =? 8233)
     || (c =? 8239) || (c =? 8287) || (c =? 12288) || (c =? 65279))%N.

(** ** A backtracking matcher for the patterns of the source

    A pattern is a sequence of atoms: one character of a class, a greedy
    [*], a lazy [*?] or a greedy [+] of a class.  [match_at re s] is the
    length of the match of [re] that starts at the head of [s], found in the
    order a backtracking engine tries them (greedy: longest first; lazy:
    shortest first), or [None]. *)

Inductive Atom :=
| One (cs : CharSet)
| Star (cs : CharSet)
| LazyStar (cs : CharSet)
| Plus (cs : CharSet).

Definition Pattern := list Atom.

Fixpoint greedy (cs : CharSet) (k : jsstring -> option nat) (s : jsstring)
  : option nat :=
  match s with
  | c :: s' =>
      if cs c then
        match greedy cs k s' with
        | Some n => Some (S n)
        | None => k s
        end
      else k s
  | [] => k s
  end.

Fixpoint reluctant (cs : CharSet) (k : jsstring -> option nat) (s : jsstring)
  : option nat :=
  match k s with
  | Some n => Some n
  | None =>
      match s with
      | c :: s' => if cs c then option_map S (reluctant cs k s') else None
      | [] => None
      end
  end.

Definition one (cs : CharSet) (k : jsstring -> option nat) (s : jsstring)
  : option nat :=
  match s with
  | c :: s' => if cs c then option_map S (k s') else None
  | [] => None
  end.

Fixpoint match_at (re : Pattern) : jsstring -> option nat :=
  match re with
  | [] => fun _ => Some 0
  | One cs :: re' => one cs (match_at re')
  | Star cs :: re' => greedy cs (match_at re')
  | LazyStar cs :: re' => reluctant cs (match_at re')
  | Plus cs :: re' => one cs (greedy cs (match_at re'))
  end.

(** [s.replace(re, by)] with the [g] flag.  The scan walks the string once:
    [skip] is the number of code units of the current match still to pass
    over; an empty match leaves its replacement and moves on by one unit. *)
Fixpoint replace_from (re : Pattern) (by_ : jsstring) (skip : nat) (s : jsstring)
  : jsstring :=
  match s with
  | [] =>
      match skip with
      | 0 => match match_at re [] with Some _ => by_ | None => [] end
      | S _ => []
      end
  | c :: s' =>
      match skip with
      | S n => replace_from re by_ n s'
      | 0 =>
          match match_at re s with
          | Some 0 => by_ ++ c :: replace_from re by_ 0 s'
          | Some (S n) => by_ ++ replace_from re by_ n s'
          | None => c :: replace_from re by_ 0 s'
          end
      end
  end.

Definition String_replace (re : Pattern) (by_ : jsstring) (s : jsstring) : jsstring :=
  replace_from re by_ 0 s.

Fixpoint trimStart (s : jsstring) : jsstring :=
  match s with
  | c :: s' => if white_space c then trimStart s' else s
  | [] => []
  end.

Definition trim (s : jsstring) : jsstring :=
  rev (trimStart (rev (trimStart s))).

(** [s.substring(0, n)] *)
Definition substring0 (n : nat) (s : jsstring) : jsstring := firstn n s.

(** ** The patterns of [extractTextFromHTML] *)

Definition literal (ignoreCase : bool) (s : string) : Pattern :=
  map (fun c => One (chr ignoreCase c)) (units s).

Definition GT : code_unit := 62%N.
Definition LT : code_unit := 60%N.
Definition SPACE : code_unit := 32%N.

(** [/<script[^>]*>[\s\S]*?<\/script>/gi] and its [style] twin *)
Definition block_re (name : string) : Pattern :=
  literal true ("<" ++ name)%string
    ++ [Star (not_chr true GT); One (chr true GT); LazyStar any_unit]
    ++ literal true ("</" ++ name ++ ">")%string.

Definition script_re : Pattern := block_re "script".
Definition style_re : Pattern := block_re "style".

(** [/<[^>]*>/g] *)
Definition tag_re : Pattern :=
  [One (chr false LT); Star (not_chr false GT); One (chr false GT)].

(** [/\s+/g] *)
Definition spaces_re : Pattern := [Plus white_space].

Definition MAX_TEXT : nat := 10000.

Definition extractTextFromHTML (html : jsstring) : jsstring :=
  let text := String_replace script_re [] html in
  let text := String_replace style_re [] text in
  let text := String_replace tag_re [SPACE] text in
  let text := trim (String_replace spaces_re [SPACE] text) in
  if MAX_TEXT <? List.length text
  then substring0 MAX_TEXT text ++ units "..."
  else text.

(** ** What the function is said to do, written directly

    A [name] block starts where the text reads [<name] (in either case),
    runs over the rest of the opening tag to its [>] and ends with the
    nearest following [</name>]. *)

Fixpoint starts_with_i (p s : jsstring) : bool :=
  match p, s with
  | [], _ => true
  | a :: p', c :: s' => (canonicalize c =? canonicalize a)%N && starts_with_i p' s'
  | _ :: _, [] => false
  end.

(** index of the first [>] *)
Fixpoint index_of_gt (s : jsstring) : option nat :=
  match s with
  | [] => None
  | c :: s' => if (c =? GT)%N then Some 0 else option_map S (index_of_gt s')
  end.

(** index of the first place where [p] occurs, in either case *)
Fixpoint find_i (p s : jsstring) : option nat :=
  if starts_with_i p s then Some 0
  else match s with
       | [] => None
       | _ :: s' => option_map S (find_i p s')
       end.

(** the length of the [name] block that starts at the head of [s] *)
Definition block_at (name : string) (s : jsstring) : option nat :=
  let opening := units ("<" ++ name)%string in
  let closing := units ("</" ++ name ++ ">")%string in
  if starts_with_i opening s then
    let s1 := skipn (List.length opening) s in
    match index_of_gt s1 with
    | None => None
    | Some i =>
        match find_i closing (skipn (S i) s1) with
        | None => None
        | Some j => Some (List.length opening + S i + j + List.length closing)
        end
    end
  else None.

(** Delete, left to right, every block found; [skip] code units of the
    current block are still to delete. *)
Fixpoint remove_blocks_from (name : string) (skip : nat) (s : jsstring) : jsstring :=
  match s with
  | [] => []
  | c :: s' =>
      match skip with
      | S n => remove_blocks_from name n s'
      | 0 =>
          match block_at name s with
          | Some n => remove_blocks_from name (pred n) s'
          | None => c :: remove_blocks_from name 0 s'
          end
      end
  end.

Definition remove_blocks (name : string) (s : jsstring) : jsstring :=
  remove_blocks_from name 0 s.

Definition has_gt (s : jsstring) : bool := existsb (N.eqb GT) s.

(** A tag runs from a [<] that has a [>] somewhere after it to the first
    such [>]; each tag becomes one space. *)
Fixpoint strip_tags_from (in_tag : bool) (s : jsstring) : jsstring :=
  match s with
  | [] => []
  | c :: s' =>
      if in_tag then
        if (c =? GT)%N then SPACE :: strip_tags_from false s'
        else strip_tags_from true s'
      else if (c =? LT)%N && has_gt s' then strip_tags_from true s'
      else c :: strip_tags_from false s'
  end.

Definition strip_tags (s : jsstring) : jsstring := strip_tags_from false s.

(** Each maximal run of white space becomes one space. *)
Fixpoint collapse_from (in_run : bool) (s : jsstring) : jsstring :=
  match s with
  | [] => []
  | c :: s' =>
      if white_space c then
        if in_run then collapse_from true s' else SPACE :: collapse_from true s'
      else c :: collapse_from false s'
  end.

Definition collapse_whitespace (s : jsstring) : jsstring := collapse_from false s.

(** the length of the run of white space at the head of [s] *)
Fixpoint run_length (s : jsstring) : nat :=
  match s with
  | c :: s' => if white_space c then S (run_length s') else 0
  | [] => 0
  end.

(** ** Vocabulary for the properties of the extracted text *)

(** no [<] of [s] has a [>] after it *)
Fixpoint tagless (s : jsstring) : bool :=
  match s with
  | [] => true
  | c :: s' => (negb (c =? LT)%N || negb (has_gt s')) && tagless s'
  end.

Definition is_bracket (c : code_unit) : bool := ((c =? LT) || (c =? GT))%N.

(** the [<] and [>] of [s], in order *)
Definition brackets (s : jsstring) : jsstring := filter is_bracket s.

(** no white space follows white space; [after_space] tells whether the
    unit before [s] is white space *)
Fixpoint gapless (after_space : bool) (s : jsstring) : bool :=
  match s with
  | [] => true
  | c :: s' =>
      if white_space c then negb after_space && gapless true s'
      else gapless false s'
  end.

(** every white-space unit of [s] is a space *)
Definition spaces_only (s : jsstring) : Prop :=
  Forall (fun c => white_space c = true -> c = SPACE) s.

(** no two neighbours in [s] are both white space *)
Definition no_double_space (s : jsstring) : Prop :=
  forall before x y after,
    s = before ++ x :: y :: after ->
    white_space x = true -> white_space y = true -> False.

(** [s] does not begin with white space *)
Definition clean_start (s : jsstring) : Prop :=
  forall c, hd_error s = Some c -> white_space c = false.

(** [core] is [s] without the white space at its two ends: [s] is [core]
    between two stretches of white space, and [core] neither begins nor
    ends with white space *)
Definition trimmed_of (s core : jsstring) : Prop :=
  exists lead trail,
    s = lead ++ core ++ trail
    /\ Forall (fun c => white_space c = true) lead
    /\ Forall (fun c => white_space c = true) trail
    /\ clean_start core
    /\ clean_start (rev core).

(** white space in [s]: single spaces, inside *)
Definition tidy (s : jsstring) : Prop :=
  spaces_only s /\ no_double_space s /\ clean_start s /\ clean_start (rev s).

(** [s] mentions [<...>] nowhere *)
Definition no_tag (s : jsstring) : Prop :=
  forall before inside after, s <> before ++ LT :: inside ++ GT :: after.

(** every white-space unit of [s] is a space that stands between two units
    that are not white space *)
Definition single_spaced (s : jsstring) : Prop :=
  forall before c after,
    s = before ++ c :: after ->
    white_space c = true ->
    c = SPACE
    /\ (exists before' a, before = before' ++ [a] /\ white_space a = false)
    /\ (exists b after', after = b :: after' /\ white_space b = false).

Definition truncate (text : jsstring) : jsstring :=
  if MAX_TEXT <? List.length text then firstn MAX_TEXT text ++ units "..." else text.

Definition spec_extractText (html : jsstring) : jsstring :=
  truncate
    (trim
       (collapse_whitespace
          (strip_tags (remove_blocks "style" (remove_blocks "script" html))))).

(** ** [Tools.extractTitle]: a pattern with a capturing group

    The same backtracking search as [match_at], which also notes where it
    stands each time it passes a parenthesis ([Mark]).  The answer is the
    list of the positions noted, in order, followed by the position where
    the match ends, all counted from the start of the match. *)

Inductive GAtom :=
| Unit (a : Atom)
| Mark.

Definition Marks := list nat.

Fixpoint greedy_at (cs : CharSet) (k : nat -> jsstring -> option Marks)
  (n : nat) (s : jsstring) : option Marks :=
  match s with
  | c :: s' =>
      if cs c then
        match greedy_at cs k (S n) s' with
        | Some r => Some r
        | None => k n s
        end
      else k n s
  | [] => k n s
  end.

Fixpoint reluctant_at (cs : CharSet) (k : nat -> jsstring -> option Marks)
  (n : nat) (s : jsstring) : option Marks :=
  match k n s with
  | Some r => Some r
  | None =>
      match s with
      | c :: s' => if cs c then reluctant_at cs k (S n) s' else None
      | [] => None
      end
  end.

Definition one_at (cs : CharSet) (k : nat -> jsstring -> option Marks)
  (n : nat) (s : jsstring) : option Marks :=
  match s with
  | c :: s' => if cs c then k (S n) s' else None
  | [] => None
  end.

Fixpoint match_marks (re : list GAtom) (marks : Marks)
  : nat -> jsstring -> option Marks :=
  match re with
  | [] => fun n _ => Some (rev (n :: marks))
  | Mark :: re' => fun n s => match_marks re' (n :: marks) n s
  | Unit (One cs) :: re' => one_at cs (match_marks re' marks)
  | Unit (Star cs) :: re' => greedy_at cs (match_marks re' marks)
  | Unit (LazyStar cs) :: re' => reluctant_at cs (match_marks re' marks)
  | Unit (Plus cs) :: re' => one_at cs (greedy_at cs (match_marks re' marks))
  end.

(** [s.match(re)] without the [g] flag: the match that starts leftmost,
    with the index [i] where it starts *)
Fixpoint search_from (re : list GAtom) (i : nat) (s : jsstring)
  : option (nat * Marks) :=
  match match_marks re [] 0 s with
  | Some marks => Some (i, marks)
  | None =>
      match s with
      | [] => None
      | _ :: s' => search_from re (S i) s'
      end
  end.

Definition String_match (re : list GAtom) (s : jsstring) : option (nat * Marks) :=
  search_from re 0 s.

(** [s.substring(a, b)] for [a <= b] *)
Definition substring (a b : nat) (s : jsstring) : jsstring :=
  firstn (b - a) (skipn a s).

(** [/<title[^>]*>([^<]+)<\/title>/i] *)
Definition title_re : list GAtom :=
  map Unit (literal true "<title")
    ++ [Unit (Star (not_chr true GT)); Unit (One (chr true GT));
        Mark; Unit (Plus (not_chr true LT)); Mark]
    ++ map Unit (literal true "</title>").

Definition extractTitle (html : jsstring) : jsstring :=
  match String_match title_re html with
  | Some (i, [opened; closed; _]) => trim (substring (i + opened) (i + closed) html)
  | _ => units "Untitled Page"
  end.

End HtmlText.

(* ================================================================== *)
(** * The agent loop  ([agent.ts], with the tools of [tools.ts]) *)
(* ================================================================== *)

Module Agent.

Import HtmlText.
Local Open Scope string_scope.

(** ** Values *)

(** What [JSON.parse] can produce, and [undefined] for a missing property. *)
#[local] Unset Elimination Schemes.
Inductive JsValue :=
| JUndefined
| JNull
| JBool (b : bool)
| JNumber (literal : string)
| JString (s : string)
| JArray (items : list JsValue)
| JObject (fields : list (string * JsValue)).
#[local] Set Elimination Schemes.

(** A thrown value is an [Error]; what the handlers read is its [message]. *)
Inductive Outcome (A : Type) :=
| Returned (a : A)
| Thrown (message : string).
Arguments Returned {A} a.
Arguments Thrown {A} message.

Fixpoint own_property (name : string) (fields : list (string * JsValue)) : JsValue :=
  match fields with
  | [] => JUndefined
  | (k, v) :: rest => if String.eqb name k then v else own_property name rest
  end.

(** [v.name] for the two names the source reads, [query] and [url] (and
    [results], [title], [content], [score] of the search response): a
    [TypeError] on [null] and [undefined], the own property of an object,
    [undefined] on everything else. *)
Definition get_property (v : JsValue) (name : string) : Outcome JsValue :=
  match v with
  | JUndefined =>
      Thrown ("Cannot read properties of undefined (reading '" ++ name ++ "')")
  | JNull =>
      Thrown ("Cannot read properties of null (reading '" ++ name ++ "')")
  | JObject fields => Returned (own_property name fields)
  | _ => Returned JUndefined
  end.

(** [`${v}`] *)
Fixpoint ToString (v : JsValue) : string :=
  match v with
  | JUndefined => "undefined"
  | JNull => "null"
  | JBool true => "true"
  | JBool false => "false"
  | JNumber literal => literal
  | JString s => s
  | JArray items =>
      String.concat ","
        (map (fun e => match e with
                       | JUndefined | JNull => ""
                       | _ => ToString e
                       end) items)
  | JObject _ => "[object Object]"
  end.

Definition decimal (n : nat) : string :=
  DecimalString.NilZero.string_of_uint (Nat.to_uint n).

(** ** The model boundary *)

Record ToolCallRequest := mkToolCallRequest {
  call_id : string;
  function_name : string;
  function_arguments : string
}.

Record AssistantMessage := mkAssistantMessage {
  message_content : option string;
  tool_calls : option (list ToolCallRequest)
}.

Record Choice := mkChoice { message : option AssistantMessage }.

Record ChatCompletion := mkChatCompletion { choices : list Choice }.

Inductive MessageParam :=
| SystemMessage (content : string)
| UserMessage (content : string)
| AssistantText (content : string)
| AssistantReply (m : AssistantMessage)
| ToolMessage (content : string) (tool_call_id : string).

Record ToolSchema := mkToolSchema {
  schema_name : string;
  schema_description : string;
  schema_parameter : string;
  schema_parameter_description : string
}.

Record ModelRequest := mkModelRequest {
  model : string;
  request_messages : list MessageParam;
  request_tools : option (list ToolSchema)
}.

(** ** The tools' results *)

Record SearchResult := mkSearchResult {
  title : JsValue;
  url : JsValue;
  snippet : JsValue;
  score : JsValue
}.

Record WebContent := mkWebContent {
  page_url : JsValue;
  page_title : jsstring;
  page_content : jsstring;
  extractedText : jsstring;
  wordCount : nat
}.

Inductive ToolResult :=
| SearchResults (results : list SearchResult)
| PageContent (page : WebContent).

Record LLMToolCall := mkLLMToolCall {
  id : string;
  name : string;
  arguments : JsValue;
  result : option ToolResult;
  error : option string
}.

Record LLMResponse := mkLLMResponse {
  content : string;
  toolCalls : list LLMToolCall;
  reasoning : string;
  traceId : string
}.

(** ** The transport *)

Record Request := mkRequest {
  request_url : JsValue;
  request_method : string;
  request_headers : list (string * string);
  request_body : option string
}.

(** [text] and [json] are what [response.text()] and [response.json()]
    resolve to. *)
Record HttpResponse := mkHttpResponse {
  ok : bool;
  status : nat;
  statusText : string;
  text : jsstring;
  json : Outcome JsValue
}.

Definition ChatHistoryMessage := SessionManager.ChatMessage.

Definition SYSTEM_PROMPT : string := "
You are a web research assistant with access to real-time web search and content analysis tools.

Your goal is to provide comprehensive, accurate, and up-to-date information by:
1. Analyzing the user's query to understand what information they need
2. Using available tools strategically to gather relevant data
3. Continue using tools iteratively until you have enough information to provide a complete answer
4. Synthesizing findings into a clear, well-structured response

Available tools allow you to:
- Search the web for current information
- Fetch and analyze web page content
- Extract key insights and topics

IMPORTANT: Use tools iteratively! After getting results from one tool, analyze if you need more information and use additional tools as needed. Don't stop after just one tool call - continue researching until you can provide a comprehensive answer.

FORMATTING REQUIREMENTS:
- For simple responses (greetings, short answers, single facts): Use plain text without markdown formatting
- For detailed research responses with multiple points: Use proper Markdown syntax including:
  - Headers (## for main sections, ### for subsections) to organize information
  - Bullet points (-) or numbered lists (1.) for key findings
  - **bold** for important terms and *italic* for emphasis
  - `inline code` for technical terms, URLs, or specific values
  - Code blocks with ``` for longer code examples or data
  - > block quotes for direct quotes from sources
  - Tables when comparing data or presenting structured information
  - Clickable links [text](URL) when referencing sources

Use markdown formatting only when it improves readability and organization. Always explain your reasoning and cite your sources. Be thorough but well-organized.
".

Definition FINAL_PROMPT : string :=
"Based on all the research you've conducted, provide a comprehensive final response to the user's query. 

    Include:
    - Key findings from your research
    - Source citations where appropriate
    - A clear summary that directly addresses the user's question

    Be thorough but well-organized.".

Definition getAvailableTools : list ToolSchema :=
  [ mkToolSchema "search_web"
      "Search the web for information on a given topic. Use this to find current information, news, articles, or any web-based content related to the user's query."
      "query"
      "The search query to find relevant information. Be specific and use keywords that will yield the best results.";
    mkToolSchema "fetch_web_content"
      "Fetch and extract content from a specific web page URL. Use this to get detailed content from web pages found in search results."
      "url"
      "The URL of the web page to fetch content from. Must be a valid HTTP/HTTPS URL." ].

Definition maxIterations : nat := 5.

(** [x || ''] on an optional string *)
Definition or_empty (x : option string) : string :=
  match x with Some s => s | None => "" end.

(** [response.choices[0]?.message?.content || ''] *)
Definition final_content (response : ChatCompletion) : string :=
  match choices response with
  | [] => ""
  | choice :: _ =>
      match message choice with
      | None => ""
      | Some m => or_empty (message_content m)
      end
  end.

(** ** The run's state: the outside world and a record of what was asked of it

    The model and the transport may answer differently each time, so both
    thread an abstract [World].  The trace keeps, in order, every model call
    with its answer and every [onToolCall] notification. *)

Section Run.
Variable World : Type.

Inductive Event :=
| ModelCalled (request : ModelRequest) (answer : Outcome ChatCompletion)
| ToolCallStarted (toolCall : LLMToolCall).

Record St := mkSt {
  world : World;
  trace : list Event
}.

Definition M (A : Type) : Type := St -> Outcome A * St.

Definition ret {A} (a : A) : M A := fun st => (Returned a, st).

Definition throw {A} (message : string) : M A := fun st => (Thrown message, st).

Definition bind {A B} (c : M A) (f : A -> M B) : M B :=
  fun st =>
    match c st with
    | (Returned a, st') => f a st'
    | (Thrown e, st') => (Thrown e, st')
    end.

(** [try { c } catch (error) { h(error.message) }] *)
Definition try_catch {A} (c : M A) (h : string -> M A) : M A :=
  fun st =>
    match c st with
    | (Returned a, st') => (Returned a, st')
    | (Thrown e, st') => h e st'
    end.

Definition lift {A} (o : Outcome A) : M A := fun st => (o, st).

Definition emit (e : Event) : M unit :=
  fun st => (Returned tt, mkSt (world st) (trace st ++ [e])%list).

Declare Scope agent_scope.
Notation "x <- c ;; k" := (bind c (fun x => k))
  (at level 61, c at next level, right associativity) : agent_scope.
Notation "c ;;; k" := (bind c (fun _ => k))
  (at level 61, right associativity) : agent_scope.
Local Open Scope agent_scope.

Variable openai_create : ModelRequest -> World -> Outcome ChatCompletion * World.
Variable fetch : Request -> World -> Outcome HttpResponse * World.
Variable JSON_parse : string -> Outcome JsValue.
Variable JSON_stringify : JsValue -> string.
Variable JSON_stringify_result : ToolResult -> string.
Variable extractTitle : jsstring -> jsstring.
Variable tavilyApiKey : string.
Variable span_traceId : string.

Definition chat_completions_create (request : ModelRequest) : M ChatCompletion :=
  fun st =>
    let (answer, w) := openai_create request (world st) in
    (answer, mkSt w (trace st ++ [ModelCalled request answer])%list).

Definition do_fetch (request : Request) : M HttpResponse :=
  fun st =>
    let (answer, w) := fetch request (world st) in
    (answer, mkSt w (trace st)).

(** *** [Tools] *)

Fixpoint map_results (items : list JsValue) : Outcome (list SearchResult) :=
  match items with
  | [] => Returned []
  | r :: rest =>
      match get_property r "title", get_property r "url",
            get_property r "content", get_property r "score" with
      | Returned t, Returned u, Returned c, Returned s =>
          match map_results rest with
          | Returned more => Returned (mkSearchResult t u c s :: more)
          | Thrown e => Thrown e
          end
      | Thrown e, _, _, _ => Thrown e
      | _, Thrown e, _, _ => Thrown e
      | _, _, Thrown e, _ => Thrown e
      | _, _, _, Thrown e => Thrown e
      end
  end.

(** [data.results.map(...)] *)
Definition results_of (data : JsValue) : Outcome (list SearchResult) :=
  match get_property data "results" with
  | Thrown e => Thrown e
  | Returned (JArray items) => map_results items
  | Returned JUndefined =>
      Thrown "Cannot read properties of undefined (reading 'map')"
  | Returned JNull => Thrown "Cannot read properties of null (reading 'map')"
  | Returned _ => Thrown "data.results.map is not a function"
  end.

Definition searchWeb (query : JsValue) : M (list SearchResult) :=
  try_catch
    (response <- do_fetch
        (mkRequest (JString "https://api.tavily.com/search") "POST"
           [("Content-Type", "application/json");
            ("Authorization", "Bearer " ++ tavilyApiKey)]
           (Some (JSON_stringify
                    (JObject [("query", query);
                              ("search_depth", JString "basic");
                              ("max_results", JNumber "10");
                              ("include_answer", JBool true)])))) ;;
     if negb (ok response) then
       throw ("Tavily API error: " ++ decimal (status response) ++ " "
                ++ statusText response)
     else
       data <- lift (json response) ;;
       lift (results_of data))
    (fun message => throw ("Web search failed: " ++ message)).

(** [extractedText.split(/\s+/).length]: one more than the number of
    white-space runs *)
Fixpoint count_runs (in_run : bool) (s : jsstring) : nat :=
  match s with
  | [] => 0
  | c :: s' =>
      if white_space c then (if in_run then 0 else 1) + count_runs true s'
      else count_runs false s'
  end.

Definition fetchWebContent (target : JsValue) : M WebContent :=
  try_catch
    (response <- do_fetch
        (mkRequest target "GET"
           [("User-Agent", "Mozilla/5.0 (compatible; WebResearchBot/1.0)")] None) ;;
     if negb (ok response) then
       throw ("HTTP " ++ decimal (status response) ++ ": " ++ statusText response)
     else
       let html := text response in
       let extracted := extractTextFromHTML html in
       ret (mkWebContent target (extractTitle html) html extracted
              (S (count_runs false extracted))))
    (fun message =>
       throw ("Failed to fetch content from " ++ ToString target ++ ": " ++ message)).

(** *** [OpenAIAgent] *)

Definition executeToolCall (toolCall : LLMToolCall) : M ToolResult :=
  if String.eqb (name toolCall) "search_web" then
    query <- lift (get_property (arguments toolCall) "query") ;;
    results <- searchWeb query ;;
    ret (SearchResults results)
  else if String.eqb (name toolCall) "fetch_web_content" then
    target <- lift (get_property (arguments toolCall) "url") ;;
    page <- fetchWebContent target ;;
    ret (PageContent page)
  else throw ("Unknown tool: " ++ name toolCall).

Definition makeOpenAICall (messages : list MessageParam) (tools : list ToolSchema)
  : M ChatCompletion :=
  response <- chat_completions_create (mkModelRequest "o4-mini" messages (Some tools)) ;;
  match choices response with
  | [] => throw "Cannot read properties of undefined (reading 'message')"
  | choice :: _ =>
      match message choice with
      | None => throw "No message in OpenAI response"
      | Some _ => ret response
      end
  end.

(** a computation that adds nothing to the trace *)
Definition quiet {A} (c : M A) : Prop :=
  forall st, trace (snd (c st)) = trace st.

(** the state once [onToolCall] has been told of [call] *)
Definition started (st : St) (call : LLMToolCall) : St :=
  mkSt (world st) (trace st ++ [ToolCallStarted call])%list.

(** One turn of the [for] loop of [executeToolCalls].  [JSON.parse] and the
    [onToolCall] notification come before the [try]. *)
Definition executeOne (toolCall : ToolCallRequest)
  (messages : list MessageParam) (toolCalls : list LLMToolCall)
  : M (list MessageParam * list LLMToolCall) :=
  parsed <- lift (JSON_parse (function_arguments toolCall)) ;;
  let mcpToolCall :=
    mkLLMToolCall (call_id toolCall) (function_name toolCall) parsed None None in
  emit (ToolCallStarted mcpToolCall) ;;;
  try_catch
    (res <- executeToolCall mcpToolCall ;;
     ret ((messages ++ [ToolMessage (JSON_stringify_result res) (call_id toolCall)])%list,
          (toolCalls ++ [mkLLMToolCall (call_id toolCall) (function_name toolCall)
                           parsed (Some res) None])%list))
    (fun message =>
       ret ((messages ++ [ToolMessage ("Error: " ++ message) (call_id toolCall)])%list,
            (toolCalls ++ [mkLLMToolCall (call_id toolCall) (function_name toolCall)
                             parsed None (Some message)])%list)).

Fixpoint executeToolCalls (openaiToolCalls : list ToolCallRequest)
  (messages : list MessageParam) (toolCalls : list LLMToolCall)
  : M (list MessageParam * list LLMToolCall) :=
  match openaiToolCalls with
  | [] => ret (messages, toolCalls)
  | toolCall :: rest =>
      step <- executeOne toolCall messages toolCalls ;;
      executeToolCalls rest (fst step) (snd step)
  end.

(** The answer is [shouldContinue] with the two arrays as they are left. *)
Definition processResponse (response : ChatCompletion)
  (messages : list MessageParam) (toolCalls : list LLMToolCall)
  : M (bool * (list MessageParam * list LLMToolCall)) :=
  match choices response with
  | [] => throw "Cannot read properties of undefined (reading 'message')"
  | choice :: _ =>
      match message choice with
      | None => throw "No message in OpenAI response"
      | Some m =>
          let messages := (messages ++ [AssistantReply m])%list in
          match tool_calls m with
          | Some (first :: others) =>
              after <- executeToolCalls (first :: others) messages toolCalls ;;
              ret (true, after)
          | _ => ret (false, (messages, toolCalls))
          end
      end
  end.

Definition history_message (h : ChatHistoryMessage) : MessageParam :=
  match SessionManager.role h with
  | SessionManager.user => UserMessage (SessionManager.content h)
  | SessionManager.assistant => AssistantText (SessionManager.content h)
  end.

Definition initial_messages (query : string) (chatHistory : list ChatHistoryMessage)
  : list MessageParam :=
  (([SystemMessage SYSTEM_PROMPT] ++ map history_message chatHistory)
     ++ [UserMessage query])%list.

(** The call after the loop: another model, no [tools], one more user turn. *)
Definition forced_final (messages : list MessageParam) (toolCalls : list LLMToolCall)
  : M LLMResponse :=
  finalResponse <- chat_completions_create
      (mkModelRequest "gpt-4-1106-preview"
         (messages ++ [UserMessage FINAL_PROMPT])%list None) ;;
  ret (mkLLMResponse (final_content finalResponse) toolCalls
         ("OpenAI completed research using " ++ decimal (List.length toolCalls)
            ++ " tool(s) across " ++ decimal maxIterations
            ++ " iterations to provide a comprehensive response.")
         span_traceId).

(** [while (iteration < maxIterations)], by the number of turns still
    allowed: [remaining = maxIterations - iteration]. *)
Fixpoint loop (remaining iteration : nat)
  (messages : list MessageParam) (toolCalls : list LLMToolCall) : M LLMResponse :=
  match remaining with
  | 0 => forced_final messages toolCalls
  | S remaining' =>
      let iteration := S iteration in
      response <- makeOpenAICall messages getAvailableTools ;;
      processed <- processResponse response messages toolCalls ;;
      let '(shouldContinue, (messages, toolCalls)) := processed in
      if negb shouldContinue then
        ret (mkLLMResponse (final_content response) toolCalls
               ("OpenAI completed research using " ++ decimal (List.length toolCalls)
                  ++ " tool(s) across " ++ decimal iteration
                  ++ " iteration(s) to provide a comprehensive response.")
               span_traceId)
      else loop remaining' iteration messages toolCalls
  end.

Definition run (query : string) (chatHistory : list ChatHistoryMessage) : M LLMResponse :=
  loop maxIterations 0 (initial_messages query chatHistory) [].

(** *** Reading an answer and a trace *)

(** [response.choices[0].message], when there is one *)
Definition first_message (response : ChatCompletion) : option AssistantMessage :=
  match choices response with
  | [] => None
  | choice :: _ => message choice
  end.

(** the tool-call requests of a message; none when [tool_calls] is missing *)
Definition requested (m : AssistantMessage) : list ToolCallRequest :=
  match tool_calls m with
  | Some calls => calls
  | None => []
  end.

Definition is_model_call (e : Event) : bool :=
  match e with ModelCalled _ _ => true | ToolCallStarted _ => false end.

Definition model_calls (t : list Event) : list Event := filter is_model_call t.

(** One tool-dispatch iteration as it shows in the trace: a call to the
    iterating model with the tool schema, answered, then the start of each
    tool call the answer asked for, at least one. *)
Definition is_round (t : list Event) : Prop :=
  exists messages response started,
    t = (ModelCalled (mkModelRequest "o4-mini" messages (Some getAvailableTools))
           (Returned response)
         :: map ToolCallStarted started)%list
    /\ started <> [].

(** The forced call: the other model, no tool schema, the buffer with the
    instruction to conclude appended. *)
Definition forced_call (buffer : list MessageParam) (answer : ChatCompletion) : Event :=
  ModelCalled
    (mkModelRequest "gpt-4-1106-preview" (buffer ++ [UserMessage FINAL_PROMPT])%list None)
    (Returned answer).

(** *** How the collaborators may behave *)

(** The model boundary always answers, and answers a request that carries
    the tool schema with a message holding at least one tool-call request. *)
Definition always_requests_tools : Prop :=
  forall request w,
    exists response w',
      openai_create request w = (Returned response, w')
      /\ (request_tools request <> None ->
          exists m, first_message response = Some m /\ requested m <> []).

(** [JSON.parse] accepts the [arguments] string of the request. *)
Definition parses (call : ToolCallRequest) : Prop :=
  exists v, JSON_parse (function_arguments call) = Returned v.

(** Every [arguments] string the model sends is valid JSON. *)
Definition arguments_parse : Prop :=
  forall request w response w' m,
    openai_create request w = (Returned response, w') ->
    first_message response = Some m ->
    Forall parses (requested m).

(** "[maxIterations] tool-dispatch iterations, then one forced call whose
    content is the answer": [rounds] are the iterations, in order. *)
Definition ends_with_forced_call (query : string)
  (chatHistory : list ChatHistoryMessage) (st : St) : Prop :=
  exists r st' rounds buffer answer,
    run query chatHistory st = (Returned r, st')
    /\ trace st' = (trace st ++ List.concat rounds ++ [forced_call buffer answer])%list
    /\ List.length rounds = maxIterations
    /\ Forall is_round rounds
    /\ List.length (model_calls (List.concat rounds ++ [forced_call buffer answer])%list)
       = maxIterations + 1
    /\ content r = final_content answer.

End Run.

(** ** Vocabulary for the properties of the tools *)

(** the request [searchWeb] sends *)
Definition tavily_request (JSON_stringify : JsValue -> string)
  (tavilyApiKey : string) (query : JsValue) : Request :=
  mkRequest (JString "https://api.tavily.com/search") "POST"
    [("Content-Type", "application/json");
     ("Authorization", "Bearer " ++ tavilyApiKey)]
    (Some (JSON_stringify
             (JObject [("query", query);
                       ("search_depth", JString "basic");
                       ("max_results", JNumber "10");
                       ("include_answer", JBool true)]))).

(** the request [fetchWebContent] sends *)
Definition page_request (target : JsValue) : Request :=
  mkRequest target "GET"
    [("User-Agent", "Mozilla/5.0 (compatible; WebResearchBot/1.0)")] None.

(** one item of the search response, as [searchWeb] hands it on *)
Definition result_of_item (item : list (string * JsValue)) : SearchResult :=
  mkSearchResult (own_property "title" item) (own_property "url" item)
    (own_property "content" item) (own_property "score" item).

(** the names [getAvailableTools] declares *)
Definition declared_names : list string := map schema_name getAvailableTools.

(** ** Vocabulary for the properties of a run *)

(** the requests sent to the model boundary, in order *)
Definition requests_in (t : list Event) : list ModelRequest :=
  flat_map (fun e => match e with
                     | ModelCalled q _ => [q]
                     | ToolCallStarted _ => []
                     end) t.

(** the tool calls announced to [onToolCall], in order *)
Definition started_in (t : list Event) : list LLMToolCall :=
  flat_map (fun e => match e with
                     | ModelCalled _ _ => []
                     | ToolCallStarted c => [c]
                     end) t.

(** [b] is [a] with messages added at the end *)
Definition extends (a b : list MessageParam) : Prop :=
  exists more, b = (a ++ more)%list.

(** each request carries the buffer of the one before, and more *)
Fixpoint growing (buffer : list MessageParam) (qs : list ModelRequest) : Prop :=
  match qs with
  | [] => True
  | q :: rest =>
      extends buffer (request_messages q) /\ growing (request_messages q) rest
  end.

(** an entry of [toolCalls] has a result or an error, not both *)
Definition settled (entry : LLMToolCall) : Prop :=
  (result entry <> None /\ error entry = None)
  \/ (result entry = None /\ error entry <> None).

(** [entry] is the record of the call announced as [announced] *)
Definition records (entry announced : LLMToolCall) : Prop :=
  id entry = id announced
  /\ name entry = name announced
  /\ arguments entry = arguments announced
  /\ settled entry.

(** a request of the iterating model: [o4-mini] with the tool schema *)
Definition iterating (q : ModelRequest) : bool :=
  String.eqb (model q) "o4-mini"
  && match request_tools q with Some _ => true | None => false end.

(** the request of the forced call: the other model, no tool schema, the
    instruction to conclude as the last message *)
Definition concluding (q : ModelRequest) : Prop :=
  model q = "gpt-4-1106-preview"
  /\ request_tools q = None
  /\ exists buffer, request_messages q = (buffer ++ [UserMessage FINAL_PROMPT])%list.

End Agent.

(* ================================================================== *)
(** * The chat turn  (the [research-query] handler of the server) *)
(* ================================================================== *)

Module Server.

Import SessionManager.

(** [data] of a [research-query] event; a missing [sessionId] is [None] *)
Record Query := mkQuery {
  message : string;
  sessionId : option string
}.

(** what the handler emits when the turn is over *)
Inductive Emitted :=
| ResearchComplete (id : Z) (response reasoning : string) (toolCalls : nat)
    (traceId session : string)
| ResearchError (error : string).

Section Turn.
Variable World : Type.
Variable openai_create :
  Agent.ModelRequest -> World -> Agent.Outcome Agent.ChatCompletion * World.
Variable fetch : Agent.Request -> World -> Agent.Outcome Agent.HttpResponse * World.
Variable JSON_parse : string -> Agent.Outcome Agent.JsValue.
Variable JSON_stringify : Agent.JsValue -> string.
Variable JSON_stringify_result : Agent.ToolResult -> string.
Variable extractTitle : HtmlText.jsstring -> HtmlText.jsstring.
Variable tavilyApiKey : string.
Variable span_traceId : string.
Variable clock : nat -> Z.
Variable randomId : nat -> string.

(** the store of the session manager and the state of the agent's world *)
Definition Both : Type := State * Agent.St World.

(** [!sessionId || !sessionManager.getSession(sessionId)], then
    [createSession()]: the identifier the turn works with.  A missing or
    empty [sessionId] is falsy, and then [getSession] is not called. *)
Definition get_or_create (wanted : option string) (store : State) : string * State :=
  match wanted with
  | None => createSession clock randomId store
  | Some wanted =>
      if String.eqb wanted "" then createSession clock randomId store
      else
        match getSession clock wanted store with
        | (Some _, store1) => (wanted, store1)
        | (None, store1) => createSession clock randomId store1
        end
  end.

(** One turn.  The handler awaits only [openaiAgent.run]; [meanwhile] is
    what other handlers and the sweep do to the store during that wait.
    The [tool-update] events sent from [onToolCall] are the
    [ToolCallStarted] events of the agent's trace; the second update of
    each, sent by a timer 100 ms later, is not part of this model. *)
Definition research_query (data : Query) (meanwhile : list Op) (both : Both)
  : Emitted * Both :=
  let (identifier, store1) := get_or_create (sessionId data) (fst both) in
  let (chatHistory, store2) := getMessages clock identifier store1 in
  let (outcome, agent) :=
    Agent.run openai_create fetch JSON_parse JSON_stringify JSON_stringify_result
      extractTitle tavilyApiKey span_traceId (message data) chatHistory (snd both) in
  let store3 := exec_all clock randomId meanwhile store2 in
  match outcome with
  | Agent.Returned results =>
      let (_, store4) := addMessage clock identifier user (message data) store3 in
      let (_, store5) :=
        addMessage clock identifier assistant (Agent.content results) store4 in
      let (now, store6) := new_Date clock store5 in
      (ResearchComplete now (Agent.content results) (Agent.reasoning results)
         (List.length (Agent.toolCalls results)) (Agent.traceId results) identifier,
       (store6, agent))
  | Agent.Thrown error => (ResearchError error, (store3, agent))
  end.

(** the [start-new-chat] handler: the identifier it emits *)
Definition start_new_chat (store : State) : string * State :=
  createSession clock randomId store.

End Turn.

End Server.

(* ================================================================== *)
(** * Concrete stores, clocks and generators *)
(* ================================================================== *)

Module Scenarios.
Import SessionManager.
Local Open Scope string_scope.

(** *** Collaborators for [OpenAIAgent]; the outside world has no state *)

(** a model that asks for one web search, with the given [arguments], and
    says [thinking], whatever it is sent *)
Definition stubborn_model (args : string)
  : Agent.ModelRequest -> unit -> Agent.Outcome Agent.ChatCompletion * unit :=
  fun _ _ =>
    (Agent.Returned
       (Agent.mkChatCompletion
          [Agent.mkChoice
             (Some (Agent.mkAssistantMessage (Some "thinking")
                      (Some [Agent.mkToolCallRequest "call_1" "search_web" args])))]),
     tt).

(** a model that asks for the given tool calls, whatever it is sent *)
Definition requesting_model (calls : list Agent.ToolCallRequest)
  : Agent.ModelRequest -> unit -> Agent.Outcome Agent.ChatCompletion * unit :=
  fun _ _ =>
    (Agent.Returned
       (Agent.mkChatCompletion
          [Agent.mkChoice (Some (Agent.mkAssistantMessage (Some "thinking") (Some calls)))]),
     tt).

(** a model that answers in plain text *)
Definition plain_model
  : Agent.ModelRequest -> unit -> Agent.Outcome Agent.ChatCompletion * unit :=
  fun _ _ =>
    (Agent.Returned
       (Agent.mkChatCompletion
          [Agent.mkChoice (Some (Agent.mkAssistantMessage (Some "Hello!") None))]),
     tt).

(** a network that is down *)
Definition dead_network
  : Agent.Request -> unit -> Agent.Outcome Agent.HttpResponse * unit :=
  fun _ _ => (Agent.Thrown "fetch failed", tt).

(** a model boundary that is out of service *)
Definition broken_model
  : Agent.ModelRequest -> unit -> Agent.Outcome Agent.ChatCompletion * unit :=
  fun _ _ => (Agent.Thrown "503 Service Unavailable", tt).

(** one item of a search response *)
Definition found_item : list (string * Agent.JsValue) :=
  [("title", Agent.JString "MLflow");
   ("url", Agent.JString "https://mlflow.org");
   ("content", Agent.JString "An open source platform");
   ("score", Agent.JNumber "0.9")].

(** a page *)
Definition sample_page : HtmlText.jsstring :=
  HtmlText.units "<title> MLflow </title><p>Hello,   world</p>".

(** a network that answers every request with success, the search response
    as JSON and the page as text *)
Definition live_network
  : Agent.Request -> unit -> Agent.Outcome Agent.HttpResponse * unit :=
  fun _ _ =>
    (Agent.Returned
       (Agent.mkHttpResponse true 200 "OK" sample_page
          (Agent.Returned
             (Agent.JObject [("results", Agent.JArray [Agent.JObject found_item])]))),
     tt).

(** [JSON.parse] on the three strings used below *)
Definition parse_sample (s : string) : Agent.Outcome Agent.JsValue :=
  if String.eqb s "{}" then Agent.Returned (Agent.JObject [])
  else if String.eqb s "null" then Agent.Returned Agent.JNull
  else Agent.Thrown "Unexpected end of JSON input".

Definition stringify_sample : Agent.JsValue -> string := fun _ => "{}".
Definition stringify_result_sample : Agent.ToolResult -> string := fun _ => "[]".
Definition title_sample : HtmlText.jsstring -> HtmlText.jsstring :=
  fun _ => HtmlText.units "Untitled Page".

Definition start : Agent.St unit := Agent.mkSt tt [].

(** [run] with these collaborators and the given model *)
Definition sample_run
  (model : Agent.ModelRequest -> unit -> Agent.Outcome Agent.ChatCompletion * unit)
  (query : string) : Agent.Outcome Agent.LLMResponse * Agent.St unit :=
  Agent.run model dead_network parse_sample stringify_sample
    stringify_result_sample title_sample "tvly-key" "trace-1" query [] start.

(** what a run returned: its content and its tool calls *)
Definition content_and_calls (out : Agent.Outcome Agent.LLMResponse * Agent.St unit)
  : option (string * list Agent.LLMToolCall) :=
  match fst out with
  | Agent.Returned r => Some (Agent.content r, Agent.toolCalls r)
  | Agent.Thrown _ => None
  end.

(** a clock that always reads [t] *)
Definition frozen (t : Z) : nat -> Z := fun _ => t.

(** a generator that draws the same identifier every time *)
Definition same_id : nat -> string := fun _ => "k3x9a2b7c".

Definition numbered : nat -> string := fun n => Agent.decimal n.

Definition hello : ChatMessage := mkChatMessage user "hello" 0.

(** one session, [abc], with the given history, last active at [last] *)
Definition one_session (history : list ChatMessage) (last : Z) : State :=
  mkState [("abc", mkChatSession "abc" history 0 last)] 0 0.

(** one hundred and one sessions, session [n] last active at time [n] *)
Definition crowded : State :=
  mkState
    (map (fun n => (numbered n, mkChatSession (numbered n) [] 0 (Z.of_nat n)))
       (seq 0 101))
    0 0.

End Scenarios.

(* ================================================================== *)
(** * Properties of the session store *)
(* ================================================================== *)

Unset Implicit Arguments.

Module SessionStoreFacts.
Import SessionManager.

(** ** The map *)

Lemma Map_get_set_same k v m : Map_get k (Map_set k v m) = Some v.
Proof.
  induction m as [|[k' v'] m IH]; simpl.
  - now rewrite String.eqb_refl.
  - destruct (String.eqb k k') eqn:E; simpl; rewrite E; auto.
Qed.

Lemma Map_get_set_other k k' v m :
  k <> k' -> Map_get k' (Map_set k v m) = Map_get k' m.
Proof.
  intros Hne. induction m as [|[k0 v0] m IH]; simpl.
  - destruct (String.eqb k' k) eqn:E; auto.
    apply String.eqb_eq in E. congruence.
  - destruct (String.eqb k k0) eqn:E; simpl.
    + apply String.eqb_eq in E. subst k0.
      destruct (String.eqb k' k) eqn:E'; auto.
      apply String.eqb_eq in E'. congruence.
    + now rewrite IH.
Qed.

Lemma Map_get_delete_same k m : Map_get k (Map_delete k m) = None.
Proof.
  induction m as [|[k' v'] m IH]; simpl; auto.
  destruct (String.eqb k k') eqn:E; simpl; auto. now rewrite E.
Qed.

Lemma Map_get_delete_other k k' m :
  k <> k' -> Map_get k' (Map_delete k m) = Map_get k' m.
Proof.
  intros Hne. induction m as [|[k0 v0] m IH]; simpl; auto.
  destruct (String.eqb k k0) eqn:E; simpl.
  - apply String.eqb_eq in E. subst k0.
    destruct (String.eqb k' k) eqn:E'; auto.
    apply String.eqb_eq in E'. congruence.
  - now rewrite IH.
Qed.

Lemma Map_get_In_keys k m : In k (keys m) <-> Map_get k m <> None.
Proof.
  induction m as [|[k' v'] m IH]; simpl.
  - split; [tauto | congruence].
  - destruct (String.eqb k k') eqn:E.
    + apply String.eqb_eq in E. subst. split; [congruence | auto].
    + apply String.eqb_neq in E. rewrite <- IH. split.
      * intros [H|H]; [congruence | auto].
      * auto.
Qed.

Lemma Map_has_In_keys k m : Map_has k m = true <-> In k (keys m).
Proof.
  rewrite Map_get_In_keys. unfold Map_has.
  destruct (Map_get k m); split; congruence.
Qed.

Lemma Map_get_In k v m : Map_get k m = Some v -> In (k, v) m.
Proof.
  induction m as [|[k' v'] m IH]; simpl; [congruence|].
  destruct (String.eqb k k') eqn:E.
  - apply String.eqb_eq in E. intros [= ->]. subst. auto.
  - auto.
Qed.

Lemma In_Map_get k v m : NoDup (keys m) -> In (k, v) m -> Map_get k m = Some v.
Proof.
  induction m as [|[k' v'] m IH]; simpl; [tauto|].
  intros Hnd [H|H].
  - inversion H; subst. now rewrite String.eqb_refl.
  - inversion Hnd as [|? ? Hnot Hnd']; subst.
    destruct (String.eqb k k') eqn:E.
    + apply String.eqb_eq in E. subst k'.
      exfalso. apply Hnot. change k with (fst (k, v)). now apply in_map.
    + auto.
Qed.

Lemma keys_set k v m :
  keys (Map_set k v m) = if Map_has k m then keys m else keys m ++ [k].
Proof.
  unfold Map_has.
  induction m as [|[k' v'] m IH]; simpl; auto.
  destruct (String.eqb k k') eqn:E; simpl; auto.
  rewrite IH. now destruct (Map_get k m).
Qed.

Lemma keys_delete k m :
  keys (Map_delete k m) = filter (fun k' => negb (String.eqb k k')) (keys m).
Proof.
  induction m as [|[k' v'] m IH]; simpl; auto.
  destruct (String.eqb k k'); simpl; now rewrite IH.
Qed.

Lemma NoDup_keys_set k v m : NoDup (keys m) -> NoDup (keys (Map_set k v m)).
Proof.
  intros Hnd. rewrite keys_set.
  destruct (Map_has k m) eqn:E; auto.
  apply NoDup_app; auto.
  - repeat constructor. intros [].
  - intros x Hx [<-|[]].
    apply Map_has_In_keys in Hx. congruence.
Qed.

Lemma NoDup_keys_delete k m : NoDup (keys m) -> NoDup (keys (Map_delete k m)).
Proof. intros. rewrite keys_delete. now apply NoDup_filter. Qed.

Lemma In_delete e k m : In e (Map_delete k m) <-> In e m /\ fst e <> k.
Proof.
  unfold Map_delete. rewrite filter_In.
  destruct (String.eqb k (fst e)) eqn:E; simpl.
  - apply String.eqb_eq in E. split; [intros [_ ?]; discriminate | intros [_ ?]; congruence].
  - apply String.eqb_neq in E. split; intros [? _]; split; auto.
Qed.

Lemma size_set k v m : Map_size (Map_set k v m) <= S (Map_size m).
Proof.
  unfold Map_size.
  induction m as [|[k' v'] m IH]; simpl; auto.
  destruct (String.eqb k k'); simpl; lia.
Qed.

Lemma size_delete k m : Map_size (Map_delete k m) <= Map_size m.
Proof. apply filter_length_le. Qed.

Lemma size_delete_present k m :
  NoDup (keys m) -> In k (keys m) -> S (Map_size (Map_delete k m)) = Map_size m.
Proof.
  unfold Map_size.
  induction m as [|[k' v'] m IH]; simpl; [tauto|].
  intros Hnd Hin. inversion Hnd as [|? ? Hnot Hnd']; subst.
  destruct (String.eqb k k') eqn:E; simpl.
  - apply String.eqb_eq in E. subst k'. f_equal.
    fold (Map_delete k m).
    assert (Hall : forall e, In e m -> fst e <> k).
    { intros e He Heq. apply Hnot. rewrite <- Heq. now apply in_map. }
    clear -Hall. induction m as [|e m IH]; simpl; auto.
    destruct (String.eqb k (fst e)) eqn:E; simpl.
    + apply String.eqb_eq in E. exfalso. apply (Hall e); simpl; auto.
    + f_equal. apply IH. intros; apply Hall; simpl; auto.
  - apply String.eqb_neq in E. destruct Hin as [Hin|Hin]; [congruence|].
    f_equal. now apply IH.
Qed.


(** ** The stable sort *)

Section SortFacts.
Context {A : Type} (cmp : A -> A -> Z).

Lemma sort_insert_perm x l : Permutation (sort_insert cmp x l) (x :: l).
Proof.
  induction l as [|y l IH]; simpl; auto.
  destruct (cmp x y <=? 0)%Z; auto.
  rewrite IH. apply perm_swap.
Qed.

Lemma Array_sort_perm l : Permutation (Array_sort cmp l) l.
Proof.
  induction l as [|x l IH]; simpl; auto.
  rewrite sort_insert_perm. now constructor.
Qed.

Lemma Array_sort_length l : List.length (Array_sort cmp l) = List.length l.
Proof. apply Permutation_length, Array_sort_perm. Qed.

End SortFacts.

Lemma sort_insert_sorted x l :
  StronglySorted older_first l ->
  StronglySorted older_first (sort_insert by_lastActivity x l).
Proof.
  induction 1 as [|y l Hs IH Hall]; simpl.
  - repeat constructor.
  - unfold by_lastActivity at 1.
    destruct (lastActivity (snd x) - lastActivity (snd y) <=? 0)%Z eqn:E.
    + apply Z.leb_le in E. constructor; [constructor; auto|].
      constructor; [unfold older_first; lia|].
      eapply Forall_impl; [|exact Hall].
      unfold older_first. intros; lia.
    + apply Z.leb_gt in E. constructor; auto.
      eapply Permutation_Forall.
      * symmetry. apply sort_insert_perm.
      * constructor; [unfold older_first; lia | exact Hall].
Qed.

Lemma Array_sort_sorted l :
  StronglySorted older_first (Array_sort by_lastActivity l).
Proof.
  induction l; simpl; [constructor | now apply sort_insert_sorted].
Qed.

(** A newest entry that was inserted last is sorted last. *)
Lemma sort_insert_last x l y :
  (lastActivity (snd x) <= lastActivity (snd y))%Z ->
  sort_insert by_lastActivity x (l ++ [y]) = sort_insert by_lastActivity x l ++ [y].
Proof.
  intros Hle. induction l as [|z l IH]; simpl.
  - unfold by_lastActivity.
    destruct (lastActivity (snd x) - lastActivity (snd y) <=? 0)%Z eqn:E; auto.
    apply Z.leb_gt in E. lia.
  - destruct (by_lastActivity x z <=? 0)%Z; simpl; auto. now rewrite IH.
Qed.

Lemma Array_sort_last l y :
  Forall (fun x => older_first x y) l ->
  Array_sort by_lastActivity (l ++ [y]) = Array_sort by_lastActivity l ++ [y].
Proof.
  induction 1 as [|x l Hx Hall IH]; simpl; auto.
  rewrite IH. now apply sort_insert_last.
Qed.

(** ** Deleting several keys *)

Lemma delete_entries_keys es m : delete_entries es m = delete_keys (keys es) m.
Proof.
  unfold delete_entries, delete_keys, keys.
  revert m. induction es as [|e es IH]; simpl; auto.
Qed.

Lemma In_delete_keys e ks m :
  In e (delete_keys ks m) <-> In e m /\ ~ In (fst e) ks.
Proof.
  unfold delete_keys. revert m.
  induction ks as [|k ks IH]; simpl; intros m.
  - tauto.
  - rewrite IH, In_delete. intuition congruence.
Qed.

Lemma NoDup_delete_keys ks m :
  NoDup (keys m) -> NoDup (keys (delete_keys ks m)).
Proof.
  unfold delete_keys. revert m.
  induction ks as [|k ks IH]; simpl; auto.
  intros m H. apply IH. now apply NoDup_keys_delete.
Qed.

Lemma size_delete_keys_le ks m : Map_size (delete_keys ks m) <= Map_size m.
Proof.
  unfold delete_keys. revert m.
  induction ks as [|k ks IH]; simpl; auto.
  intros m. etransitivity; [apply IH | apply size_delete].
Qed.

Lemma size_delete_keys ks m :
  NoDup (keys m) -> NoDup ks -> incl ks (keys m) ->
  Map_size (delete_keys ks m) + List.length ks = Map_size m.
Proof.
  unfold delete_keys. revert m.
  induction ks as [|k ks IH]; simpl; intros m Hm Hks Hincl.
  - lia.
  - inversion Hks as [|? ? Hnot Hks']; subst.
    assert (Hk : In k (keys m)) by (apply Hincl; simpl; auto).
    pose proof (size_delete_present k m Hm Hk) as Hsz.
    assert (IH' : Map_size (fold_left (fun acc k0 => Map_delete k0 acc) ks (Map_delete k m))
                  + List.length ks = Map_size (Map_delete k m)).
    { apply IH; auto.
      - now apply NoDup_keys_delete.
      - intros k' Hk'. rewrite keys_delete. apply filter_In. split.
        + apply Hincl. simpl; auto.
        + apply negb_true_iff, String.eqb_neq. intros ->. contradiction. }
    unfold Map_size in *. lia.
Qed.

Lemma Forall_delete_keys (P : string * ChatSession -> Prop) ks m :
  Forall P m -> Forall P (delete_keys ks m).
Proof.
  rewrite !Forall_forall. intros H e He.
  apply In_delete_keys in He. apply H, He.
Qed.

Lemma Forall_set (Q : ChatSession -> Prop) k v m :
  Forall (fun e => Q (snd e)) m -> Q v ->
  Forall (fun e => Q (snd e)) (Map_set k v m).
Proof.
  intros H Hv. induction H as [|[k' v'] m He Hm IH]; simpl.
  - repeat constructor. exact Hv.
  - destruct (String.eqb k k'); constructor; auto.
Qed.

(** ** [enforceSessionLimit] *)

Lemma enforceSessionLimit_sessions st :
  sessions (snd (enforceSessionLimit st)) =
    if Map_size (sessions st) <=? MAX_SESSIONS then sessions st
    else delete_entries
           (firstn (Map_size (sessions st) - MAX_SESSIONS)
              (Array_sort by_lastActivity (sessions st)))
           (sessions st).
Proof.
  unfold enforceSessionLimit, bind, get_sessions, put_sessions, ret, slice0.
  destruct (Map_size (sessions st) <=? MAX_SESSIONS); reflexivity.
Qed.

Lemma enforceSessionLimit_counters st :
  ticks (snd (enforceSessionLimit st)) = ticks st /\
  draws (snd (enforceSessionLimit st)) = draws st.
Proof.
  unfold enforceSessionLimit, bind, get_sessions, put_sessions, ret.
  destruct (Map_size (sessions st) <=? MAX_SESSIONS); simpl; auto.
Qed.

Lemma evicted_keys m n :
  NoDup (keys m) ->
  NoDup (keys (firstn n (Array_sort by_lastActivity m))) /\
  incl (keys (firstn n (Array_sort by_lastActivity m))) (keys m).
Proof.
  intros Hnd.
  assert (Hp : Permutation (keys (Array_sort by_lastActivity m)) (keys m))
    by (apply Permutation_map, Array_sort_perm).
  assert (Hs : NoDup (keys (Array_sort by_lastActivity m)))
    by (eapply Permutation_NoDup; [symmetry; exact Hp | exact Hnd]).
  rewrite <- (firstn_skipn n (Array_sort by_lastActivity m)) in Hs, Hp.
  unfold keys in *. rewrite map_app in Hs, Hp. split.
  - now apply NoDup_app_remove_r in Hs.
  - intros k Hk. eapply Permutation_in; [exact Hp|]. apply in_or_app; auto.
Qed.

Lemma enforceSessionLimit_size st :
  NoDup (keys (sessions st)) ->
  Map_size (sessions (snd (enforceSessionLimit st)))
    = Nat.min (Map_size (sessions st)) MAX_SESSIONS.
Proof.
  intros Hnd. rewrite enforceSessionLimit_sessions.
  destruct (Map_size (sessions st) <=? MAX_SESSIONS) eqn:E.
  - apply Nat.leb_le in E. lia.
  - apply Nat.leb_gt in E. rewrite delete_entries_keys.
    destruct (evicted_keys (sessions st) (Map_size (sessions st) - MAX_SESSIONS) Hnd) as [H1 H2].
    pose proof (size_delete_keys _ _ Hnd H1 H2) as Hsz.
    unfold keys in Hsz at 2. rewrite length_map, length_firstn, Array_sort_length in Hsz.
    unfold Map_size in *. lia.
Qed.

Lemma enforceSessionLimit_NoDup st :
  NoDup (keys (sessions st)) ->
  NoDup (keys (sessions (snd (enforceSessionLimit st)))).
Proof.
  intros Hnd. rewrite enforceSessionLimit_sessions.
  destruct (Map_size (sessions st) <=? MAX_SESSIONS); auto.
  rewrite delete_entries_keys. now apply NoDup_delete_keys.
Qed.

Lemma enforceSessionLimit_Forall (P : string * ChatSession -> Prop) st :
  Forall P (sessions st) -> Forall P (sessions (snd (enforceSessionLimit st))).
Proof.
  intros H. rewrite enforceSessionLimit_sessions.
  destruct (Map_size (sessions st) <=? MAX_SESSIONS); auto.
  rewrite delete_entries_keys. now apply Forall_delete_keys.
Qed.


(** ** The operations, one by one *)

Ltac run_store :=
  unfold addMessage, getMessages, getSession, deleteSession, getSessionCount,
    createSession, destroy, isSessionExpired, generateSessionId, new_Date,
    get_sessions, put_sessions, bind, ret in *;
  simpl in *.

Section Operations.
Variable clock : nat -> Z.
Variable randomId : nat -> string.

Lemma getSession_sessions k st :
  sessions (snd (getSession clock k st)) =
    match Map_get k (sessions st) with
    | None => sessions st
    | Some session =>
        if (clock (ticks st) - lastActivity session >? SESSION_EXPIRE_MS)%Z
        then Map_delete k (sessions st)
        else Map_set k (touch (clock (S (ticks st))) session) (sessions st)
    end.
Proof.
  run_store. destruct (Map_get k (sessions st)); simpl; auto.
  destruct (clock (ticks st) - lastActivity c >? SESSION_EXPIRE_MS)%Z; reflexivity.
Qed.

Lemma getSession_result k st :
  fst (getSession clock k st) =
    match Map_get k (sessions st) with
    | None => None
    | Some session =>
        if (clock (ticks st) - lastActivity session >? SESSION_EXPIRE_MS)%Z
        then None
        else Some (touch (clock (S (ticks st))) session)
    end.
Proof.
  run_store. destruct (Map_get k (sessions st)); simpl; auto.
  destruct (clock (ticks st) - lastActivity c >? SESSION_EXPIRE_MS)%Z; reflexivity.
Qed.

Lemma getSession_ticks k st :
  ticks (snd (getSession clock k st)) =
    match Map_get k (sessions st) with
    | None => ticks st
    | Some session =>
        if (clock (ticks st) - lastActivity session >? SESSION_EXPIRE_MS)%Z
        then S (ticks st)
        else S (S (ticks st))
    end.
Proof.
  run_store. destruct (Map_get k (sessions st)); simpl; auto.
  destruct (clock (ticks st) - lastActivity c >? SESSION_EXPIRE_MS)%Z; reflexivity.
Qed.

Lemma addMessage_sessions k r c st :
  sessions (snd (addMessage clock k r c st)) =
    match fst (getSession clock k st) with
    | None => sessions (snd (getSession clock k st))
    | Some session =>
        let st1 := snd (getSession clock k st) in
        let pushed := messages session ++ [mkChatMessage r c (clock (ticks st1))] in
        Map_set k
          (mkChatSession (id session) (latest MAX_MESSAGES_PER_SESSION pushed)
             (createdAt session) (clock (S (ticks st1))))
          (sessions st1)
    end.
Proof.
  unfold addMessage at 1. unfold bind at 1.
  destruct (getSession clock k st) as [[session|] st1]; simpl; auto.
  unfold latest, splice0.
  destruct (MAX_MESSAGES_PER_SESSION <?
            List.length (messages session ++ [mkChatMessage r c (clock (ticks st1))])) eqn:E;
    auto.
  apply Nat.ltb_ge in E.
  replace (List.length (messages session ++ [mkChatMessage r c (clock (ticks st1))])
           - MAX_MESSAGES_PER_SESSION) with 0 by lia.
  reflexivity.
Qed.

Lemma addMessage_result k r c st :
  fst (addMessage clock k r c st) =
    match fst (getSession clock k st) with Some _ => true | None => false end.
Proof.
  unfold addMessage at 1. unfold bind at 1.
  destruct (getSession clock k st) as [[session|] st1]; reflexivity.
Qed.

Lemma latest_length n l : List.length (latest n l) <= n.
Proof. unfold latest. rewrite length_skipn. lia. Qed.

Lemma latest_suffix n l : exists dropped, l = dropped ++ latest n l.
Proof.
  exists (firstn (List.length l - n) l). unfold latest.
  now rewrite firstn_skipn.
Qed.

End Operations.


(** ** The caps as an invariant of every operation *)

Lemma size_set_present k v m :
  In k (keys m) -> Map_size (Map_set k v m) = Map_size m.
Proof.
  intros Hin. unfold Map_size.
  rewrite <- (length_map fst (Map_set k v m)), <- (length_map fst m).
  fold (keys (Map_set k v m)). fold (keys m). rewrite keys_set.
  apply Map_has_In_keys in Hin. now rewrite Hin.
Qed.

Lemma within_caps_delete k m : within_caps m -> within_caps (Map_delete k m).
Proof.
  intros (Hnd & Hsz & Hall). repeat split.
  - now apply NoDup_keys_delete.
  - pose proof (size_delete k m). lia.
  - rewrite Forall_forall in *. intros e He. apply In_delete in He. apply Hall, He.
Qed.

Lemma within_caps_delete_keys ks m : within_caps m -> within_caps (delete_keys ks m).
Proof.
  unfold delete_keys. revert m. induction ks as [|k ks IH]; simpl; auto.
  intros m H. apply IH. now apply within_caps_delete.
Qed.

Lemma within_caps_set_present k v m :
  within_caps m -> In k (keys m) ->
  List.length (messages v) <= MAX_MESSAGES_PER_SESSION ->
  within_caps (Map_set k v m).
Proof.
  intros (Hnd & Hsz & Hall) Hin Hv. repeat split.
  - now apply NoDup_keys_set.
  - now rewrite size_set_present.
  - now apply Forall_set with (Q := fun s => List.length (messages s) <= MAX_MESSAGES_PER_SESSION).
Qed.

Lemma within_caps_value k v m :
  within_caps m -> Map_get k m = Some v ->
  List.length (messages v) <= MAX_MESSAGES_PER_SESSION.
Proof.
  intros (_ & _ & Hall) Hget. rewrite Forall_forall in Hall.
  apply (Hall (k, v)). now apply Map_get_In.
Qed.

Section Invariant.
Variable clock : nat -> Z.
Variable randomId : nat -> string.

Lemma getSession_within_caps k st :
  within_caps (sessions st) -> within_caps (sessions (snd (getSession clock k st))).
Proof.
  intros H. rewrite getSession_sessions.
  destruct (Map_get k (sessions st)) as [session|] eqn:E; auto.
  destruct (clock (ticks st) - lastActivity session >? SESSION_EXPIRE_MS)%Z.
  - now apply within_caps_delete.
  - apply within_caps_set_present; auto.
    + apply Map_get_In_keys. congruence.
    + simpl. eapply within_caps_value; eauto.
Qed.

Lemma getSession_found k st session :
  fst (getSession clock k st) = Some session ->
  Map_get k (sessions (snd (getSession clock k st))) = Some session.
Proof.
  rewrite getSession_result, getSession_sessions.
  destruct (Map_get k (sessions st)) as [s|]; [|discriminate].
  destruct (clock (ticks st) - lastActivity s >? SESSION_EXPIRE_MS)%Z; [discriminate|].
  intros [= <-]. apply Map_get_set_same.
Qed.

Lemma addMessage_within_caps k r c st :
  within_caps (sessions st) -> within_caps (sessions (snd (addMessage clock k r c st))).
Proof.
  intros H. rewrite addMessage_sessions.
  pose proof (getSession_within_caps k st H) as H1.
  destruct (fst (getSession clock k st)) as [session|] eqn:E; auto.
  cbv zeta. apply within_caps_set_present; auto.
  - apply Map_get_In_keys. rewrite (getSession_found k st session E). discriminate.
  - simpl. apply latest_length.
Qed.

Lemma findExpired_sessions es st :
  sessions (snd (findExpired clock es st)) = sessions st.
Proof.
  revert st. induction es as [|[k s] es IH]; intros st; simpl; auto.
  unfold bind, isSessionExpired, new_Date, ret. simpl.
  match goal with |- context [findExpired clock es ?x] =>
    specialize (IH x); destruct (findExpired clock es x) end.
  simpl in *. exact IH.
Qed.

Lemma cleanup_sessions st :
  sessions (snd (cleanup clock st)) =
    sessions (snd (enforceSessionLimit
                     (mkState (delete_keys (fst (findExpired clock (sessions st) st))
                                 (sessions st))
                        (ticks (snd (findExpired clock (sessions st) st)))
                        (draws (snd (findExpired clock (sessions st) st)))))).
Proof.
  unfold cleanup, bind, get_sessions, put_sessions.
  destruct (findExpired clock (sessions st) st) as [expired st1]. reflexivity.
Qed.

Lemma createSession_sessions st :
  sessions (snd (createSession clock randomId st)) =
    sessions (snd (enforceSessionLimit
                     (mkState
                        (Map_set (randomId (draws st))
                           (mkChatSession (randomId (draws st)) []
                              (clock (ticks st)) (clock (S (ticks st))))
                           (sessions st))
                        (S (S (ticks st))) (S (draws st))))).
Proof.
  unfold createSession, bind, generateSessionId, new_Date, get_sessions,
    put_sessions, ret. simpl.
  match goal with |- context [enforceSessionLimit ?x] =>
    destruct (enforceSessionLimit x) end.
  reflexivity.
Qed.

Lemma createSession_result st :
  fst (createSession clock randomId st) = randomId (draws st).
Proof.
  unfold createSession, bind, generateSessionId, new_Date, get_sessions,
    put_sessions, ret. simpl.
  match goal with |- context [enforceSessionLimit ?x] =>
    destruct (enforceSessionLimit x) end.
  reflexivity.
Qed.

Lemma enforceSessionLimit_within_caps st :
  NoDup (keys (sessions st)) ->
  Forall (fun e => List.length (messages (snd e)) <= MAX_MESSAGES_PER_SESSION)
    (sessions st) ->
  within_caps (sessions (snd (enforceSessionLimit st))).
Proof.
  intros Hnd Hall. repeat split.
  - now apply enforceSessionLimit_NoDup.
  - rewrite enforceSessionLimit_size by assumption. lia.
  - now apply enforceSessionLimit_Forall.
Qed.

Lemma exec_within_caps o st :
  within_caps (sessions st) -> within_caps (sessions (exec clock randomId o st)).
Proof.
  intros H. destruct o; simpl.
  - rewrite createSession_sessions. destruct H as (Hnd & Hsz & Hall).
    apply enforceSessionLimit_within_caps; simpl.
    + now apply NoDup_keys_set.
    + apply Forall_set with
        (Q := fun s => List.length (messages s) <= MAX_MESSAGES_PER_SESSION);
        [assumption | simpl; unfold MAX_MESSAGES_PER_SESSION; lia].
  - now apply getSession_within_caps.
  - now apply addMessage_within_caps.
  - unfold getMessages, bind, ret.
    pose proof (getSession_within_caps sessionId st H).
    destruct (getSession clock sessionId st); exact H0.
  - unfold deleteSession, bind, get_sessions, put_sessions, ret. simpl.
    now apply within_caps_delete.
  - exact H.
  - rewrite cleanup_sessions. destruct H as (Hnd & Hsz & Hall).
    apply enforceSessionLimit_within_caps; simpl.
    + now apply NoDup_delete_keys.
    + now apply Forall_delete_keys.
  - simpl. repeat split; [constructor | unfold Map_size, MAX_SESSIONS; simpl; lia | constructor].
Qed.

Lemma exec_all_within_caps ops st :
  within_caps (sessions st) ->
  within_caps (sessions (exec_all clock randomId ops st)).
Proof.
  unfold exec_all. revert st.
  induction ops as [|o ops IH]; simpl; auto.
  intros st H. apply IH. now apply exec_within_caps.
Qed.

Lemma initial_within_caps : within_caps (sessions initial).
Proof.
  repeat split; [constructor | unfold Map_size, MAX_SESSIONS; simpl; lia | constructor].
Qed.

End Invariant.

Lemma distinct_NoDup l : distinct l = true -> NoDup l.
Proof.
  induction l as [|k l IH]; simpl; [constructor|].
  intros H. apply andb_true_iff in H. destruct H as [H1 H2].
  constructor; auto.
  intros Hin. apply negb_true_iff in H1.
  assert (existsb (String.eqb k) l = true).
  { apply existsb_exists. exists k. split; auto. apply String.eqb_refl. }
  congruence.
Qed.

Lemma NoDup_app_apart {A} (l1 l2 : list A) x :
  NoDup (l1 ++ l2) -> In x l1 -> In x l2 -> False.
Proof.
  induction l1 as [|y l1 IH]; simpl; [tauto|].
  intros Hnd [->|H1] H2; inversion Hnd as [|? ? Hnot Hnd']; subst.
  - apply Hnot, in_or_app. now right.
  - now apply IH.
Qed.

Lemma Map_get_delete_keys_other k ks m :
  ~ In k ks -> Map_get k (delete_keys ks m) = Map_get k m.
Proof.
  unfold delete_keys. revert m.
  induction ks as [|k' ks IH]; simpl; auto.
  intros m Hnot. rewrite IH by (intros H; apply Hnot; now right).
  apply Map_get_delete_other. intros Heq. apply Hnot. now left.
Qed.

Lemma Map_set_absent k v m : ~ In k (keys m) -> Map_set k v m = m ++ [(k, v)].
Proof.
  induction m as [|[k' v'] m IH]; simpl; auto.
  intros Hnot. destruct (String.eqb k k') eqn:E.
  - apply String.eqb_eq in E. exfalso. apply Hnot. now left.
  - rewrite IH; auto.
Qed.

(** ** The claims about the store *)

Section StoreClaims.
Variable clock : nat -> Z.
Variable randomId : nat -> string.

(** C4.  In every state the store reaches from the empty one, whatever the
    operations, no session holds more than [MAX_MESSAGES_PER_SESSION] (100)
    messages.  A successful [addMessage] leaves under the session's key
    the pushed array cut from the oldest end: the old messages followed by
    the new one, without the first [length - 100] of them when there are
    more than 100, so that what is kept is a suffix, in order, of exactly
    100 messages in that case. *)
Theorem addMessage_message_cap :
  (forall ops k s,
      Map_get k (sessions (exec_all clock randomId ops initial)) = Some s ->
      List.length (messages s) <= MAX_MESSAGES_PER_SESSION)
  /\
  (forall st k r c,
      fst (addMessage clock k r c st) = true ->
      exists before stamp after,
        let pushed := messages before ++ [mkChatMessage r c stamp] in
        Map_get k (sessions st) = Some before
        /\ Map_get k (sessions (snd (addMessage clock k r c st))) = Some after
        /\ messages after = skipn (List.length pushed - MAX_MESSAGES_PER_SESSION) pushed
        /\ List.length (messages after) <= MAX_MESSAGES_PER_SESSION
        /\ (exists dropped, pushed = dropped ++ messages after)
        /\ (MAX_MESSAGES_PER_SESSION < List.length pushed ->
            List.length (messages after) = MAX_MESSAGES_PER_SESSION)).
Proof.
  split.
  - intros ops k s Hget.
    eapply within_caps_value; [|exact Hget].
    apply exec_all_within_caps, initial_within_caps.
  - intros st k r c Hok.
    rewrite addMessage_result in Hok.
    pose proof (addMessage_sessions clock k r c st) as Hs.
    destruct (fst (getSession clock k st)) as [session|] eqn:E; [|discriminate].
    pose proof E as E'. rewrite getSession_result in E'.
    destruct (Map_get k (sessions st)) as [before|] eqn:Hb; [|discriminate].
    destruct (clock (ticks st) - lastActivity before >? SESSION_EXPIRE_MS)%Z;
      [discriminate|].
    injection E' as E'. cbv zeta in Hs.
    set (stamp := clock (ticks (snd (getSession clock k st)))) in *.
    exists before, stamp.
    eexists. cbv zeta. split; [reflexivity|].
    split; [rewrite Hs; apply Map_get_set_same|].
    subst session. simpl.
    split; [reflexivity|].
    split; [apply latest_length|].
    split; [apply latest_suffix|].
    intros Hlong. unfold latest. rewrite length_skipn. lia.
Qed.

(** C5.  In every state the store reaches from the empty one, whatever the
    operations (creations, reads, additions, deletions, sweeps), it holds
    at most [MAX_SESSIONS] (100) sessions.  When [enforceSessionLimit]
    finds more, it sorts the entries by [lastActivity] ascending and
    deletes the first [size - 100] of the sorted array: exactly 100
    sessions stay, they are those of the rest of the sorted array, and
    none of them was active before a deleted one. *)
Theorem session_count_bounded :
  (forall ops,
      Map_size (sessions (exec_all clock randomId ops initial)) <= MAX_SESSIONS)
  /\
  (forall st,
      NoDup (keys (sessions st)) ->
      MAX_SESSIONS < Map_size (sessions st) ->
      let m := sessions st in
      let sorted := Array_sort by_lastActivity m in
      let n := Map_size m - MAX_SESSIONS in
      let kept := sessions (snd (enforceSessionLimit st)) in
      Permutation sorted m
      /\ StronglySorted older_first sorted
      /\ kept = delete_entries (firstn n sorted) m
      /\ Map_size kept = MAX_SESSIONS
      /\ (forall e, In e kept <-> In e (skipn n sorted))
      /\ (forall a b, In a (firstn n sorted) -> In b kept -> older_first a b)).
Proof.
  split.
  - intros ops.
    apply (exec_all_within_caps clock randomId ops initial initial_within_caps).
  - intros st Hnd Hbig m sorted n kept.
    assert (Hperm : Permutation sorted m) by apply Array_sort_perm.
    assert (Hsorted : StronglySorted older_first sorted) by apply Array_sort_sorted.
    assert (Hkept : kept = delete_entries (firstn n sorted) m).
    { unfold kept. rewrite enforceSessionLimit_sessions.
      fold m. destruct (Map_size m <=? MAX_SESSIONS) eqn:E; auto.
      apply Nat.leb_le in E. subst m. lia. }
    assert (Hin : forall e, In e kept <-> In e (skipn n sorted)).
    { intros e. rewrite Hkept, delete_entries_keys, In_delete_keys.
      assert (Hnds : NoDup (keys sorted)).
      { eapply Permutation_NoDup; [|exact Hnd].
        symmetry. apply Permutation_map. exact Hperm. }
      rewrite <- (firstn_skipn n sorted) in Hnds, Hperm.
      unfold keys in Hnds. rewrite map_app in Hnds.
      split.
      - intros [Hm Hnot].
        apply (Permutation_in _ (Permutation_sym Hperm)) in Hm.
        apply in_app_or in Hm. destruct Hm as [Hm|Hm]; auto.
        exfalso. apply Hnot. now apply in_map.
      - intros He. split.
        + eapply Permutation_in; [exact Hperm|]. apply in_or_app; auto.
        + intros Hk. apply in_map with (f := fst) in He.
          exact (NoDup_app_apart _ _ (fst e) Hnds Hk He). }
    repeat split; auto.
    + unfold kept. rewrite enforceSessionLimit_size by assumption.
      fold m. unfold Map_size in *. subst m. lia.
    + apply Hin.
    + apply Hin.
    + intros a b Ha Hb. apply Hin in Hb.
      rewrite <- (firstn_skipn n sorted) in Hsorted.
      clear -Hsorted Ha Hb.
      induction (firstn n sorted) as [|x l IH]; [destruct Ha|].
      simpl in Hsorted. inversion Hsorted as [|? ? Hs Hall]; subst.
      destruct Ha as [<-|Ha]; auto.
      rewrite Forall_forall in Hall. apply Hall, in_or_app; auto.
Qed.

(** C6.  For a session stored under [k]: if the clock read by
    [isSessionExpired] is more than [SESSION_EXPIRE_MS] (one hour) past the
    session's [lastActivity], [getSession k] returns nothing and the key is
    gone from the map; otherwise it returns the session with
    [lastActivity] set to the next clock reading, and the map holds the
    session so refreshed.  The store's state is arbitrary: no sweep is
    assumed to have run. *)
Theorem getSession_lazy_expiry st k session :
  Map_get k (sessions st) = Some session ->
  let now := clock (ticks st) in
  let after := snd (getSession clock k st) in
  ((now - lastActivity session > SESSION_EXPIRE_MS)%Z ->
     fst (getSession clock k st) = None /\ Map_get k (sessions after) = None)
  /\
  ((now - lastActivity session <= SESSION_EXPIRE_MS)%Z ->
     let refreshed := touch (clock (S (ticks st))) session in
     fst (getSession clock k st) = Some refreshed
     /\ Map_get k (sessions after) = Some refreshed
     /\ lastActivity refreshed = clock (S (ticks st))
     /\ messages refreshed = messages session).
Proof.
  intros Hget now after. unfold after.
  rewrite getSession_result, getSession_sessions, Hget. fold now.
  split; intros Hcmp.
  - apply Z.gtb_gt in Hcmp. rewrite Hcmp. split; auto.
    apply Map_get_delete_same.
  - destruct (now - lastActivity session >? SESSION_EXPIRE_MS)%Z eqn:E.
    + apply Z.gtb_gt in E. lia.
    + cbv zeta. repeat split; auto. apply Map_get_set_same.
Qed.

(** C9.  [deleteSession k] answers [true] exactly when [k] is a key of the
    map, whatever the session's age: for a stored session whose TTL has
    elapsed, on the same state, [getSession k] returns nothing while
    [deleteSession k] returns [true]. *)
Theorem deleteSession_ignores_expiry st k :
  (fst (deleteSession k st) = true <-> In k (keys (sessions st)))
  /\ Map_get k (sessions (snd (deleteSession k st))) = None
  /\ (forall session,
        Map_get k (sessions st) = Some session ->
        (clock (ticks st) - lastActivity session > SESSION_EXPIRE_MS)%Z ->
        fst (getSession clock k st) = None /\ fst (deleteSession k st) = true).
Proof.
  repeat split.
  - intros H. apply Map_has_In_keys. exact H.
  - intros H. apply Map_has_In_keys in H. exact H.
  - apply Map_get_delete_same.
  - rewrite getSession_result, H. apply Z.gtb_gt in H0. now rewrite H0.
  - unfold deleteSession, bind, get_sessions, put_sessions, ret. simpl.
    unfold Map_has. now rewrite H.
Qed.

(** C10.  For two distinct identifiers [k] and [k'], neither
    [addMessage k] nor [getSession k] changes what the map holds under
    [k']: the entry is neither modified nor removed. *)
Theorem other_sessions_untouched st k k' r c :
  k <> k' ->
  Map_get k' (sessions (snd (addMessage clock k r c st))) = Map_get k' (sessions st)
  /\ Map_get k' (sessions (snd (getSession clock k st))) = Map_get k' (sessions st).
Proof.
  intros Hne.
  assert (Hg : Map_get k' (sessions (snd (getSession clock k st)))
               = Map_get k' (sessions st)).
  { rewrite getSession_sessions.
    destruct (Map_get k (sessions st)) as [s|]; auto.
    destruct (clock (ticks st) - lastActivity s >? SESSION_EXPIRE_MS)%Z.
    - now apply Map_get_delete_other.
    - now apply Map_get_set_other. }
  split; auto.
  rewrite addMessage_sessions.
  destruct (fst (getSession clock k st)); auto.
  cbv zeta. rewrite Map_get_set_other; auto.
Qed.


(** C7, as amended.  [createSession] returns the identifier that
    [generateSessionId] draws, without comparing it with the keys of the
    map: it is the identifier of no stored session whenever the drawn one
    is not.  The session created has no messages, and whatever the map holds
    under the returned identifier afterwards is that session; it is there
    when the identifier was already a key (the older session is replaced),
    when the store was not full, or when no stored session was active
    after it. *)
Theorem createSession_id_unchecked st :
  within_caps (sessions st) ->
  let sid := fst (createSession clock randomId st) in
  let after := sessions (snd (createSession clock randomId st)) in
  let created := mkChatSession sid [] (clock (ticks st)) (clock (S (ticks st))) in
  sid = randomId (draws st)
  /\ (~ In (randomId (draws st)) (keys (sessions st)) -> returns_fresh_id clock randomId st)
  /\ messages created = []
  /\ (forall s, Map_get sid after = Some s -> s = created)
  /\ (In sid (keys (sessions st))
      \/ Map_size (sessions st) < MAX_SESSIONS
      \/ Forall (fun e => older_first e (sid, created)) (sessions st) ->
      Map_get sid after = Some created).
Proof.
  intros (Hnd & Hsz & Hall) sid after created.
  assert (Hsid : sid = randomId (draws st)) by apply createSession_result.
  assert (Hafter : after =
            sessions (snd (enforceSessionLimit
              (mkState (Map_set sid created (sessions st))
                 (S (S (ticks st))) (S (draws st)))))).
  { unfold after, created. rewrite Hsid. apply createSession_sessions. }
  set (m1 := Map_set sid created (sessions st)) in *.
  assert (Hnd1 : NoDup (keys m1)) by now apply NoDup_keys_set.
  assert (Hget1 : Map_get sid m1 = Some created) by apply Map_get_set_same.
  split; [exact Hsid|].
  split; [unfold returns_fresh_id; fold sid; now rewrite Hsid|].
  split; [reflexivity|].
  rewrite Hafter, enforceSessionLimit_sessions. simpl.
  split.
  - intros s Hs.
    assert (Hin : In (sid, s) m1).
    { destruct (Map_size m1 <=? MAX_SESSIONS).
      - now apply Map_get_In.
      - apply Map_get_In in Hs. rewrite delete_entries_keys in Hs.
        apply In_delete_keys in Hs. apply Hs. }
    apply (In_Map_get _ _ _ Hnd1) in Hin. congruence.
  - intros Hcase.
    destruct (Map_size m1 <=? MAX_SESSIONS) eqn:E; [exact Hget1|].
    apply Nat.leb_gt in E.
    assert (Habsent : ~ In sid (keys (sessions st))).
    { intros Hin. unfold m1 in E. rewrite size_set_present in E by assumption. lia. }
    pose proof (size_set sid created (sessions st)) as Hle. fold m1 in Hle.
    destruct Hcase as [Hin | [Hlt | Hold]]; [contradiction | lia |].
    assert (Hm1 : m1 = sessions st ++ [(sid, created)])
      by now apply Map_set_absent.
    rewrite delete_entries_keys, Map_get_delete_keys_other; [exact Hget1|].
    rewrite Hm1 at 2. rewrite Array_sort_last by exact Hold.
    rewrite firstn_app.
    replace (Map_size m1 - MAX_SESSIONS
             - List.length (Array_sort by_lastActivity (sessions st))) with 0
      by (rewrite Array_sort_length; unfold Map_size, MAX_SESSIONS in *; lia).
    simpl. rewrite app_nil_r.
    intros Hin. apply Habsent.
    destruct (evicted_keys (sessions st) (Map_size m1 - MAX_SESSIONS) Hnd) as [_ Hincl].
    now apply Hincl.
Qed.

End StoreClaims.

(** ** The claims at concrete stores *)

Section Witnesses.
Import Scenarios.
Local Open Scope string_scope.

Lemma one_session_within_caps history last :
  List.length history <= MAX_MESSAGES_PER_SESSION ->
  within_caps (sessions (one_session history last)).
Proof.
  intros H. repeat split; simpl.
  - constructor; [simpl; tauto | constructor].
  - unfold Map_size, MAX_SESSIONS. simpl. lia.
  - constructor; [exact H | constructor].
Qed.

Lemma addMessage_message_cap_witness :
  let st := one_session (repeat hello 100) 0 in
  fst (addMessage (frozen 0) "abc" assistant "hi" st) = true
  /\ exists after,
       Map_get "abc" (sessions (snd (addMessage (frozen 0) "abc" assistant "hi" st)))
         = Some after
       /\ List.length (messages after) <= MAX_MESSAGES_PER_SESSION.
Proof.
  intros st.
  assert (H : fst (addMessage (frozen 0) "abc" assistant "hi" st) = true)
    by (vm_compute; reflexivity).
  split; [exact H|].
  destruct (proj2 (addMessage_message_cap (frozen 0) same_id) st "abc" assistant "hi" H)
    as (before & stamp & after & _ & Hafter & _ & Hlen & _).
  exists after. split; assumption.
Defined.

Lemma session_count_bounded_witness :
  NoDup (keys (sessions crowded))
  /\ MAX_SESSIONS < Map_size (sessions crowded)
  /\ Map_size (sessions (snd (enforceSessionLimit crowded))) = MAX_SESSIONS.
Proof.
  assert (H1 : NoDup (keys (sessions crowded)))
    by (apply distinct_NoDup; vm_compute; reflexivity).
  assert (H2 : MAX_SESSIONS < Map_size (sessions crowded))
    by (vm_compute; apply le_n).
  split; [exact H1|]. split; [exact H2|].
  pose proof (proj2 (session_count_bounded (frozen 0) same_id) crowded H1 H2) as H.
  cbv zeta in H. destruct H as (_ & _ & _ & Hsize & _). exact Hsize.
Defined.

Lemma getSession_lazy_expiry_witness :
  let st := one_session [hello] 0 in
  let session := mkChatSession "abc" [hello] 0 0 in
  Map_get "abc" (sessions st) = Some session
  /\ (fst (getSession (frozen 3600001) "abc" st) = None
      /\ Map_get "abc" (sessions (snd (getSession (frozen 3600001) "abc" st))) = None)
  /\ fst (getSession (frozen 3600000) "abc" st) = Some (touch 3600000 session).
Proof.
  intros st session.
  assert (H : Map_get "abc" (sessions st) = Some session) by reflexivity.
  split; [exact H|]. split.
  - apply (proj1 (getSession_lazy_expiry (frozen 3600001) st "abc" session H)).
    vm_compute. reflexivity.
  - apply (proj2 (getSession_lazy_expiry (frozen 3600000) st "abc" session H)).
    vm_compute. discriminate.
Defined.

Lemma deleteSession_ignores_expiry_witness :
  let st := one_session [hello] 0 in
  let session := mkChatSession "abc" [hello] 0 0 in
  Map_get "abc" (sessions st) = Some session
  /\ (frozen 3600001 (ticks st) - lastActivity session > SESSION_EXPIRE_MS)%Z
  /\ fst (getSession (frozen 3600001) "abc" st) = None
  /\ fst (deleteSession "abc" st) = true.
Proof.
  intros st session.
  assert (H1 : Map_get "abc" (sessions st) = Some session) by reflexivity.
  assert (H2 : (frozen 3600001 (ticks st) - lastActivity session > SESSION_EXPIRE_MS)%Z)
    by (vm_compute; reflexivity).
  split; [exact H1|]. split; [exact H2|].
  apply (proj2 (proj2 (deleteSession_ignores_expiry (frozen 3600001) st "abc"))
           session H1 H2).
Defined.

Lemma other_sessions_untouched_witness :
  let st := one_session [hello] 0 in
  "xyz" <> "abc"
  /\ Map_get "abc" (sessions (snd (addMessage (frozen 0) "xyz" user "hi" st)))
     = Map_get "abc" (sessions st)
  /\ Map_get "abc" (sessions (snd (getSession (frozen 0) "xyz" st)))
     = Map_get "abc" (sessions st).
Proof.
  intros st.
  assert (H : "xyz" <> "abc") by discriminate.
  split; [exact H|].
  apply (other_sessions_untouched (frozen 0) st "xyz" "abc" user "hi" H).
Defined.

(** C7 as stated fails: with a generator that draws the same identifier
    twice, the second [createSession] returns the key of the session the
    first one stored. *)
Lemma createSession_id_collision :
  let st := exec_all (frozen 0) same_id [OpCreateSession] initial in
  ~ returns_fresh_id (frozen 0) same_id st.
Proof.
  intros st H. apply H. vm_compute. left. reflexivity.
Qed.

Lemma createSession_id_unchecked_witness :
  let st := one_session [hello] 0 in
  within_caps (sessions st)
  /\ fst (createSession (frozen 5) numbered st) = "0"
  /\ returns_fresh_id (frozen 5) numbered st.
Proof.
  intros st.
  assert (H : within_caps (sessions st)).
  { apply one_session_within_caps. unfold MAX_MESSAGES_PER_SESSION. simpl. lia. }
  split; [exact H|].
  destruct (createSession_id_unchecked (frozen 5) numbered st H) as (H1 & H2 & _).
  split; [exact H1|].
  apply H2. vm_compute. intros [E|[]]. discriminate E.
Defined.

End Witnesses.

(** ** Further properties of the store *)

Section StoreMore.
Variable clock : nat -> Z.
Variable randomId : nat -> string.

Lemma findExpired_cons k s es st :
  findExpired clock ((k, s) :: es) st =
    let st1 := mkState (sessions st) (S (ticks st)) (draws st) in
    (if expired_at (clock (ticks st)) s
     then k :: fst (findExpired clock es st1)
     else fst (findExpired clock es st1),
     snd (findExpired clock es st1)).
Proof.
  cbn [findExpired]. unfold isSessionExpired, expired_at.
  unfold bind, new_Date, ret. cbv beta iota zeta.
  destruct (findExpired clock es _) as [more st2]. reflexivity.
Qed.

Lemma findExpired_result es st :
  fst (findExpired clock es st) = expired_keys clock (ticks st) es
  /\ ticks (snd (findExpired clock es st)) = ticks st + List.length es
  /\ draws (snd (findExpired clock es st)) = draws st.
Proof.
  revert st. induction es as [|[k s] es IH]; intros st.
  - simpl. repeat split; lia.
  - rewrite findExpired_cons. cbv zeta. cbn [fst snd expired_keys List.length].
    destruct (IH (mkState (sessions st) (S (ticks st)) (draws st))) as (H1 & H2 & H3).
    cbn [ticks draws] in *. rewrite H2, H3.
    split; [|split; [lia | reflexivity]].
    destruct (expired_at (clock (ticks st)) s); now rewrite H1.
Qed.
Lemma In_expired_keys k t es :
  In k (expired_keys clock t es) <->
  exists i s, nth_error es i = Some (k, s) /\ expired_at (clock (t + i)) s = true.
Proof.
  revert t. induction es as [|[k0 s0] es IH]; intros t; cbn [expired_keys].
  - split; [intros [] | intros (i & s & H & _); destruct i; discriminate].
  - split.
    + intros H.
      assert (Hcase : (k = k0 /\ expired_at (clock t) s0 = true)
                      \/ In k (expired_keys clock (S t) es)).
      { destruct (expired_at (clock t) s0); [destruct H as [->|H]|]; auto. }
      destruct Hcase as [[-> He] | Hin].
      * exists 0, s0. rewrite Nat.add_0_r. auto.
      * apply IH in Hin. destruct Hin as (i & s & Hn & He).
        exists (S i), s. rewrite Nat.add_succ_r. auto.
    + intros (i & s & Hn & He). destruct i as [|i].
      * cbn in Hn. injection Hn as -> ->. rewrite Nat.add_0_r in He.
        rewrite He. now left.
      * cbn in Hn. rewrite Nat.add_succ_r in He.
        assert (Hin : In k (expired_keys clock (S t) es))
          by (apply IH; exists i, s; auto).
        destruct (expired_at (clock t) s0); [right|]; exact Hin.
Qed.

Lemma Map_get_delete_keys_in k ks m :
  In k ks -> Map_get k (delete_keys ks m) = None.
Proof.
  intros Hin. destruct (Map_get k (delete_keys ks m)) as [v|] eqn:E; auto.
  apply Map_get_In, In_delete_keys in E. destruct E as [_ Hnot]. contradiction.
Qed.

Lemma Map_get_delete_keys_sub k ks m v :
  NoDup (keys m) -> Map_get k (delete_keys ks m) = Some v -> Map_get k m = Some v.
Proof.
  intros Hnd E. apply Map_get_In, In_delete_keys in E.
  apply In_Map_get; tauto.
Qed.

Lemma enforceSessionLimit_sub st k v :
  NoDup (keys (sessions st)) ->
  Map_get k (sessions (snd (enforceSessionLimit st))) = Some v ->
  Map_get k (sessions st) = Some v.
Proof.
  intros Hnd. rewrite enforceSessionLimit_sessions.
  destruct (Map_size (sessions st) <=? MAX_SESSIONS); auto.
  rewrite delete_entries_keys. now apply Map_get_delete_keys_sub.
Qed.

Lemma NoDup_keys_nth_error m i j k s s' :
  NoDup (keys m) ->
  nth_error m i = Some (k, s) -> nth_error m j = Some (k, s') -> i = j.
Proof.
  intros Hnd Hi Hj.
  assert (Hi' : nth_error (keys m) i = Some k)
    by (unfold keys; rewrite nth_error_map, Hi; reflexivity).
  assert (Hj' : nth_error (keys m) j = Some k)
    by (unfold keys; rewrite nth_error_map, Hj; reflexivity).
  rewrite NoDup_nth_error in Hnd. apply Hnd; [|congruence].
  apply nth_error_Some. congruence.
Qed.

(** X1.  The periodic sweep.  [cleanup] compares the entry number [i] of
    the map with the clock's reading number [ticks + i].  A session found
    expired is gone afterwards; a session found alive is still there,
    unchanged, when the store was within its cap; and whatever is in the
    store afterwards was there before, unchanged. *)
Theorem cleanup_removes_the_expired st i k s :
  NoDup (keys (sessions st)) ->
  nth_error (sessions st) i = Some (k, s) ->
  let after := sessions (snd (cleanup clock st)) in
  (expired_at (clock (ticks st + i)) s = true -> Map_get k after = None)
  /\ (expired_at (clock (ticks st + i)) s = false ->
      Map_size (sessions st) <= MAX_SESSIONS ->
      Map_get k after = Some s)
  /\ (forall k' s', Map_get k' after = Some s' -> Map_get k' (sessions st) = Some s').
Proof.
  intros Hnd Hnth after.
  assert (Hafter : after = sessions (snd (enforceSessionLimit
            (mkState (delete_keys (expired_keys clock (ticks st) (sessions st))
                        (sessions st))
               (ticks (snd (findExpired clock (sessions st) st)))
               (draws (snd (findExpired clock (sessions st) st))))))).
  { unfold after. rewrite cleanup_sessions.
    now rewrite (proj1 (findExpired_result (sessions st) st)). }
  set (ks := expired_keys clock (ticks st) (sessions st)) in *.
  assert (Hsub : forall k' s', Map_get k' after = Some s' ->
                               Map_get k' (sessions st) = Some s').
  { intros k' s' H. rewrite Hafter in H.
    apply enforceSessionLimit_sub in H; [|simpl; now apply NoDup_delete_keys].
    simpl in H. now apply Map_get_delete_keys_sub in H. }
  split; [|split; [|exact Hsub]].
  - intros He.
    assert (Hin : In k ks) by (apply In_expired_keys; exists i, s; auto).
    destruct (Map_get k after) as [v|] eqn:E; auto.
    rewrite Hafter in E.
    apply enforceSessionLimit_sub in E; [|simpl; now apply NoDup_delete_keys].
    simpl in E. rewrite (Map_get_delete_keys_in k ks _ Hin) in E. discriminate.
  - intros He Hsz.
    assert (Hnot : ~ In k ks).
    { intros Hin. apply In_expired_keys in Hin.
      destruct Hin as (j & s' & Hj & He').
      assert (i = j) by (eapply NoDup_keys_nth_error; eauto). subst j.
      rewrite Hnth in Hj. injection Hj as <-. congruence. }
    rewrite Hafter, enforceSessionLimit_sessions. cbn [sessions].
    pose proof (size_delete_keys_le ks (sessions st)) as Hle.
    destruct (Map_size (delete_keys ks (sessions st)) <=? MAX_SESSIONS) eqn:E.
    + rewrite Map_get_delete_keys_other by assumption.
      apply In_Map_get; auto. eapply nth_error_In; eauto.
    + apply Nat.leb_gt in E. lia.
Qed.

Lemma addMessage_alive st k r c before :
  Map_get k (sessions st) = Some before ->
  expired_at (clock (ticks st)) before = false ->
  addMessage clock k r c st =
    (true,
     mkState
       (Map_set k
          (mkChatSession (id before)
             (latest MAX_MESSAGES_PER_SESSION
                (messages before ++ [mkChatMessage r c (clock (ticks st + 2))]))
             (createdAt before) (clock (ticks st + 3)))
          (Map_set k (touch (clock (ticks st + 1)) before) (sessions st)))
       (ticks st + 4) (draws st)).
Proof.
  intros Hget Halive. unfold expired_at in Halive.
  unfold addMessage, getSession, isSessionExpired.
  unfold bind, ret, new_Date, get_sessions, put_sessions. cbv beta iota zeta.
  rewrite Hget. cbv beta iota zeta. cbn [ticks sessions draws fst snd].
  rewrite Halive. cbv beta iota zeta. cbn [ticks sessions draws fst snd touch messages id createdAt].
  replace (S (ticks st)) with (ticks st + 1) by lia.
  replace (S (ticks st + 1)) with (ticks st + 2) by lia.
  replace (S (ticks st + 2)) with (ticks st + 3) by lia.
  replace (S (ticks st + 3)) with (ticks st + 4) by lia.
  f_equal. f_equal. f_equal. f_equal.
  unfold latest, splice0.
  destruct (MAX_MESSAGES_PER_SESSION <? _) eqn:E; auto.
  apply Nat.ltb_ge in E.
  match goal with |- _ = skipn ?n _ => replace n with 0 by lia end.
  reflexivity.
Qed.

Lemma getSession_absent st k :
  Map_get k (sessions st) = None -> getSession clock k st = (None, st).
Proof.
  intros H. unfold getSession, bind, get_sessions, ret. now rewrite H.
Qed.

Lemma getSession_expired st k s :
  Map_get k (sessions st) = Some s ->
  expired_at (clock (ticks st)) s = true ->
  getSession clock k st =
    (None, mkState (Map_delete k (sessions st)) (ticks st + 1) (draws st)).
Proof.
  intros Hget He. unfold expired_at in He.
  unfold getSession, isSessionExpired.
  unfold bind, ret, new_Date, get_sessions, put_sessions. cbv beta iota zeta.
  rewrite Hget. cbv beta iota zeta. cbn [ticks sessions draws fst snd].
  rewrite He. cbv beta iota zeta. cbn [ticks sessions draws fst snd].
  now replace (S (ticks st)) with (ticks st + 1) by lia.
Qed.

Lemma getSession_alive st k s :
  Map_get k (sessions st) = Some s ->
  expired_at (clock (ticks st)) s = false ->
  getSession clock k st =
    (Some (touch (clock (ticks st + 1)) s),
     mkState (Map_set k (touch (clock (ticks st + 1)) s) (sessions st))
       (ticks st + 2) (draws st)).
Proof.
  intros Hget He. unfold expired_at in He.
  unfold getSession, isSessionExpired.
  unfold bind, ret, new_Date, get_sessions, put_sessions. cbv beta iota zeta.
  rewrite Hget. cbv beta iota zeta. cbn [ticks sessions draws fst snd].
  rewrite He. cbv beta iota zeta. cbn [ticks sessions draws fst snd].
  replace (S (ticks st)) with (ticks st + 1) by lia.
  now replace (S (ticks st + 1)) with (ticks st + 2) by lia.
Qed.

Lemma addMessage_absent st k r c :
  Map_get k (sessions st) = None -> addMessage clock k r c st = (false, st).
Proof.
  intros H. unfold addMessage. unfold bind at 1.
  now rewrite (getSession_absent st k H).
Qed.

Lemma addMessage_expired st k r c s :
  Map_get k (sessions st) = Some s ->
  expired_at (clock (ticks st)) s = true ->
  addMessage clock k r c st =
    (false, mkState (Map_delete k (sessions st)) (ticks st + 1) (draws st)).
Proof.
  intros Hget He. unfold addMessage. unfold bind at 1.
  now rewrite (getSession_expired st k s Hget He).
Qed.

Lemma getMessages_eq st k :
  getMessages clock k st =
    (match fst (getSession clock k st) with
     | Some session => messages session
     | None => []
     end, snd (getSession clock k st)).
Proof.
  unfold getMessages, bind, ret. destruct (getSession clock k st). reflexivity.
Qed.

(** X2.  What [addMessage] stores, [getMessages] reads back.  For a session
    that is alive when [addMessage] looks at it, the call succeeds, and a
    [getMessages] that follows within the TTL returns the former messages
    followed by the new one, cut to the last 100; the new message is
    stamped with the third clock reading of the call. *)
Theorem addMessage_then_getMessages st k r c before :
  Map_get k (sessions st) = Some before ->
  expired_at (clock (ticks st)) before = false ->
  (clock (ticks st + 4) - clock (ticks st + 3) <= SESSION_EXPIRE_MS)%Z ->
  let stored := mkChatMessage r c (clock (ticks st + 2)) in
  fst (addMessage clock k r c st) = true
  /\ fst (getMessages clock k (snd (addMessage clock k r c st)))
     = latest MAX_MESSAGES_PER_SESSION (messages before ++ [stored])
  /\ exists earlier,
       fst (getMessages clock k (snd (addMessage clock k r c st))) = earlier ++ [stored].
Proof.
  intros Hget Halive Hsoon stored.
  rewrite (addMessage_alive st k r c before Hget Halive). cbn [fst snd].
  split; [reflexivity|].
  rewrite getMessages_eq. cbn [fst].
  match goal with |- context [getSession clock k ?s1] =>
    rewrite (getSession_alive s1 k
               (mkChatSession (id before)
                  (latest MAX_MESSAGES_PER_SESSION (messages before ++ [stored]))
                  (createdAt before) (clock (ticks st + 3))))
  end.
  - cbn [fst touch messages]. split; [reflexivity|].
    unfold latest. rewrite length_app. cbn [List.length].
    destruct (Nat.le_gt_cases (List.length (messages before) + 1 - MAX_MESSAGES_PER_SESSION)
                (List.length (messages before))) as [Hle|Hgt].
    + rewrite skipn_app.
      replace (List.length (messages before) + 1 - MAX_MESSAGES_PER_SESSION
               - List.length (messages before)) with 0 by lia.
      eexists. reflexivity.
    + unfold MAX_MESSAGES_PER_SESSION in Hgt. lia.
  - cbn [sessions]. apply Map_get_set_same.
  - unfold expired_at. cbn [ticks lastActivity].
    rewrite Z.gtb_ltb. apply Z.ltb_ge. exact Hsoon.
Qed.

(** X3.  When [addMessage] fails.  On an identifier the map does not hold,
    it returns [false] and changes nothing, not even reading the clock.  On
    a session found expired it returns [false], and the store afterwards
    is the store without that session: the message is stored nowhere.
    It returns [false] in no other case. *)
Theorem addMessage_fails_without_storing st k r c :
  (Map_get k (sessions st) = None -> addMessage clock k r c st = (false, st))
  /\ (forall s,
        Map_get k (sessions st) = Some s ->
        expired_at (clock (ticks st)) s = true ->
        fst (addMessage clock k r c st) = false
        /\ sessions (snd (addMessage clock k r c st)) = Map_delete k (sessions st))
  /\ (fst (addMessage clock k r c st) = false ->
      Map_get k (sessions st) = None
      \/ exists s, Map_get k (sessions st) = Some s
                   /\ expired_at (clock (ticks st)) s = true).
Proof.
  split; [apply addMessage_absent|]. split.
  - intros s Hget He. rewrite (addMessage_expired st k r c s Hget He). auto.
  - intros Hf. destruct (Map_get k (sessions st)) as [s|] eqn:Hget; auto.
    right. exists s. split; auto.
    destruct (expired_at (clock (ticks st)) s) eqn:He; auto.
    rewrite (addMessage_alive st k r c s Hget He) in Hf. discriminate.
Qed.

Lemma keyed_by_id_set k v m :
  keyed_by_id m -> id v = k -> keyed_by_id (Map_set k v m).
Proof.
  unfold keyed_by_id. intros H Hv.
  induction H as [|[k' v'] m He Hm IH]; cbn [Map_set].
  - repeat constructor. exact Hv.
  - destruct (String.eqb k k') eqn:E.
    + apply String.eqb_eq in E. subst k'. constructor; auto.
    + constructor; auto.
Qed.

Lemma keyed_by_id_delete k m : keyed_by_id m -> keyed_by_id (Map_delete k m).
Proof.
  unfold keyed_by_id. rewrite !Forall_forall. intros H e He.
  apply In_delete in He. apply H, He.
Qed.

Lemma keyed_by_id_get k s m : keyed_by_id m -> Map_get k m = Some s -> id s = k.
Proof.
  unfold keyed_by_id. rewrite Forall_forall. intros H Hget.
  apply (H (k, s)). now apply Map_get_In.
Qed.

Lemma exec_keyed_by_id o st :
  keyed_by_id (sessions st) -> keyed_by_id (sessions (exec clock randomId o st)).
Proof.
  intros H.
  assert (Hg : forall k, keyed_by_id (sessions (snd (getSession clock k st)))).
  { intros k. rewrite getSession_sessions.
    destruct (Map_get k (sessions st)) as [s|] eqn:E; auto.
    destruct (clock (ticks st) - lastActivity s >? SESSION_EXPIRE_MS)%Z.
    - now apply keyed_by_id_delete.
    - apply keyed_by_id_set; auto. cbn [touch id].
      eapply keyed_by_id_get; eauto. }
  destruct o; cbn [exec].
  - rewrite createSession_sessions. apply enforceSessionLimit_Forall.
    cbn [sessions]. now apply keyed_by_id_set.
  - apply Hg.
  - rewrite addMessage_sessions.
    destruct (fst (getSession clock sessionId st)) as [session|] eqn:E; [|apply Hg].
    cbv zeta. apply keyed_by_id_set; [apply Hg|]. cbn [id].
    eapply keyed_by_id_get; [apply Hg|]. now apply getSession_found.
  - rewrite getMessages_eq. apply Hg.
  - unfold deleteSession, bind, get_sessions, put_sessions, ret. cbn [snd sessions].
    now apply keyed_by_id_delete.
  - exact H.
  - rewrite cleanup_sessions. apply enforceSessionLimit_Forall. cbn [sessions].
    apply Forall_delete_keys. exact H.
  - constructor.
Qed.

(** X4.  In every state the store reaches from the empty one, a session
    found under a key has that key as its [id]: no operation stores a
    session under an identifier other than its own. *)
Theorem stored_session_carries_its_key ops k s :
  Map_get k (sessions (exec_all clock randomId ops initial)) = Some s ->
  id s = k.
Proof.
  apply keyed_by_id_get.
  assert (H : keyed_by_id (sessions initial)) by constructor.
  unfold exec_all. revert H. generalize initial.
  induction ops as [|o ops IH]; intros st H; cbn [fold_left]; auto.
  apply IH. now apply exec_keyed_by_id.
Qed.

(** X5.  [deleteSession] on an identifier the map does not hold returns
    [false] and leaves the store as it is.  On a stored identifier it
    returns [true], the store holds one session fewer, and afterwards the
    identifier is unknown: [getSession] finds nothing, [addMessage] fails,
    and a second [deleteSession] returns [false]. *)
Theorem deleteSession_removes_one st k :
  NoDup (keys (sessions st)) ->
  let after := snd (deleteSession k st) in
  (Map_get k (sessions st) = None -> deleteSession k st = (false, st))
  /\ (Map_get k (sessions st) <> None ->
      fst (deleteSession k st) = true
      /\ S (Map_size (sessions after)) = Map_size (sessions st))
  /\ fst (getSession clock k after) = None
  /\ (forall r c, fst (addMessage clock k r c after) = false)
  /\ fst (deleteSession k after) = false.
Proof.
  intros Hnd after.
  assert (Hafter : after = mkState (Map_delete k (sessions st)) (ticks st) (draws st))
    by reflexivity.
  assert (Hgone : Map_get k (sessions after) = None)
    by (rewrite Hafter; apply Map_get_delete_same).
  split; [|split; [|split; [|split]]].
  - intros Habsent. unfold deleteSession, bind, get_sessions, put_sessions, ret.
    cbn [fst snd]. unfold Map_has. rewrite Habsent.
    assert (Hsame : Map_delete k (sessions st) = sessions st).
    { assert (Hnot : ~ In k (keys (sessions st)))
        by (rewrite Map_get_In_keys; tauto).
      clear -Hnot. induction (sessions st) as [|[k' v] m IH]; cbn; auto.
      destruct (String.eqb k k') eqn:E.
      - apply String.eqb_eq in E. subst. exfalso. apply Hnot. now left.
      - cbn. f_equal. apply IH. intros H. apply Hnot. now right. }
    rewrite Hsame. destruct st; reflexivity.
  - intros Hpresent. split.
    + unfold deleteSession, bind, get_sessions, put_sessions, ret. cbn [fst].
      unfold Map_has. destruct (Map_get k (sessions st)); congruence.
    + rewrite Hafter. cbn [sessions]. apply size_delete_present; auto.
      now apply Map_get_In_keys.
  - now rewrite (getSession_absent after k Hgone).
  - intros r c. now rewrite (addMessage_absent after k r c Hgone).
  - unfold deleteSession, bind, get_sessions, put_sessions, ret. cbn [fst].
    unfold Map_has. now rewrite Hgone.
Qed.

Lemma Array_sort_head m v rest :
  Array_sort by_lastActivity m = v :: rest -> first_oldest v m.
Proof.
  revert v rest. induction m as [|x m IH]; intros v rest; cbn [Array_sort].
  - discriminate.
  - destruct (Array_sort by_lastActivity m) as [|v' rest'] eqn:E.
    + cbn. intros [= <- <-].
      assert (m = []).
      { apply length_zero_iff_nil. rewrite <- (Array_sort_length by_lastActivity m), E.
        reflexivity. }
      subst m. exists [], []. repeat split; constructor.
    + destruct (IH v' rest' eq_refl) as (earlier & later & Hm & He & Hl).
      cbn [sort_insert]. unfold by_lastActivity at 1.
      destruct (lastActivity (snd x) - lastActivity (snd v') <=? 0)%Z eqn:C.
      * apply Z.leb_le in C. intros [= <- <-].
        exists [], m. split; [reflexivity|]. split; [constructor|].
        rewrite Hm. apply Forall_app. split.
        -- eapply Forall_impl; [|exact He]. unfold strictly_older, older_first.
           intros; lia.
        -- constructor; [unfold older_first; lia|].
           eapply Forall_impl; [|exact Hl]. unfold older_first. intros; lia.
      * apply Z.leb_gt in C. intros [= <- <-].
        exists (x :: earlier), later. split; [rewrite Hm; reflexivity|].
        split; [|exact Hl]. constructor; [unfold strictly_older; lia | exact He].
Qed.

Lemma Map_delete_app k m1 m2 :
  Map_delete k (m1 ++ m2) = Map_delete k m1 ++ Map_delete k m2.
Proof. unfold Map_delete. apply filter_app. Qed.

(** X6.  A [createSession] whose identifier is new to the store.  Below the
    cap nothing is evicted: the store is the former one with the new, empty
    session inserted last.  At the cap, with no stored session active after
    the new one, exactly one session is evicted, the first in insertion
    order among the least recently active; the others stay in order and the
    new session is inserted last. *)
Theorem createSession_evicts_first_oldest st :
  within_caps (sessions st) ->
  let sid := randomId (draws st) in
  let created := mkChatSession sid [] (clock (ticks st)) (clock (S (ticks st))) in
  let after := sessions (snd (createSession clock randomId st)) in
  ~ In sid (keys (sessions st)) ->
  (Map_size (sessions st) < MAX_SESSIONS -> after = sessions st ++ [(sid, created)])
  /\ (Map_size (sessions st) = MAX_SESSIONS ->
      Forall (fun e => older_first e (sid, created)) (sessions st) ->
      exists victim,
        first_oldest victim (sessions st)
        /\ after = Map_delete (fst victim) (sessions st) ++ [(sid, created)]).
Proof.
  intros (Hnd & Hsz & _) sid created after Hfresh.
  assert (Hafter : after = sessions (snd (enforceSessionLimit
            (mkState (sessions st ++ [(sid, created)])
               (S (S (ticks st))) (S (draws st)))))).
  { unfold after. rewrite createSession_sessions. fold sid. fold created.
    now rewrite (Map_set_absent sid created (sessions st) Hfresh). }
  rewrite Hafter, enforceSessionLimit_sessions. cbn [sessions].
  unfold Map_size in *. rewrite length_app. cbn [List.length].
  split.
  - intros Hlt.
    destruct (List.length (sessions st) + 1 <=? MAX_SESSIONS) eqn:E; auto.
    apply Nat.leb_gt in E. lia.
  - intros Hfull Hold.
    destruct (List.length (sessions st) + 1 <=? MAX_SESSIONS) eqn:E.
    { apply Nat.leb_le in E. lia. }
    replace (List.length (sessions st) + 1 - MAX_SESSIONS) with 1 by lia.
    rewrite (Array_sort_last (sessions st) (sid, created) Hold).
    destruct (Array_sort by_lastActivity (sessions st)) as [|victim rest] eqn:Es.
    { pose proof (Array_sort_length by_lastActivity (sessions st)) as Hl.
      rewrite Es in Hl. cbn in Hl. unfold MAX_SESSIONS in Hfull. lia. }
    exists victim. split; [eapply Array_sort_head; eauto|].
    cbn [app firstn delete_entries fold_left].
    rewrite Map_delete_app. f_equal.
    cbn [Map_delete filter fst].
    destruct (String.eqb (fst victim) sid) eqn:Ek; [|reflexivity].
    apply String.eqb_eq in Ek. exfalso. apply Hfresh. rewrite <- Ek.
    apply in_map.
    eapply Permutation_in; [apply (Array_sort_perm by_lastActivity)|].
    rewrite Es. now left.
Qed.

Lemma getSession_NoDup st k :
  NoDup (keys (sessions st)) -> NoDup (keys (sessions (snd (getSession clock k st)))).
Proof.
  intros H. rewrite getSession_sessions.
  destruct (Map_get k (sessions st)) as [s|]; auto.
  destruct (clock (ticks st) - lastActivity s >? SESSION_EXPIRE_MS)%Z.
  - now apply NoDup_keys_delete.
  - now apply NoDup_keys_set.
Qed.

Lemma createSession_stored st s :
  NoDup (keys (sessions st)) ->
  Map_get (randomId (draws st)) (sessions (snd (createSession clock randomId st)))
    = Some s ->
  messages s = [].
Proof.
  intros Hnd. rewrite createSession_sessions. intros Hs.
  apply enforceSessionLimit_sub in Hs.
  - cbn [sessions] in Hs. rewrite Map_get_set_same in Hs. now injection Hs as <-.
  - cbn [sessions]. now apply NoDup_keys_set.
Qed.

Lemma latest_latest n l x :
  0 < n -> latest n (latest n l ++ [x]) = latest n (l ++ [x]).
Proof.
  intros Hn. unfold latest. rewrite !length_app, length_skipn. cbn [List.length].
  destruct (Nat.le_gt_cases (List.length l) n) as [Hle|Hgt].
  - replace (List.length l - n) with 0 by lia. cbn [skipn].
    replace (List.length l - 0) with (List.length l) by lia. reflexivity.
  - replace (List.length l - (List.length l - n) + 1 - n) with 1 by lia.
    replace (List.length l + 1 - n) with (S (List.length l - n)) by lia.
    rewrite !skipn_app.
    replace (1 - List.length (skipn (List.length l - n) l)) with 0
      by (rewrite length_skipn; lia).
    replace (S (List.length l - n) - List.length l) with 0 by lia.
    change (skipn 0 [x]) with [x]. f_equal.
    rewrite skipn_skipn. f_equal.
Qed.

End StoreMore.

Section MoreWitnesses.
Import Scenarios.
Local Open Scope string_scope.

Lemma one_session_NoDup history last : NoDup (keys (sessions (one_session history last))).
Proof. constructor; [simpl; tauto | constructor]. Qed.

Lemma cleanup_removes_the_expired_witness :
  let st := one_session [hello] 0 in
  let s := mkChatSession "abc" [hello] 0 0 in
  NoDup (keys (sessions st))
  /\ nth_error (sessions st) 0 = Some ("abc", s)
  /\ expired_at (frozen 3600001 (ticks st + 0)) s = true
  /\ Map_get "abc" (sessions (snd (cleanup (frozen 3600001) st))) = None.
Proof.
  intros st s.
  assert (H1 : NoDup (keys (sessions st))) by apply one_session_NoDup.
  assert (H2 : nth_error (sessions st) 0 = Some ("abc", s)) by reflexivity.
  assert (H3 : expired_at (frozen 3600001 (ticks st + 0)) s = true) by reflexivity.
  split; [exact H1|]. split; [exact H2|]. split; [exact H3|].
  exact (proj1 (cleanup_removes_the_expired (frozen 3600001) st 0 "abc" s H1 H2) H3).
Defined.

Lemma addMessage_then_getMessages_witness :
  let st := one_session [hello] 0 in
  let s := mkChatSession "abc" [hello] 0 0 in
  Map_get "abc" (sessions st) = Some s
  /\ expired_at (frozen 5 (ticks st)) s = false
  /\ (frozen 5 (ticks st + 4) - frozen 5 (ticks st + 3) <= SESSION_EXPIRE_MS)%Z
  /\ fst (getMessages (frozen 5) "abc"
            (snd (addMessage (frozen 5) "abc" assistant "hi" st)))
     = latest MAX_MESSAGES_PER_SESSION ([hello] ++ [mkChatMessage assistant "hi" 5])%list.
Proof.
  intros st s.
  assert (H1 : Map_get "abc" (sessions st) = Some s) by reflexivity.
  assert (H2 : expired_at (frozen 5 (ticks st)) s = false) by reflexivity.
  assert (H3 : (frozen 5 (ticks st + 4) - frozen 5 (ticks st + 3)
                <= SESSION_EXPIRE_MS)%Z) by (vm_compute; discriminate).
  split; [exact H1|]. split; [exact H2|]. split; [exact H3|].
  exact (proj1 (proj2 (addMessage_then_getMessages (frozen 5) st "abc" assistant "hi"
                         s H1 H2 H3))).
Defined.

Lemma addMessage_fails_without_storing_witness :
  let st := one_session [hello] 0 in
  Map_get "nobody" (sessions st) = None
  /\ addMessage (frozen 5) "nobody" user "hi" st = (false, st).
Proof.
  intros st.
  assert (H1 : Map_get "nobody" (sessions st) = None) by reflexivity.
  split; [exact H1|].
  exact (proj1 (addMessage_fails_without_storing (frozen 5) st "nobody" user "hi") H1).
Defined.

Lemma stored_session_carries_its_key_witness :
  let s := mkChatSession "0" [] 5 5 in
  Map_get "0" (sessions (exec_all (frozen 5) numbered [OpCreateSession] initial)) = Some s
  /\ id s = "0".
Proof.
  intros s.
  assert (H : Map_get "0"
                (sessions (exec_all (frozen 5) numbered [OpCreateSession] initial))
              = Some s) by reflexivity.
  split; [exact H|].
  exact (stored_session_carries_its_key (frozen 5) numbered [OpCreateSession] "0" s H).
Defined.

Lemma deleteSession_removes_one_witness :
  let st := one_session [hello] 0 in
  NoDup (keys (sessions st))
  /\ Map_get "abc" (sessions st) <> None
  /\ fst (deleteSession "abc" st) = true
  /\ S (Map_size (sessions (snd (deleteSession "abc" st)))) = Map_size (sessions st).
Proof.
  intros st.
  assert (H1 : NoDup (keys (sessions st))) by apply one_session_NoDup.
  assert (H2 : Map_get "abc" (sessions st) <> None) by discriminate.
  split; [exact H1|]. split; [exact H2|].
  exact (proj1 (proj2 (deleteSession_removes_one (frozen 5) st "abc" H1)) H2).
Defined.

Lemma createSession_evicts_first_oldest_witness :
  let st := one_session [hello] 0 in
  within_caps (sessions st)
  /\ ~ In (numbered (draws st)) (keys (sessions st))
  /\ Map_size (sessions st) < MAX_SESSIONS
  /\ sessions (snd (createSession (frozen 5) numbered st))
     = (sessions st ++ [("0", mkChatSession "0" [] 5 5)])%list.
Proof.
  intros st.
  assert (H1 : within_caps (sessions st)).
  { apply one_session_within_caps. unfold MAX_MESSAGES_PER_SESSION. simpl. lia. }
  assert (H2 : ~ In (numbered (draws st)) (keys (sessions st))).
  { intros [E|[]]. discriminate E. }
  assert (H3 : Map_size (sessions st) < MAX_SESSIONS).
  { unfold Map_size, MAX_SESSIONS. simpl. lia. }
  split; [exact H1|]. split; [exact H2|]. split; [exact H3|].
  exact (proj1 (createSession_evicts_first_oldest (frozen 5) numbered st H1 H2) H3).
Defined.

End MoreWitnesses.
End SessionStoreFacts.

(* ================================================================== *)
(** * Properties of the text extraction *)
(* ================================================================== *)

Module HtmlTextFacts.
Import HtmlText.

(** ** Generalities on the scan *)

Lemma replace_from_skip re by_ n s :
  n <= List.length s ->
  replace_from re by_ n s = replace_from re by_ 0 (skipn n s).
Proof.
  revert s. induction n as [|n IH]; intros s Hle; [reflexivity|].
  destruct s as [|c s]; simpl in *; [lia|].
  apply IH. lia.
Qed.

Lemma remove_blocks_from_skip name n s :
  n <= List.length s ->
  remove_blocks_from name n s = remove_blocks_from name 0 (skipn n s).
Proof.
  revert s. induction n as [|n IH]; intros s Hle; [reflexivity|].
  destruct s as [|c s]; simpl in *; [lia|].
  apply IH. lia.
Qed.

(** ** Characters *)

Lemma chr_plain p c : chr false p c = (c =? p)%N.
Proof. reflexivity. Qed.

Lemma chr_GT_ignoreCase c : chr true GT c = (c =? GT)%N.
Proof.
  unfold chr, canonicalize, GT. simpl.
  destruct ((97 <=? c) && (c <=? 122))%N eqn:E.
  - apply andb_true_iff in E. destruct E as [E1 E2].
    apply N.leb_le in E1. apply N.leb_le in E2.
    destruct (c - 32 =? 62)%N eqn:E3; destruct (c =? 62)%N eqn:E4; auto.
    + apply N.eqb_eq in E3. lia.
    + apply N.eqb_eq in E4. lia.
  - reflexivity.
Qed.

(** ** The opening tag: [[^>]*>] *)

Lemma index_of_gt_has_gt s : has_gt s = true <-> index_of_gt s <> None.
Proof.
  unfold has_gt. induction s as [|c s IH]; cbn [existsb index_of_gt].
  - split; [intros H; discriminate H | congruence].
  - rewrite (N.eqb_sym GT c). destruct (c =? GT)%N; cbn [orb option_map].
    + split; [intros _ H; discriminate H | reflexivity].
    + rewrite IH. destruct (index_of_gt s); cbn [option_map]; split; congruence.
Qed.

Lemma index_of_gt_bound s i : index_of_gt s = Some i -> i < List.length s.
Proof.
  revert i. induction s as [|c s IH]; simpl; [discriminate|].
  intros i. destruct (c =? GT)%N.
  - intros [= <-]. lia.
  - destruct (index_of_gt s) as [j|]; simpl; [|discriminate].
    intros [= <-]. specialize (IH j eq_refl). lia.
Qed.

(** After a greedy [[^>]*], the [>] that follows is the first one, and a
    failure of what comes next is final: giving characters back puts a
    character that is not [>] where the [>] is wanted. *)
Lemma greedy_to_gt ignoreCase (k : jsstring -> option nat) s :
  (forall c, chr ignoreCase GT c = (c =? GT)%N) ->
  greedy (not_chr ignoreCase GT) (one (chr ignoreCase GT) k) s =
    match index_of_gt s with
    | Some i => option_map (fun n => S i + n) (k (skipn (S i) s))
    | None => None
    end.
Proof.
  intros Hchr. induction s as [|c s IH]; [reflexivity|].
  cbn [greedy index_of_gt one]. unfold not_chr at 1. rewrite !Hchr.
  destruct (c =? GT)%N eqn:E; cbn [negb].
  - cbn [skipn]. destruct (k s); reflexivity.
  - rewrite IH. destruct (index_of_gt s) as [i|]; cbn [option_map]; [|reflexivity].
    change (skipn (S (S i)) (c :: s)) with (skipn (S i) s).
    destruct (k (skipn (S i) s)) as [n|]; reflexivity.
Qed.

(** ** Tags: [/<[^>]*>/g] *)

Lemma match_tag s :
  match_at tag_re s =
    match s with
    | c :: s' =>
        if (c =? LT)%N then option_map (fun i => S (S i)) (index_of_gt s') else None
    | [] => None
    end.
Proof.
  destruct s as [|c s]; [reflexivity|].
  unfold tag_re. cbn [match_at]. unfold one at 1.
  change (chr false LT c) with (c =? LT)%N.
  destruct (c =? LT)%N; [|reflexivity].
  rewrite greedy_to_gt by (intros; reflexivity).
  destruct (index_of_gt s) as [i|]; cbn [option_map]; [|reflexivity].
  f_equal. f_equal. lia.
Qed.

Lemma strip_tags_in_tag s i :
  index_of_gt s = Some i ->
  strip_tags_from true s = SPACE :: strip_tags_from false (skipn (S i) s).
Proof.
  revert i. induction s as [|c s IH]; cbn [index_of_gt strip_tags_from];
    [discriminate|].
  intros i. destruct (c =? GT)%N.
  - intros [= <-]. reflexivity.
  - destruct (index_of_gt s) as [j|]; cbn [option_map]; [|discriminate].
    intros [= <-]. now apply IH.
Qed.

Lemma replace_tags_from s :
  replace_from tag_re [SPACE] 0 s = strip_tags_from false s.
Proof.
  remember (List.length s) as n eqn:Hn.
  revert s Hn. induction n as [n IH] using lt_wf_ind. intros s Hn.
  destruct s as [|c s]; [reflexivity|].
  cbn [replace_from]. rewrite match_tag.
  cbn [strip_tags_from]. cbn [List.length] in Hn.
  destruct (c =? LT)%N; cbn [andb].
  - destruct (index_of_gt s) as [i|] eqn:Ei; cbn [option_map].
    + assert (Hgt : has_gt s = true)
        by (apply index_of_gt_has_gt; congruence).
      rewrite Hgt. pose proof (index_of_gt_bound s i Ei) as Hb.
      rewrite replace_from_skip by lia.
      rewrite (strip_tags_in_tag s i Ei). cbn [app]. f_equal.
      apply (IH (List.length (skipn (S i) s))); [|reflexivity].
      rewrite length_skipn. lia.
    + assert (Hgt : has_gt s = false).
      { destruct (has_gt s) eqn:E; auto.
        apply index_of_gt_has_gt in E. congruence. }
      rewrite Hgt. f_equal. apply (IH (List.length s)); [lia | reflexivity].
  - f_equal. apply (IH (List.length s)); [lia | reflexivity].
Qed.

Lemma replace_tags s : String_replace tag_re [SPACE] s = strip_tags s.
Proof. apply replace_tags_from. Qed.

(** ** White space: [/\s+/g] *)

Lemma greedy_run (s : jsstring) :
  greedy white_space (fun _ => Some 0) s = Some (run_length s).
Proof.
  induction s as [|c s IH]; simpl; [reflexivity|].
  destruct (white_space c); [|reflexivity]. now rewrite IH.
Qed.

Lemma match_spaces s :
  match_at spaces_re s =
    match s with
    | c :: s' => if white_space c then Some (S (run_length s')) else None
    | [] => None
    end.
Proof.
  destruct s as [|c s]; [reflexivity|].
  unfold spaces_re. simpl.
  destruct (white_space c); [|reflexivity].
  now rewrite greedy_run.
Qed.

Lemma run_length_bound s : run_length s <= List.length s.
Proof.
  induction s as [|c s IH]; simpl; [lia|].
  destruct (white_space c); simpl; lia.
Qed.

Lemma collapse_in_run s :
  collapse_from true s = collapse_from false (skipn (run_length s) s).
Proof.
  induction s as [|c s IH]; simpl; [reflexivity|].
  destruct (white_space c) eqn:E; simpl.
  - exact IH.
  - now rewrite E.
Qed.

Lemma replace_spaces_from s :
  replace_from spaces_re [SPACE] 0 s = collapse_from false s.
Proof.
  remember (List.length s) as n eqn:Hn.
  revert s Hn. induction n as [n IH] using lt_wf_ind. intros s Hn.
  destruct s as [|c s]; [reflexivity|].
  cbn [replace_from]. rewrite match_spaces.
  cbn [collapse_from]. simpl in Hn.
  destruct (white_space c); simpl.
  - pose proof (run_length_bound s) as Hb.
    rewrite replace_from_skip by lia.
    rewrite collapse_in_run. f_equal.
    apply (IH (List.length (skipn (run_length s) s))); [|reflexivity].
    rewrite length_skipn. lia.
  - f_equal. apply (IH (List.length s)); [lia | reflexivity].
Qed.

Lemma replace_spaces s :
  String_replace spaces_re [SPACE] s = collapse_whitespace s.
Proof. apply replace_spaces_from. Qed.

(** ** Blocks: [/<name[^>]*>[\s\S]*?<\/name>/gi] *)

Lemma match_literal p re s :
  match_at (literal true p ++ re) s =
    if starts_with_i (units p) s
    then option_map (fun n => List.length (units p) + n)
           (match_at re (skipn (List.length (units p)) s))
    else None.
Proof.
  unfold literal. revert s.
  induction (units p) as [|a u IH]; intros s; simpl.
  - destruct (match_at re s); reflexivity.
  - destruct s as [|c s]; simpl; [reflexivity|].
    unfold chr at 1.
    destruct (canonicalize c =? canonicalize a)%N; simpl; [|reflexivity].
    rewrite IH. destruct (starts_with_i u s); simpl; [|reflexivity].
    destruct (match_at re (skipn (List.length u) s)); reflexivity.
Qed.

Lemma match_literal_only p s :
  match_at (literal true p) s =
    if starts_with_i (units p) s then Some (List.length (units p)) else None.
Proof.
  rewrite <- (app_nil_r (literal true p)), match_literal. simpl.
  destruct (starts_with_i (units p) s); simpl; [|reflexivity].
  f_equal. lia.
Qed.

(** A lazy [[\s\S]*?] stops at the first place where the rest matches. *)
Lemma reluctant_find p s :
  reluctant any_unit (match_at (literal true p)) s =
    option_map (fun j => j + List.length (units p)) (find_i (units p) s).
Proof.
  induction s as [|c s IH].
  - simpl. rewrite match_literal_only.
    destruct (units p); simpl; reflexivity.
  - cbn [reluctant find_i]. rewrite match_literal_only.
    destruct (starts_with_i (units p) (c :: s)); [reflexivity|].
    unfold any_unit at 1. rewrite IH.
    destruct (find_i (units p) s); reflexivity.
Qed.

Lemma match_block name s : match_at (block_re name) s = block_at name s.
Proof.
  unfold block_re, block_at. rewrite match_literal.
  destruct (starts_with_i (units ("<" ++ name)) s); [|reflexivity].
  cbn [app match_at].
  rewrite greedy_to_gt by apply chr_GT_ignoreCase.
  destruct (index_of_gt (skipn (List.length (units ("<" ++ name))) s)) as [i|];
    [|reflexivity].
  rewrite reluctant_find.
  destruct (find_i (units ("</" ++ name ++ ">")) _) as [j|]; simpl; [|reflexivity].
  f_equal. lia.
Qed.

Lemma block_at_positive name s n : block_at name s = Some n -> 0 < n.
Proof.
  unfold block_at.
  destruct (starts_with_i _ s); [|discriminate].
  destruct (index_of_gt _); [|discriminate].
  destruct (find_i _ _); [|discriminate].
  intros [= <-]. lia.
Qed.

Lemma replace_blocks_from name skip s :
  replace_from (block_re name) [] skip s = remove_blocks_from name skip s.
Proof.
  revert skip. induction s as [|c s IH]; intros skip.
  - simpl. destruct skip; [|reflexivity].
    destruct (match_at (block_re name) []); reflexivity.
  - destruct skip as [|skip]; cbn [replace_from remove_blocks_from]; [|apply IH].
    rewrite match_block.
    destruct (block_at name (c :: s)) as [n|] eqn:E.
    + apply block_at_positive in E. destruct n as [|n]; [lia|].
      simpl. apply IH.
    + f_equal. apply IH.
Qed.

Lemma replace_blocks name s :
  String_replace (block_re name) [] s = remove_blocks name s.
Proof. apply replace_blocks_from. Qed.

(** ** The whole function *)

Lemma extractTextFromHTML_pipeline html :
  extractTextFromHTML html = spec_extractText html.
Proof.
  unfold extractTextFromHTML, spec_extractText, truncate, substring0,
    script_re, style_re.
  now rewrite !replace_blocks, replace_tags, replace_spaces.
Qed.

Lemma truncate_length text : List.length (truncate text) <= MAX_TEXT + 3.
Proof.
  unfold truncate.
  destruct (MAX_TEXT <? List.length text) eqn:E.
  - rewrite length_app, length_firstn.
    change (List.length (units "...")) with 3. lia.
  - apply Nat.ltb_ge in E. lia.
Qed.

(** *** Trimming, said without [trim] *)

Lemma trimStart_split s :
  exists dropped,
    s = dropped ++ trimStart s
    /\ Forall (fun c => white_space c = true) dropped
    /\ clean_start (trimStart s).
Proof.
  induction s as [|c s IH].
  - exists []. repeat split; [constructor | intros c H; discriminate H].
  - cbn [trimStart]. destruct (white_space c) eqn:E.
    + destruct IH as (dropped & Hs & Hd & Hc). exists (c :: dropped).
      split; [cbn [app]; now rewrite <- Hs|]. split; [now constructor | exact Hc].
    + exists []. repeat split; [constructor|]. intros c' [= <-]. exact E.
Qed.

Lemma trimStart_lead lead s :
  Forall (fun c => white_space c = true) lead -> trimStart (lead ++ s) = trimStart s.
Proof.
  induction 1 as [|c lead Hc _ IH]; [reflexivity|].
  cbn [app trimStart]. now rewrite Hc.
Qed.

Lemma trimStart_fixed s : clean_start s -> trimStart s = s.
Proof.
  destruct s as [|c s]; [reflexivity|]. intros H. cbn [trimStart].
  now rewrite (H c eq_refl).
Qed.

Lemma trim_is_trimmed s : trimmed_of s (trim s).
Proof.
  unfold trim.
  destruct (trimStart_split s) as (lead & Hs & Hlead & Hclean).
  destruct (trimStart_split (rev (trimStart s))) as (back & Hr & Hback & Hclean').
  set (kept := trimStart (rev (trimStart s))) in *.
  assert (Ht : trimStart s = rev kept ++ rev back).
  { rewrite <- rev_app_distr, <- Hr. now rewrite rev_involutive. }
  exists lead, (rev back).
  split; [now rewrite <- Ht|]. split; [exact Hlead|].
  split; [now apply Forall_rev|]. split.
  - destruct (rev kept) as [|c rest] eqn:E; [intros c H; discriminate H|].
    intros c' [= <-]. apply Hclean. now rewrite Ht.
  - now rewrite rev_involutive.
Qed.

Lemma trimmed_is_trim s core : trimmed_of s core -> trim s = core.
Proof.
  intros (lead & trail & -> & Hlead & Htrail & Hc & Hr). unfold trim.
  rewrite (trimStart_lead lead _ Hlead).
  destruct core as [|c core].
  - cbn [app]. rewrite <- (app_nil_r trail), (trimStart_lead trail [] Htrail).
    reflexivity.
  - rewrite (trimStart_fixed ((c :: core) ++ trail))
      by (intros c' [= <-]; now apply Hc).
    rewrite rev_app_distr, (trimStart_lead (rev trail) _ (Forall_rev Htrail)).
    rewrite (trimStart_fixed _ Hr). apply rev_involutive.
Qed.

(** C8, as amended.  For every string, [extractTextFromHTML] computes the
    following.  Every [script] block is deleted, leftmost first, and then
    every [style] block: a block starts at [<script] (in either case),
    runs to the first [>] after it and ends with the first [</script>]
    (in either case) after that; an opening without [>], or one that is
    not followed by exactly [</script>], is no block.  Then every stretch
    from a [<] that has a [>] after it to the first such [>] becomes one
    space.  Then every run of white space becomes one space.  The text
    [cleaned] is what is left of that between its leading and its
    trailing white space: there is exactly one such text, and it neither
    begins nor ends with white space.  If [cleaned] has more than 10000
    code units the result is its first 10000 followed by [...], otherwise
    [cleaned] itself.  The result has at most 10003 code units. *)
Theorem extractTextFromHTML_spec html :
  let collapsed :=
    collapse_whitespace
      (strip_tags (remove_blocks "style" (remove_blocks "script" html))) in
  (exists cleaned, trimmed_of collapsed cleaned)
  /\ (forall cleaned,
        trimmed_of collapsed cleaned ->
        extractTextFromHTML html =
          (if 10000 <? List.length cleaned
           then firstn 10000 cleaned ++ units "..."
           else cleaned))
  /\ List.length (extractTextFromHTML html) <= 10003.
Proof.
  intros collapsed. split; [|split].
  - exists (trim collapsed). apply trim_is_trimmed.
  - intros cleaned H. rewrite extractTextFromHTML_pipeline.
    unfold spec_extractText. fold collapsed.
    rewrite (trimmed_is_trim collapsed cleaned H). reflexivity.
  - rewrite extractTextFromHTML_pipeline. unfold spec_extractText.
    apply truncate_length.
Qed.

(** ** No tag is left *)

Lemma has_gt_strip_tags b s :
  has_gt s = false -> has_gt (strip_tags_from b s) = false.
Proof.
  unfold has_gt. revert b. induction s as [|c s IH]; intros b; [reflexivity|].
  cbn [existsb strip_tags_from]. intros H. apply orb_false_iff in H.
  destruct H as [Hc Hs]. rewrite N.eqb_sym in Hc.
  destruct b.
  - rewrite Hc. now apply IH.
  - fold (has_gt s). unfold has_gt at 1. rewrite Hs, andb_false_r.
    cbn [existsb]. rewrite N.eqb_sym, Hc. now apply IH.
Qed.

Lemma tagless_strip_tags b s : tagless (strip_tags_from b s) = true.
Proof.
  revert b. induction s as [|c s IH]; intros b; [reflexivity|].
  cbn [strip_tags_from]. destruct b.
  - destruct (c =? GT)%N; [|apply IH].
    cbn [tagless]. rewrite IH. reflexivity.
  - destruct ((c =? LT)%N && has_gt s) eqn:E; [apply IH|].
    cbn [tagless]. rewrite IH, andb_true_r.
    apply andb_false_iff in E. destruct E as [E|E].
    + now rewrite E.
    + rewrite (has_gt_strip_tags false s E). apply orb_true_r.
Qed.

Lemma has_gt_brackets s : has_gt (brackets s) = has_gt s.
Proof.
  unfold has_gt, brackets. induction s as [|c s IH]; [reflexivity|].
  cbn [filter existsb]. unfold is_bracket at 1.
  destruct (c =? LT)%N eqn:E1; destruct (c =? GT)%N eqn:E2;
    cbn [orb existsb]; rewrite ?IH; try reflexivity.
  rewrite N.eqb_sym, E2. reflexivity.
Qed.

Lemma tagless_brackets s : tagless (brackets s) = tagless s.
Proof.
  induction s as [|c s IH]; [reflexivity|].
  cbn [tagless]. rewrite <- IH, <- has_gt_brackets.
  unfold brackets. cbn [filter]. unfold is_bracket at 1.
  destruct (c =? LT)%N eqn:E1; cbn [orb tagless negb].
  - rewrite E1. reflexivity.
  - destruct (c =? GT)%N eqn:E2; cbn [tagless]; [rewrite E1|]; reflexivity.
Qed.

Lemma white_space_not_bracket c : white_space c = true -> is_bracket c = false.
Proof.
  unfold is_bracket, LT, GT. intros H.
  destruct (c =? 60)%N eqn:E1; [apply N.eqb_eq in E1; subst; discriminate H|].
  destruct (c =? 62)%N eqn:E2; [apply N.eqb_eq in E2; subst; discriminate H|].
  reflexivity.
Qed.

Lemma brackets_collapse b s : brackets (collapse_from b s) = brackets s.
Proof.
  unfold brackets. revert b. induction s as [|c s IH]; intros b; [reflexivity|].
  cbn [collapse_from filter].
  destruct (white_space c) eqn:E.
  - rewrite (white_space_not_bracket c E).
    destruct b; [apply IH|]. cbn [filter]. change (is_bracket SPACE) with false.
    apply IH.
  - cbn [filter]. now rewrite IH.
Qed.

Lemma brackets_trimStart s : brackets (trimStart s) = brackets s.
Proof.
  unfold brackets. induction s as [|c s IH]; [reflexivity|].
  cbn [trimStart filter]. destruct (white_space c) eqn:E; [|reflexivity].
  now rewrite (white_space_not_bracket c E).
Qed.

Lemma brackets_rev s : brackets (rev s) = rev (brackets s).
Proof.
  unfold brackets. induction s as [|c s IH]; [reflexivity|].
  cbn [rev filter]. rewrite filter_app, IH. cbn [filter].
  destruct (is_bracket c); cbn [rev]; [reflexivity | now rewrite app_nil_r].
Qed.

Lemma brackets_trim s : brackets (trim s) = brackets s.
Proof.
  unfold trim.
  now rewrite brackets_rev, brackets_trimStart, brackets_rev, rev_involutive,
    brackets_trimStart.
Qed.

Lemma has_gt_app a b : has_gt (a ++ b) = has_gt a || has_gt b.
Proof. unfold has_gt. apply existsb_app. Qed.

Lemma tagless_prefix a b : tagless (a ++ b) = true -> tagless a = true.
Proof.
  induction a as [|c a IH]; [reflexivity|].
  cbn [app tagless]. intros H. apply andb_true_iff in H. destruct H as [H1 H2].
  rewrite (IH H2), andb_true_r. rewrite has_gt_app in H1.
  destruct (c =? LT)%N; [|reflexivity]. cbn [negb orb] in *.
  destruct (has_gt a); [discriminate H1 | reflexivity].
Qed.

Lemma tagless_truncate text : tagless text = true -> tagless (truncate text) = true.
Proof.
  intros H. unfold truncate. destruct (MAX_TEXT <? List.length text); [|exact H].
  rewrite <- tagless_brackets. unfold brackets. rewrite filter_app.
  change (filter is_bracket (units "...")) with (@nil code_unit).
  rewrite app_nil_r. fold (brackets (firstn MAX_TEXT text)).
  rewrite tagless_brackets. apply tagless_prefix with (b := skipn MAX_TEXT text).
  now rewrite firstn_skipn.
Qed.

Lemma tagless_no_tag s : tagless s = true -> no_tag s.
Proof.
  intros H before inside after ->.
  induction before as [|c before IH]; cbn [app tagless] in H;
    apply andb_true_iff in H; destruct H as [H1 H2].
  - rewrite N.eqb_refl, has_gt_app in H1. cbn [negb orb] in H1.
    unfold has_gt at 2 in H1. cbn [existsb] in H1. rewrite N.eqb_refl in H1.
    cbn [orb] in H1. rewrite orb_true_r in H1. discriminate H1.
  - now apply IH.
Qed.

Lemma extracted_text_tagless html : tagless (extractTextFromHTML html) = true.
Proof.
  rewrite extractTextFromHTML_pipeline. unfold spec_extractText.
  apply tagless_truncate.
  rewrite <- tagless_brackets, brackets_trim.
  unfold collapse_whitespace. rewrite brackets_collapse, tagless_brackets.
  apply tagless_strip_tags.
Qed.

(** X15.  The extracted text contains no tag: nowhere in the result of
    [extractTextFromHTML] does a [<] have a [>] after it, whatever the
    input. *)
Theorem extracted_text_has_no_tag html : no_tag (extractTextFromHTML html).
Proof. apply tagless_no_tag, extracted_text_tagless. Qed.

(** ** White space is normalised *)

Lemma gapless_collapse s :
  forall b b', (b' = true -> b = true) -> gapless b' (collapse_from b s) = true.
Proof.
  induction s as [|c s IH]; intros b b' Hb; [reflexivity|].
  cbn [collapse_from]. destruct (white_space c) eqn:E.
  - destruct b.
    + now apply IH.
    + destruct b'; [discriminate (Hb eq_refl)|].
      cbn [gapless]. change (white_space SPACE) with true. cbn [negb andb].
      now apply IH.
  - cbn [gapless]. rewrite E. now apply IH.
Qed.

Lemma spaces_only_collapse b s : spaces_only (collapse_from b s).
Proof.
  unfold spaces_only. revert b. induction s as [|c s IH]; intros b; [constructor|].
  cbn [collapse_from]. destruct (white_space c) eqn:E.
  - destruct b; [apply IH|]. constructor; [reflexivity | apply IH].
  - constructor; [congruence | apply IH].
Qed.

Lemma gapless_weaken b s : gapless b s = true -> gapless false s = true.
Proof.
  destruct s as [|c s]; [reflexivity|]. cbn [gapless].
  destruct (white_space c); [|auto]. destruct b; [discriminate | auto].
Qed.

Lemma gapless_no_double_space b s : gapless b s = true -> no_double_space s.
Proof.
  intros H before. revert b s H.
  induction before as [|c before IH]; intros b s H x y after -> Hx Hy.
  - cbn [app gapless] in H. rewrite Hx, Hy in H.
    destruct b; cbn [negb andb] in H; discriminate H.
  - cbn [app gapless] in H.
    destruct (white_space c).
    + apply andb_true_iff in H. destruct H as [_ H].
      exact (IH _ _ H x y after eq_refl Hx Hy).
    + exact (IH _ _ H x y after eq_refl Hx Hy).
Qed.

Lemma no_double_space_gapless s :
  no_double_space s -> gapless false s = true.
Proof.
  assert (G : forall s b,
             no_double_space s ->
             (b = true -> clean_start s) ->
             gapless b s = true).
  { clear s. induction s as [|c s IH]; intros b Hnd Hb; [reflexivity|].
    cbn [gapless].
    assert (Hnd' : no_double_space s).
    { intros before x y after -> Hx Hy.
      exact (Hnd (c :: before) x y after eq_refl Hx Hy). }
    destruct (white_space c) eqn:E.
    - apply andb_true_iff. split.
      + destruct b; [|reflexivity].
        rewrite (Hb eq_refl c eq_refl) in E. discriminate E.
      + apply IH; [exact Hnd'|]. intros _ y Hy.
        destruct s as [|y' s]; [discriminate Hy|]. injection Hy as ->.
        destruct (white_space y) eqn:Ey; [|reflexivity].
        destruct (Hnd [] c y s eq_refl E Ey).
    - apply IH; [exact Hnd'|]. discriminate. }
  intros H. apply G; [exact H | discriminate].
Qed.

Lemma trimStart_suffix s : exists dropped, s = dropped ++ trimStart s.
Proof.
  induction s as [|c s IH]; [now exists []|].
  cbn [trimStart]. destruct (white_space c).
  - destruct IH as [dropped IH]. exists (c :: dropped). cbn [app]. now rewrite <- IH.
  - now exists [].
Qed.

Lemma trimStart_clean s : clean_start (trimStart s).
Proof.
  induction s as [|c s IH]; [intros c H; discriminate H|].
  cbn [trimStart]. destruct (white_space c) eqn:E; [exact IH|].
  intros c' [= <-]. exact E.
Qed.

Lemma trim_inside s : exists front back, s = front ++ trim s ++ back.
Proof.
  unfold trim.
  destruct (trimStart_suffix s) as [front Hs].
  destruct (trimStart_suffix (rev (trimStart s))) as [back Hr].
  exists front, (rev back).
  rewrite <- rev_app_distr, <- Hr, rev_involutive. exact Hs.
Qed.

Lemma clean_start_app a b : a <> [] -> clean_start (a ++ b) -> clean_start a.
Proof.
  destruct a as [|c a]; [congruence|]. intros _ H c' [= <-]. now apply (H c).
Qed.

Lemma tidy_trim s : spaces_only s -> no_double_space s -> tidy (trim s).
Proof.
  intros H1 H2. destruct (trim_inside s) as (front & back & Hs).
  repeat split.
  - unfold spaces_only in *. rewrite Hs in H1.
    apply Forall_app in H1. destruct H1 as [_ H1].
    apply Forall_app in H1. apply H1.
  - intros before x y after Heq Hx Hy.
    apply (H2 (front ++ before) x y (after ++ back)); auto.
    rewrite Hs, Heq, <- !app_assoc. reflexivity.
  - unfold trim.
    destruct (trimStart_suffix (rev (trimStart s))) as [dropped Hr].
    assert (Ht : trimStart s = rev (trimStart (rev (trimStart s))) ++ rev dropped).
    { rewrite <- rev_app_distr, <- Hr. now rewrite rev_involutive. }
    destruct (rev (trimStart (rev (trimStart s)))) as [|c v] eqn:Ev.
    + intros c H. discriminate H.
    + apply clean_start_app with (b := rev dropped); [discriminate|].
      rewrite <- Ht. apply trimStart_clean.
  - unfold trim. rewrite rev_involutive. apply trimStart_clean.
Qed.

Lemma tidy_collapse_trim s : tidy (trim (collapse_whitespace s)).
Proof.
  apply tidy_trim.
  - apply spaces_only_collapse.
  - apply gapless_no_double_space with (b := false).
    now apply gapless_collapse.
Qed.

Lemma MAX_TEXT_positive : 0 < MAX_TEXT.
Proof. exact (Nat.lt_0_succ 9999). Qed.

Lemma gapless_prefix b a d : gapless b (a ++ d) = true -> gapless b a = true.
Proof.
  revert b. induction a as [|c a IH]; intros b; [reflexivity|].
  cbn [app gapless]. destruct (white_space c); [|apply IH].
  intros H. apply andb_true_iff in H. destruct H as [H1 H2].
  rewrite H1. now apply IH.
Qed.

Lemma gapless_append b a d :
  gapless b a = true -> (forall b', gapless b' d = true) -> gapless b (a ++ d) = true.
Proof.
  intros Ha Hd. revert b Ha. induction a as [|c a IH]; intros b Ha; [apply Hd|].
  cbn [app gapless] in *. destruct (white_space c); [|now apply IH].
  apply andb_true_iff in Ha. destruct Ha as [H1 H2].
  rewrite H1. now apply IH.
Qed.

Lemma tidy_truncate text : tidy text -> tidy (truncate text).
Proof.
  intros (H1 & H2 & H3 & H4). unfold truncate.
  destruct (MAX_TEXT <? List.length text) eqn:E; [|repeat split; assumption].
  apply Nat.ltb_lt in E. pose proof MAX_TEXT_positive as Hpos.
  repeat split.
  - unfold spaces_only in *. apply Forall_app. split.
    + rewrite <- (firstn_skipn MAX_TEXT text) in H1. apply Forall_app in H1. apply H1.
    + repeat constructor; intros H; discriminate H.
  - apply gapless_no_double_space with (b := false).
    apply gapless_append.
    + apply gapless_prefix with (d := skipn MAX_TEXT text).
      rewrite firstn_skipn. now apply no_double_space_gapless.
    + intros []; reflexivity.
  - destruct text as [|c text]; [cbn in E; lia|].
    destruct MAX_TEXT; [lia|]. cbn [firstn app].
    intros c' [= <-]. now apply (H3 c).
  - rewrite rev_app_distr. intros c [= <-]. reflexivity.
Qed.

Lemma tidy_single_spaced s : tidy s -> single_spaced s.
Proof.
  intros (H1 & H2 & H3 & H4) before c after -> Hc.
  split; [|split].
  - unfold spaces_only in H1. rewrite Forall_forall in H1.
    apply H1; [|exact Hc]. apply in_or_app. right. now left.
  - destruct (exists_last (l := before)) as (before' & a & ->).
    + intros ->. cbn [app] in H3. rewrite (H3 c eq_refl) in Hc. discriminate Hc.
    + exists before', a. split; [reflexivity|].
      destruct (white_space a) eqn:Ea; [|reflexivity].
      destruct (H2 before' a c after); auto. now rewrite <- app_assoc.
  - destruct after as [|b after'].
    + rewrite rev_app_distr in H4. cbn [rev app] in H4.
      rewrite (H4 c eq_refl) in Hc. discriminate Hc.
    + exists b, after'. split; [reflexivity|].
      destruct (white_space b) eqn:Eb; [|reflexivity].
      destruct (H2 before c b after'); auto.
Qed.

Lemma extracted_text_tidy html : tidy (extractTextFromHTML html).
Proof.
  rewrite extractTextFromHTML_pipeline. unfold spec_extractText.
  apply tidy_truncate, tidy_collapse_trim.
Qed.

(** X16.  In the extracted text white space is normalised, whatever the
    input: every white-space unit of the result is a plain space, and it
    stands between two units that are not white space; so the text neither
    begins nor ends with white space and has no two spaces in a row. *)
Theorem extracted_text_is_single_spaced html :
  single_spaced (extractTextFromHTML html).
Proof. apply tidy_single_spaced, extracted_text_tidy. Qed.

(** ** Texts the passes leave alone *)

Lemma find_i_tail p c s : find_i p (c :: s) = None -> find_i p s = None.
Proof.
  cbn [find_i]. destruct (starts_with_i p (c :: s)); [discriminate|].
  destruct (find_i p s); [discriminate | reflexivity].
Qed.

Lemma find_i_skipn p k s : find_i p s = None -> find_i p (skipn k s) = None.
Proof.
  revert s. induction k as [|k IH]; intros s H; [exact H|].
  destruct s as [|c s]; [exact H|]. cbn [skipn]. apply IH.
  eapply find_i_tail; eauto.
Qed.

Lemma block_at_needs_closing name s :
  find_i (units ("</" ++ name ++ ">")) s = None -> block_at name s = None.
Proof.
  intros H. unfold block_at.
  destruct (starts_with_i _ s); [|reflexivity].
  destruct (index_of_gt _) as [i|]; [|reflexivity].
  rewrite skipn_skipn, (find_i_skipn _ _ s H). reflexivity.
Qed.

Lemma remove_blocks_unclosed name s :
  find_i (units ("</" ++ name ++ ">")) s = None -> remove_blocks name s = s.
Proof.
  unfold remove_blocks. induction s as [|c s IH]; intros H; [reflexivity|].
  cbn [remove_blocks_from]. rewrite (block_at_needs_closing name _ H).
  f_equal. apply IH. eapply find_i_tail; eauto.
Qed.

(** X17.  A [script] or [style] element that is never closed is not
    removed.  On a text in which [</name>] occurs nowhere, in any case,
    the pass that removes the [name] blocks changes nothing: the opening
    tag is left to be treated like any other tag and the content of the
    element stays in the text. *)
Theorem unclosed_block_is_kept name html :
  find_i (units ("</" ++ name ++ ">")) html = None ->
  String_replace (block_re name) [] html = html.
Proof.
  intros H. rewrite replace_blocks. now apply remove_blocks_unclosed.
Qed.

Lemma starts_with_LT p s :
  starts_with_i (LT :: p) s = true -> exists s', s = LT :: s'.
Proof.
  destruct s as [|c s]; cbn [starts_with_i]; [discriminate|].
  intros H. apply andb_true_iff in H. destruct H as [H _].
  apply N.eqb_eq in H. exists s. f_equal.
  unfold canonicalize, LT in *.
  destruct ((97 <=? c) && (c <=? 122))%N eqn:E; cbn in H.
  - apply andb_true_iff in E. destruct E as [E1 E2].
    apply N.leb_le in E1. apply N.leb_le in E2. lia.
  - exact H.
Qed.

Lemma has_gt_skipn k s : has_gt (skipn k s) = true -> has_gt s = true.
Proof.
  intros H. rewrite <- (firstn_skipn k s), has_gt_app, H. apply orb_true_r.
Qed.

Lemma block_at_tagless name s : tagless s = true -> block_at name s = None.
Proof.
  intros Ht. unfold block_at.
  destruct (starts_with_i (units ("<" ++ name)) s) eqn:E; [|reflexivity].
  change (units ("<" ++ name)) with (LT :: units name) in *.
  destruct (starts_with_LT _ _ E) as [s' ->].
  cbn [tagless] in Ht. rewrite N.eqb_refl in Ht. cbn [negb orb] in Ht.
  apply andb_true_iff in Ht. destruct Ht as [Hgt _].
  cbn [List.length skipn].
  destruct (index_of_gt (skipn (List.length (units name)) s')) as [i|] eqn:Ei;
    [|reflexivity].
  assert (Hhas : has_gt s' = true).
  { apply has_gt_skipn with (k := List.length (units name)).
    apply index_of_gt_has_gt. congruence. }
  rewrite Hhas in Hgt. discriminate Hgt.
Qed.

Lemma tagless_tail c s : tagless (c :: s) = true -> tagless s = true.
Proof. cbn [tagless]. intros H. apply andb_true_iff in H. apply H. Qed.

Lemma remove_blocks_tagless name s : tagless s = true -> remove_blocks name s = s.
Proof.
  unfold remove_blocks. induction s as [|c s IH]; intros H; [reflexivity|].
  cbn [remove_blocks_from]. rewrite (block_at_tagless name _ H).
  f_equal. apply IH. eapply tagless_tail; eauto.
Qed.

Lemma strip_tags_tagless s : tagless s = true -> strip_tags s = s.
Proof.
  unfold strip_tags. induction s as [|c s IH]; intros H; [reflexivity|].
  cbn [strip_tags_from]. cbn [tagless] in H.
  apply andb_true_iff in H. destruct H as [H1 H2].
  replace ((c =? LT)%N && has_gt s) with false.
  - f_equal. now apply IH.
  - destruct (c =? LT)%N; [|reflexivity]. cbn [negb orb andb] in *.
    destruct (has_gt s); [discriminate H1 | reflexivity].
Qed.

Lemma collapse_tidy b s :
  spaces_only s -> gapless b s = true -> collapse_from b s = s.
Proof.
  unfold spaces_only. intros H. revert b.
  induction H as [|c s Hc Hs IH]; intros b Hg; [reflexivity|].
  cbn [collapse_from gapless] in *. destruct (white_space c) eqn:E.
  - apply andb_true_iff in Hg. destruct Hg as [Hb Hg].
    destruct b; [discriminate Hb|]. rewrite (Hc eq_refl). f_equal. now apply IH.
  - f_equal. now apply IH.
Qed.

Lemma trimStart_clean_start s : clean_start s -> trimStart s = s.
Proof.
  destruct s as [|c s]; [reflexivity|]. intros H. cbn [trimStart].
  now rewrite (H c eq_refl).
Qed.

Lemma trim_tidy s : tidy s -> trim s = s.
Proof.
  intros (_ & _ & H3 & H4). unfold trim.
  rewrite (trimStart_clean_start s H3), (trimStart_clean_start _ H4).
  apply rev_involutive.
Qed.

Lemma truncate_truncate text : truncate (truncate text) = truncate text.
Proof.
  unfold truncate at 2.
  destruct (MAX_TEXT <? List.length text) eqn:E.
  - unfold truncate. rewrite E. apply Nat.ltb_lt in E.
    assert (Hlen : List.length (firstn MAX_TEXT text) = MAX_TEXT)
      by (rewrite length_firstn; lia).
    rewrite length_app, Hlen. change (List.length (units "...")) with 3.
    replace (MAX_TEXT <? MAX_TEXT + 3) with true
      by (symmetry; apply Nat.ltb_lt; lia).
    rewrite firstn_app, Hlen, Nat.sub_diag, firstn_firstn, Nat.min_id.
    cbn [firstn]. now rewrite app_nil_r.
  - unfold truncate. now rewrite E.
Qed.

(** X18.  Extraction is idempotent: extracting the text of an extracted
    text gives that text again, whatever the input (truncated or not). *)
Theorem extractTextFromHTML_idempotent html :
  extractTextFromHTML (extractTextFromHTML html) = extractTextFromHTML html.
Proof.
  pose proof (extracted_text_tagless html) as Ht.
  pose proof (extracted_text_tidy html) as Hy.
  set (text := extractTextFromHTML html) in *.
  rewrite (extractTextFromHTML_pipeline text). unfold spec_extractText.
  rewrite (remove_blocks_tagless "script" text Ht),
    (remove_blocks_tagless "style" text Ht), (strip_tags_tagless text Ht).
  unfold collapse_whitespace.
  rewrite (collapse_tidy false text (proj1 Hy)
             (no_double_space_gapless text (proj1 (proj2 Hy)))).
  rewrite (trim_tidy text Hy).
  unfold text. rewrite extractTextFromHTML_pipeline. unfold spec_extractText.
  apply truncate_truncate.
Qed.

(** ** [extractTitle] *)

Lemma trim_clean s : clean_start (trim s) /\ clean_start (rev (trim s)).
Proof.
  split.
  - unfold trim.
    destruct (trimStart_suffix (rev (trimStart s))) as [dropped Hr].
    assert (Ht : trimStart s = rev (trimStart (rev (trimStart s))) ++ rev dropped).
    { rewrite <- rev_app_distr, <- Hr. now rewrite rev_involutive. }
    destruct (rev (trimStart (rev (trimStart s)))) as [|c v] eqn:Ev.
    + intros c H. discriminate H.
    + apply clean_start_app with (b := rev dropped); [discriminate|].
      rewrite <- Ht. apply trimStart_clean.
  - unfold trim. rewrite rev_involutive. apply trimStart_clean.
Qed.

Lemma chr_LT_ignoreCase c : chr true LT c = (c =? LT)%N.
Proof.
  unfold chr, canonicalize, LT. simpl.
  destruct ((97 <=? c) && (c <=? 122))%N eqn:E.
  - apply andb_true_iff in E. destruct E as [E1 E2].
    apply N.leb_le in E1. apply N.leb_le in E2.
    destruct (c - 32 =? 60)%N eqn:E3; destruct (c =? 60)%N eqn:E4; auto.
    + apply N.eqb_eq in E3. lia.
    + apply N.eqb_eq in E4. lia.
  - reflexivity.
Qed.

Lemma marks_literal p re marks n s :
  match_marks (map Unit (literal true p) ++ re) marks n s =
    if starts_with_i (units p) s
    then match_marks re marks (n + List.length (units p))
           (skipn (List.length (units p)) s)
    else None.
Proof.
  unfold literal. revert n s.
  induction (units p) as [|a u IH]; intros n s.
  - cbn. now rewrite Nat.add_0_r.
  - cbn [map app match_marks List.length starts_with_i skipn].
    destruct s as [|c s]; [reflexivity|]. cbn [one_at].
    unfold chr at 1.
    destruct (canonicalize c =? canonicalize a)%N; [|reflexivity].
    cbn [andb]. rewrite IH. now rewrite Nat.add_succ_r.
Qed.

Lemma greedy_at_run cs k n body rest r :
  Forall (fun c => cs c = true) body ->
  match rest with c :: _ => cs c = false | [] => True end ->
  k (n + List.length body) rest = Some r ->
  greedy_at cs k n (body ++ rest) = Some r.
Proof.
  intros Hbody Hrest. revert n.
  induction Hbody as [|c body Hc Hb IH]; intros n Hk.
  - cbn [app List.length] in *. rewrite Nat.add_0_r in Hk.
    destruct rest as [|c rest]; cbn [greedy_at]; [exact Hk|]. now rewrite Hrest.
  - cbn [app greedy_at]. rewrite Hc. rewrite (IH (S n)); [reflexivity|].
    cbn [List.length] in Hk. now rewrite Nat.add_succ_r in Hk.
Qed.

Lemma search_skips_text re i before s :
  (forall c s', c <> LT -> match_marks re [] 0 (c :: s') = None) ->
  Forall (fun c => c <> LT) before ->
  search_from re i (before ++ s) = search_from re (i + List.length before) s.
Proof.
  intros Hfail Hb. revert i.
  induction Hb as [|c before Hc Hb IH]; intros i.
  - cbn. now rewrite Nat.add_0_r.
  - cbn [app search_from]. rewrite (Hfail c _ Hc), IH.
    cbn [List.length]. now rewrite Nat.add_succ_r.
Qed.

Lemma title_needs_LT c s : c <> LT -> match_marks title_re [] 0 (c :: s) = None.
Proof.
  intros Hc. unfold title_re. rewrite marks_literal.
  change (units "<title") with (LT :: units "title").
  cbn [starts_with_i].
  change (canonicalize c =? canonicalize LT)%N with (chr true LT c).
  rewrite chr_LT_ignoreCase.
  destruct (c =? LT)%N eqn:E; [apply N.eqb_eq in E; contradiction | reflexivity].
Qed.

Lemma starts_with_i_self p s : starts_with_i p (p ++ s) = true.
Proof.
  induction p as [|a p IH]; [reflexivity|].
  cbn [app starts_with_i]. now rewrite N.eqb_refl, IH.
Qed.

Lemma skipn_exact {A} (a b : list A) : skipn (List.length a) (a ++ b) = b.
Proof. induction a; cbn; auto. Qed.

Lemma title_match attrs t after :
  Forall (fun c => c <> GT) attrs ->
  t <> [] ->
  Forall (fun c => c <> LT) t ->
  match_marks title_re [] 0
    (units "<title" ++ attrs ++ GT :: t ++ units "</title>" ++ after)
  = Some [7 + List.length attrs;
          7 + List.length attrs + List.length t;
          7 + List.length attrs + List.length t + 8].
Proof.
  intros Ha Hne Ht. unfold title_re.
  rewrite marks_literal, starts_with_i_self, skipn_exact.
  change (List.length (units "<title")) with 6.
  cbn [app match_marks Nat.add].
  (* [[^>]*] runs over the attributes to the [>] *)
  rewrite (greedy_at_run (not_chr true GT) _ 6 attrs
             (GT :: t ++ units "</title>" ++ after)
             [7 + List.length attrs;
              7 + List.length attrs + List.length t;
              7 + List.length attrs + List.length t + 8]).
  - reflexivity.
  - eapply Forall_impl; [|exact Ha]. intros c Hc. unfold not_chr.
    rewrite chr_GT_ignoreCase.
    destruct (c =? GT)%N eqn:E; [apply N.eqb_eq in E; contradiction | reflexivity].
  - unfold not_chr. now rewrite chr_GT_ignoreCase, N.eqb_refl.
  - cbn [one_at]. rewrite chr_GT_ignoreCase, N.eqb_refl.
    destruct t as [|c t]; [congruence|]. clear Hne.
    inversion Ht as [|? ? Hc Ht']; subst.
    cbn [app one_at]. unfold not_chr at 1. rewrite chr_LT_ignoreCase.
    destruct (c =? LT)%N eqn:E; [apply N.eqb_eq in E; contradiction|].
    cbn [negb].
    (* [[^<]+] runs over the title to the [<] of the closing tag *)
    rewrite (greedy_at_run (not_chr true LT) _ _ t (units "</title>" ++ after)
               [7 + List.length attrs;
                7 + List.length attrs + List.length (c :: t);
                7 + List.length attrs + List.length (c :: t) + 8]).
    + reflexivity.
    + eapply Forall_impl; [|exact Ht']. intros c' Hc'. unfold not_chr.
      rewrite chr_LT_ignoreCase.
      destruct (c' =? LT)%N eqn:E'; [apply N.eqb_eq in E'; contradiction | reflexivity].
    + change (units "</title>" ++ after) with (LT :: units "/title>" ++ after).
      unfold not_chr. now rewrite chr_LT_ignoreCase, N.eqb_refl.
    + cbn [match_marks].
      rewrite <- (app_nil_r (map Unit (literal true "</title>"))).
      rewrite marks_literal, starts_with_i_self.
      cbn [match_marks rev app List.length]. f_equal.
      change (List.length (units "</title>")) with 8.
      repeat (f_equal; try lia).
Qed.

Lemma substring_middle (a t b : jsstring) :
  substring (List.length a) (List.length a + List.length t) (a ++ t ++ b) = t.
Proof.
  unfold substring. rewrite skipn_exact.
  replace (List.length a + List.length t - List.length a) with (List.length t) by lia.
  rewrite firstn_app, Nat.sub_diag, firstn_all. cbn [firstn]. apply app_nil_r.
Qed.

Lemma search_from_found re i s marks :
  match_marks re [] 0 s = Some marks -> search_from re i s = Some (i, marks).
Proof. intros H. destruct s; cbn [search_from]; now rewrite H. Qed.

(** X19.  The title of a page.  When the first [<] of the document opens a
    [title] element ([<title], attributes without [>], [>]) whose content is
    not empty and has no [<], and the element is closed by [</title>],
    [extractTitle] returns that content, trimmed. *)
Theorem extractTitle_finds_the_title before attrs t after :
  Forall (fun c => c <> LT) before ->
  Forall (fun c => c <> GT) attrs ->
  t <> [] ->
  Forall (fun c => c <> LT) t ->
  extractTitle
    (before ++ units "<title" ++ attrs ++ GT :: t ++ units "</title>" ++ after)
  = trim t.
Proof.
  intros Hb Ha Hne Ht. unfold extractTitle, String_match.
  rewrite (search_skips_text title_re 0 before _ title_needs_LT Hb).
  rewrite (search_from_found _ _ _ _ (title_match attrs t after Ha Hne Ht)).
  f_equal.
  assert (Hsplit :
    (before ++ units "<title" ++ attrs ++ GT :: t ++ units "</title>" ++ after)
    = (before ++ units "<title" ++ attrs ++ [GT]) ++ t ++ (units "</title>" ++ after)).
  { rewrite <- !app_assoc. cbn [app]. reflexivity. }
  rewrite Hsplit.
  assert (Hlen : List.length (before ++ units "<title" ++ attrs ++ [GT])
                 = List.length before + (7 + List.length attrs)).
  { rewrite !length_app. change (List.length (units "<title")) with 6.
    cbn [List.length]. lia. }
  replace (0 + List.length before + (7 + List.length attrs))
    with (List.length (before ++ units "<title" ++ attrs ++ [GT]))
    by (rewrite Hlen; lia).
  replace (0 + List.length before + (7 + List.length attrs + List.length t))
    with (List.length (before ++ units "<title" ++ attrs ++ [GT]) + List.length t)
    by (rewrite Hlen; lia).
  apply substring_middle.
Qed.

(** X20.  What [extractTitle] returns when there is no title, and the shape
    of what it returns.  On a document without any [<] the answer is
    [Untitled Page]; and on every document the answer neither begins nor
    ends with white space. *)
Theorem extractTitle_default_and_trimmed html :
  (Forall (fun c => c <> LT) html -> extractTitle html = units "Untitled Page")
  /\ clean_start (extractTitle html)
  /\ clean_start (rev (extractTitle html)).
Proof.
  split.
  - intros H. unfold extractTitle, String_match.
    rewrite <- (app_nil_r html).
    rewrite (search_skips_text title_re 0 html [] title_needs_LT H).
    reflexivity.
  - unfold extractTitle.
    destruct (String_match title_re html) as [[i [|a [|b [|c [|d l]]]]]|];
      try (split; intros c' [= <-]; reflexivity);
      apply trim_clean.
Qed.

(** ** The properties of the tag and title handling on concrete pages *)

Section Pages.

Ltac no_unit := cbv; repeat (constructor; [intros E; discriminate E|]); constructor.

Ltac all_space := cbv; repeat (constructor; [reflexivity|]); constructor.

(** C8 as stated fails.  A [script] element closed by [</script >] (white
    space before the [>], as HTML allows) is no block for the pattern: its
    content stays in the text.  And a tag with a [>] inside a quoted
    attribute ends for the pattern at that [>]: the rest of the tag stays
    in the text. *)
Lemma extractTextFromHTML_leaves_markup :
  extractTextFromHTML (units "<script>steal()</script >visible")
    = units "steal() visible"
  /\ extractTextFromHTML (units "<a title='x>y'>link</a>") = units "y'>link".
Proof. split; vm_compute; reflexivity. Qed.

Lemma extractTextFromHTML_spec_witness :
  let html := units "<p> Hello,   world </p>" in
  let cleaned := units "Hello, world" in
  trimmed_of
    (collapse_whitespace
       (strip_tags (remove_blocks "style" (remove_blocks "script" html))))
    cleaned
  /\ extractTextFromHTML html = cleaned.
Proof.
  intros html cleaned.
  assert (H : trimmed_of
                (collapse_whitespace
                   (strip_tags (remove_blocks "style" (remove_blocks "script" html))))
                cleaned).
  { exists [SPACE], [SPACE]. split; [reflexivity|].
    split; [all_space|]. split; [all_space|].
    split; intros c [= <-]; reflexivity. }
  split; [exact H|].
  exact (proj1 (proj2 (extractTextFromHTML_spec html)) cleaned H).
Defined.

Lemma unclosed_block_is_kept_witness :
  let html := units "<script>alert(1)" in
  find_i (units "</script>") html = None
  /\ String_replace (block_re "script") [] html = html.
Proof.
  intros html.
  assert (H : find_i (units ("</" ++ "script" ++ ">")) html = None) by reflexivity.
  split; [exact H|].
  exact (unclosed_block_is_kept "script" html H).
Defined.

Lemma extractTitle_finds_the_title_witness :
  let before := units "  " in
  let attrs := units " lang=en" in
  let t := units " MLflow Docs " in
  let after := units "<p>x</p>" in
  Forall (fun c => c <> LT) before
  /\ Forall (fun c => c <> GT) attrs
  /\ t <> []
  /\ Forall (fun c => c <> LT) t
  /\ extractTitle
       (before ++ units "<title" ++ attrs ++ GT :: t ++ units "</title>" ++ after)
     = units "MLflow Docs".
Proof.
  intros before attrs t after.
  assert (H1 : Forall (fun c => c <> LT) before) by no_unit.
  assert (H2 : Forall (fun c => c <> GT) attrs) by no_unit.
  assert (H3 : t <> []) by discriminate.
  assert (H4 : Forall (fun c => c <> LT) t) by no_unit.
  split; [exact H1|]. split; [exact H2|]. split; [exact H3|]. split; [exact H4|].
  exact (extractTitle_finds_the_title before attrs t after H1 H2 H3 H4).
Defined.

Lemma extractTitle_default_and_trimmed_witness :
  let html := units "plain text, no markup" in
  Forall (fun c => c <> LT) html /\ extractTitle html = units "Untitled Page".
Proof.
  intros html.
  assert (H : Forall (fun c => c <> LT) html) by no_unit.
  split; [exact H|].
  exact (proj1 (extractTitle_default_and_trimmed html) H).
Defined.

End Pages.

End HtmlTextFacts.

(* ================================================================== *)
(** * Properties of the agent loop *)
(* ================================================================== *)

Module AgentFacts.
Import Agent.
Local Open Scope string_scope.

Ltac split_match :=
  match goal with
  | H : context [match ?x with _ => _ end] |- _ => destruct x eqn:?; simpl in H
  | |- context [match ?x with _ => _ end] => destruct x eqn:?; simpl
  end.

Section Facts.
Variable World : Type.
Variable openai_create : ModelRequest -> World -> Outcome ChatCompletion * World.
Variable fetch : Request -> World -> Outcome HttpResponse * World.
Variable JSON_parse : string -> Outcome JsValue.
Variable JSON_stringify : JsValue -> string.
Variable JSON_stringify_result : ToolResult -> string.
Variable extractTitle : HtmlText.jsstring -> HtmlText.jsstring.
Variable tavilyApiKey : string.
Variable span_traceId : string.

Local Notation dispatch := (executeToolCall fetch JSON_stringify extractTitle tavilyApiKey).
Local Notation one_call :=
  (executeOne fetch JSON_parse JSON_stringify JSON_stringify_result extractTitle
     tavilyApiKey).
Local Notation all_calls :=
  (executeToolCalls fetch JSON_parse JSON_stringify JSON_stringify_result extractTitle
     tavilyApiKey).
Local Notation process :=
  (processResponse fetch JSON_parse JSON_stringify JSON_stringify_result extractTitle
     tavilyApiKey).
Local Notation the_loop :=
  (loop openai_create fetch JSON_parse JSON_stringify JSON_stringify_result
     extractTitle tavilyApiKey span_traceId).
Local Notation the_run :=
  (run openai_create fetch JSON_parse JSON_stringify JSON_stringify_result
     extractTitle tavilyApiKey span_traceId).

(** ** The tools *)

Lemma quiet_ret {A} (a : A) : quiet (@ret World A a).
Proof. intros st. reflexivity. Qed.

Lemma quiet_throw {A} msg : quiet (@throw World A msg).
Proof. intros st. reflexivity. Qed.

Lemma quiet_lift {A} (o : Outcome A) : quiet (@lift World A o).
Proof. intros st. reflexivity. Qed.

Lemma quiet_bind {A B} (c : M World A) (f : A -> M World B) :
  quiet c -> (forall a, quiet (f a)) -> quiet (bind c f).
Proof.
  intros Hc Hf st. unfold bind. specialize (Hc st).
  destruct (c st) as [[a|e] st1]; simpl in *.
  - now rewrite (Hf a st1).
  - exact Hc.
Qed.

Lemma quiet_try_catch {A} (c : M World A) (h : string -> M World A) :
  quiet c -> (forall e, quiet (h e)) -> quiet (try_catch c h).
Proof.
  intros Hc Hh st. unfold try_catch. specialize (Hc st).
  destruct (c st) as [[a|e] st1]; simpl in *.
  - exact Hc.
  - now rewrite (Hh e st1).
Qed.

Lemma quiet_do_fetch request : quiet (do_fetch fetch request).
Proof.
  intros st. unfold do_fetch. destruct (fetch request (world st)). reflexivity.
Qed.

Lemma searchWeb_trace query : quiet (searchWeb fetch JSON_stringify tavilyApiKey query).
Proof.
  unfold searchWeb. apply quiet_try_catch; [|intros; apply quiet_throw].
  apply quiet_bind; [apply quiet_do_fetch|].
  intros response. destruct (negb (ok response)); [apply quiet_throw|].
  apply quiet_bind; intros; apply quiet_lift.
Qed.

Lemma fetchWebContent_trace target : quiet (fetchWebContent fetch extractTitle target).
Proof.
  unfold fetchWebContent. apply quiet_try_catch; [|intros; apply quiet_throw].
  apply quiet_bind; [apply quiet_do_fetch|].
  intros response. destruct (negb (ok response)); [apply quiet_throw | apply quiet_ret].
Qed.

Lemma searchWeb_thrown query (st st' : St World) msg :
  searchWeb fetch JSON_stringify tavilyApiKey query st = (Thrown msg, st') ->
  exists inner, msg = "Web search failed: " ++ inner.
Proof.
  unfold searchWeb, try_catch, throw.
  destruct (bind _ _ st) as [[a|e] s]; [discriminate|].
  intros [= <- _]. now exists e.
Qed.

Lemma fetchWebContent_thrown target (st st' : St World) msg :
  fetchWebContent fetch extractTitle target st = (Thrown msg, st') ->
  exists inner,
    msg = "Failed to fetch content from " ++ ToString target ++ ": " ++ inner.
Proof.
  unfold fetchWebContent, try_catch, throw.
  destruct (bind _ _ st) as [[a|e] s]; [discriminate|].
  intros [= <- _]. now exists e.
Qed.

Lemma get_property_thrown v key msg :
  get_property v key = Thrown msg -> msg <> "".
Proof.
  destruct v; simpl; intros [= <-]; discriminate.
Qed.

Lemma executeToolCall_trace call : quiet (dispatch call).
Proof.
  unfold executeToolCall.
  destruct (String.eqb (name call) "search_web").
  - apply quiet_bind; [apply quiet_lift|]. intros q.
    apply quiet_bind; [apply searchWeb_trace | intros; apply quiet_ret].
  - destruct (String.eqb (name call) "fetch_web_content"); [|apply quiet_throw].
    apply quiet_bind; [apply quiet_lift|]. intros q.
    apply quiet_bind; [apply fetchWebContent_trace | intros; apply quiet_ret].
Qed.

Lemma executeToolCall_thrown call (st st' : St World) msg :
  dispatch call st = (Thrown msg, st') -> msg <> "".
Proof.
  unfold executeToolCall, bind, lift, throw, ret.
  destruct (String.eqb (name call) "search_web").
  - destruct (get_property (arguments call) "query") eqn:E.
    + destruct (searchWeb fetch JSON_stringify tavilyApiKey a st) as [[x|e] s] eqn:Es;
        [discriminate|].
      intros [= <- _]. apply searchWeb_thrown in Es. destruct Es as [inner ->].
      discriminate.
    + intros [= <- _]. eapply get_property_thrown; eauto.
  - destruct (String.eqb (name call) "fetch_web_content").
    + destruct (get_property (arguments call) "url") eqn:E.
      * destruct (fetchWebContent fetch extractTitle a st) as [[x|e] s] eqn:Es;
          [discriminate|].
        intros [= <- _]. apply fetchWebContent_thrown in Es. destruct Es as [inner ->].
        discriminate.
      * intros [= <- _]. eapply get_property_thrown; eauto.
    + intros [= <- _]. discriminate.
Qed.

Lemma executeToolCall_unknown call (st : St World) :
  name call <> "search_web" -> name call <> "fetch_web_content" ->
  dispatch call st = (Thrown ("Unknown tool: " ++ name call), st).
Proof.
  intros H1 H2. unfold executeToolCall, throw.
  apply String.eqb_neq in H1, H2. now rewrite H1, H2.
Qed.

(** ** One tool call, all the tool calls of an answer *)

Local Notation parses := (parses JSON_parse).

Lemma executeOne_parsed tc parsed messages toolCalls (st : St World) :
  JSON_parse (function_arguments tc) = Returned parsed ->
  let call := mkLLMToolCall (call_id tc) (function_name tc) parsed None None in
  one_call tc messages toolCalls st =
    match dispatch call (started st call) with
    | (Returned res, st2) =>
        (Returned
           ((messages ++ [ToolMessage (JSON_stringify_result res) (call_id tc)])%list,
            (toolCalls ++ [mkLLMToolCall (call_id tc) (function_name tc) parsed
                             (Some res) None])%list),
         st2)
    | (Thrown msg, st2) =>
        (Returned
           ((messages ++ [ToolMessage ("Error: " ++ msg) (call_id tc)])%list,
            (toolCalls ++ [mkLLMToolCall (call_id tc) (function_name tc) parsed
                             None (Some msg)])%list),
         st2)
    end.
Proof.
  intros Hp call. unfold executeOne, bind, lift, emit, try_catch, ret.
  rewrite Hp. fold call. unfold started.
  destruct (dispatch call _) as [[res|msg] st2]; reflexivity.
Qed.

Lemma executeOne_returns tc messages toolCalls (st : St World) :
  parses tc ->
  exists entry reply st2 call,
    one_call tc messages toolCalls st
      = (Returned ((messages ++ [reply])%list, (toolCalls ++ [entry])%list), st2)
    /\ trace st2 = (trace st ++ [ToolCallStarted call])%list.
Proof.
  intros [parsed Hp]. rewrite (executeOne_parsed tc parsed messages toolCalls st Hp).
  cbv zeta.
  set (call := mkLLMToolCall (call_id tc) (function_name tc) parsed None None).
  pose proof (executeToolCall_trace call (started st call)) as Ht.
  destruct (dispatch call (started st call)) as [[res|msg] st2]; simpl in Ht;
    do 4 eexists; (split; [reflexivity | exact Ht]).
Qed.

Lemma executeToolCalls_return calls messages toolCalls (st : St World) :
  Forall parses calls ->
  exists replies entries st2 notified,
    all_calls calls messages toolCalls st
      = (Returned ((messages ++ replies)%list, (toolCalls ++ entries)%list), st2)
    /\ trace st2 = (trace st ++ map ToolCallStarted notified)%list
    /\ List.length notified = List.length calls
    /\ List.length entries = List.length calls.
Proof.
  intros H. revert messages toolCalls st.
  induction H as [|tc calls Htc Hcalls IH]; intros messages toolCalls st.
  - exists [], [], st, []. simpl. unfold ret. rewrite !app_nil_r. auto.
  - destruct (executeOne_returns tc messages toolCalls st Htc)
      as (entry & reply & st1 & call & Hone & Ht1).
    destruct (IH (messages ++ [reply])%list (toolCalls ++ [entry])%list st1)
      as (replies & entries & st2 & notified & Hall & Ht2 & Hn & He).
    exists (reply :: replies), (entry :: entries), st2, (call :: notified).
    cbn [executeToolCalls]. unfold bind at 1. rewrite Hone. cbn [fst snd].
    rewrite Hall, Ht2, Ht1, <- !app_assoc. simpl.
    repeat split; auto.
Qed.

(** ** One iteration *)

Lemma makeOpenAICall_answered messages response w' m (st : St World) :
  openai_create (mkModelRequest "o4-mini" messages (Some getAvailableTools)) (world st)
    = (Returned response, w') ->
  first_message response = Some m ->
  makeOpenAICall openai_create messages getAvailableTools st
    = (Returned response,
       mkSt w' (trace st ++ [ModelCalled
                               (mkModelRequest "o4-mini" messages (Some getAvailableTools))
                               (Returned response)])%list).
Proof.
  intros Hc Hm. unfold makeOpenAICall, bind, chat_completions_create.
  rewrite Hc. unfold first_message in Hm.
  destruct (choices response) as [|choice rest]; [discriminate|].
  rewrite Hm. reflexivity.
Qed.

Lemma processResponse_stops response m messages toolCalls (st : St World) :
  first_message response = Some m ->
  requested m = [] ->
  process response messages toolCalls st
    = (Returned (false, ((messages ++ [AssistantReply m])%list, toolCalls)), st).
Proof.
  intros Hm Hr. unfold processResponse, first_message in *.
  destruct (choices response) as [|choice rest]; [discriminate|].
  rewrite Hm. unfold requested in Hr.
  destruct (tool_calls m) as [[|c l]|]; try discriminate; reflexivity.
Qed.

Lemma processResponse_continues response m messages toolCalls (st : St World) :
  first_message response = Some m ->
  requested m <> [] ->
  Forall parses (requested m) ->
  exists replies entries st2 notified,
    process response messages toolCalls st
      = (Returned (true, ((messages ++ AssistantReply m :: replies)%list,
                          (toolCalls ++ entries)%list)), st2)
    /\ trace st2 = (trace st ++ map ToolCallStarted notified)%list
    /\ notified <> []
    /\ List.length entries = List.length (requested m).
Proof.
  intros Hm Hr Hp. unfold processResponse, first_message in *.
  destruct (choices response) as [|choice rest]; [discriminate|].
  rewrite Hm. unfold requested in *.
  destruct (tool_calls m) as [[|c l]|]; try congruence.
  destruct (executeToolCalls_return (c :: l) (messages ++ [AssistantReply m])%list
              toolCalls st Hp)
    as (replies & entries & st2 & notified & Hall & Ht & Hn & He).
  exists replies, entries, st2, notified.
  unfold bind. rewrite Hall. unfold ret. rewrite <- app_assoc. simpl.
  repeat split; auto.
  intros ->. discriminate.
Qed.

Lemma loop_step remaining iteration messages toolCalls (st st1 st2 : St World)
      response messages' toolCalls' :
  makeOpenAICall openai_create messages getAvailableTools st = (Returned response, st1) ->
  process response messages toolCalls st1
    = (Returned (true, (messages', toolCalls')), st2) ->
  the_loop (S remaining) iteration messages toolCalls st
    = the_loop remaining (S iteration) messages' toolCalls' st2.
Proof.
  intros Hcall Hproc. cbn [loop]. unfold bind at 1. rewrite Hcall.
  unfold bind at 1. rewrite Hproc. reflexivity.
Qed.

(** ** The whole loop against a model that always asks for tools *)

Lemma model_calls_round (t : list Event) :
  is_round t -> model_calls (t) = firstn 1 t /\ t <> [].
Proof.
  intros (messages & response & notified & -> & _). split; [|discriminate].
  unfold model_calls. simpl. f_equal.
  induction notified as [|c l IH]; simpl; auto.
Qed.

Lemma model_calls_rounds (rounds : list (list Event)) buffer answer :
  Forall is_round rounds ->
  List.length (model_calls (List.concat rounds ++ [forced_call buffer answer])%list)
    = List.length rounds + 1.
Proof.
  unfold model_calls. induction 1 as [|t rounds Ht Hrounds IH]; simpl; [reflexivity|].
  rewrite <- app_assoc, filter_app, length_app, IH.
  destruct (model_calls_round t Ht) as [Hf Hne]. unfold model_calls in Hf.
  rewrite Hf. destruct t; [congruence|]. simpl. lia.
Qed.

Lemma loop_against_tool_hungry_model :
  always_requests_tools openai_create ->
  arguments_parse openai_create JSON_parse ->
  forall remaining iteration messages toolCalls (st : St World),
  exists r st' rounds buffer answer,
    the_loop remaining iteration messages toolCalls st = (Returned r, st')
    /\ trace st' = (trace st ++ List.concat rounds ++ [forced_call buffer answer])%list
    /\ List.length rounds = remaining
    /\ Forall is_round rounds
    /\ content r = final_content answer.
Proof.
  intros Halways Hparse.
  induction remaining as [|remaining IH]; intros iteration messages toolCalls st.
  - destruct (Halways (mkModelRequest "gpt-4-1106-preview"
                         (messages ++ [UserMessage FINAL_PROMPT])%list None) (world st))
      as (answer & w' & Hc & _).
    cbn [loop]. unfold forced_final, bind, chat_completions_create, ret.
    rewrite Hc. do 2 eexists. exists [], messages, answer.
    split; [reflexivity|]. simpl. repeat split; auto.
  - destruct (Halways (mkModelRequest "o4-mini" messages (Some getAvailableTools))
                (world st)) as (response & w' & Hc & Hm).
    destruct Hm as (m & Hm & Hreq); [simpl; discriminate|].
    pose proof (makeOpenAICall_answered messages response w' m st Hc Hm) as Hcall.
    set (st1 := mkSt w' (trace st ++
                  [ModelCalled (mkModelRequest "o4-mini" messages (Some getAvailableTools))
                     (Returned response)])%list) in *.
    destruct (processResponse_continues response m messages toolCalls st1 Hm Hreq
                (Hparse _ _ _ _ _ Hc Hm))
      as (replies & entries & st2 & notified & Hproc & Ht2 & Hne & _).
    rewrite (loop_step remaining iteration messages toolCalls st st1 st2 response
               _ _ Hcall Hproc).
    destruct (IH (S iteration) (messages ++ AssistantReply m :: replies)%list
                (toolCalls ++ entries)%list st2)
      as (r & st' & rounds & buffer & answer & Hloop & Ht & Hlen & Hall & Hcontent).
    exists r, st',
      ((ModelCalled (mkModelRequest "o4-mini" messages (Some getAvailableTools))
          (Returned response) :: map ToolCallStarted notified) :: rounds),
      buffer, answer.
    split; [exact Hloop|]. split.
    + rewrite Ht, Ht2. unfold st1. simpl. rewrite <- !app_assoc. reflexivity.
    + split; [simpl; congruence|]. split; [|exact Hcontent].
      constructor; [|exact Hall].
      exists messages, response, notified. split; [reflexivity | exact Hne].
Qed.

(** ** The claims about the loop *)

(** C1, as amended.  If every call to the model boundary answers, every
    answer to a call that carries the tool schema holds at least one
    tool-call request, and every [arguments] string of those requests is
    valid JSON, then [run] performs exactly [maxIterations] (5) tool-dispatch
    iterations, each a call to the iterating model with the tool schema
    followed by the dispatch of what it asked for, then exactly one more
    call, to the other model, without the schema, on the buffer with the
    instruction to conclude appended: six model calls, and the content of
    the last answer is the content returned. *)
Theorem tool_hungry_model_gets_forced_call query chatHistory (st : St World) :
  always_requests_tools openai_create ->
  arguments_parse openai_create JSON_parse ->
  ends_with_forced_call openai_create fetch JSON_parse JSON_stringify
    JSON_stringify_result extractTitle tavilyApiKey span_traceId
    query chatHistory st.
Proof.
  intros Halways Hparse. unfold ends_with_forced_call, run.
  destruct (loop_against_tool_hungry_model Halways Hparse maxIterations 0
              (initial_messages query chatHistory) [] st)
    as (r & st' & rounds & buffer & answer & Hloop & Ht & Hlen & Hall & Hcontent).
  exists r, st', rounds, buffer, answer.
  repeat split; auto.
  rewrite model_calls_rounds by assumption. now rewrite Hlen.
Qed.

(** C2.  If the first answer of the model holds a message with no
    tool-call request, [run] makes that one model call and no other, and
    returns the message's text (the empty string when it has none) with an
    empty [toolCalls] list, after one iteration. *)
Theorem no_tool_request_returns_at_once query chatHistory (st : St World)
        response w' m :
  let request :=
    mkModelRequest "o4-mini" (initial_messages query chatHistory)
      (Some getAvailableTools) in
  openai_create request (world st) = (Returned response, w') ->
  first_message response = Some m ->
  requested m = [] ->
  the_run query chatHistory st
    = (Returned
         (mkLLMResponse (or_empty (message_content m)) []
            "OpenAI completed research using 0 tool(s) across 1 iteration(s) to provide a comprehensive response."
            span_traceId),
       mkSt w' (trace st ++ [ModelCalled request (Returned response)])%list).
Proof.
  intros request Hc Hm Hr. unfold run. unfold maxIterations. cbn [loop].
  unfold bind at 1.
  rewrite (makeOpenAICall_answered _ response w' m st Hc Hm).
  unfold bind at 1. rewrite (processResponse_stops response m _ _ _ Hm Hr).
  cbn [negb]. unfold ret. f_equal. f_equal.
  unfold final_content, first_message in *.
  destruct (choices response) as [|choice rest]; [discriminate|].
  now rewrite Hm.
Qed.

(** ** Any run, whatever the collaborators do *)

Lemma executeOne_any tc messages toolCalls (st : St World) :
  match JSON_parse (function_arguments tc) with
  | Thrown e => one_call tc messages toolCalls st = (Thrown e, st)
  | Returned parsed =>
      exists reply entry st2,
        one_call tc messages toolCalls st
          = (Returned ((messages ++ [reply])%list, (toolCalls ++ [entry])%list), st2)
        /\ trace st2
           = (trace st ++ [ToolCallStarted
                             (mkLLMToolCall (call_id tc) (function_name tc) parsed
                                None None)])%list
        /\ records entry
             (mkLLMToolCall (call_id tc) (function_name tc) parsed None None)
  end.
Proof.
  destruct (JSON_parse (function_arguments tc)) as [parsed|e] eqn:Hp.
  - rewrite (executeOne_parsed tc parsed messages toolCalls st Hp). cbv zeta.
    set (call := mkLLMToolCall (call_id tc) (function_name tc) parsed None None).
    pose proof (executeToolCall_trace call (started st call)) as Ht.
    pose proof (executeToolCall_thrown call (started st call)) as Hne.
    destruct (dispatch call (started st call)) as [[res|msg] st2]; cbn [snd] in Ht;
      do 3 eexists; (split; [reflexivity|]); (split; [exact Ht|]);
      unfold records, settled; cbn [id name arguments result error].
    + repeat split; auto. left. split; [discriminate | reflexivity].
    + repeat split; auto. right. split; [reflexivity | discriminate].
  - unfold executeOne, bind, lift. rewrite Hp. reflexivity.
Qed.

Lemma executeToolCalls_cons tc calls messages toolCalls (st : St World) :
  all_calls (tc :: calls) messages toolCalls st =
    match one_call tc messages toolCalls st with
    | (Returned step, st1) => all_calls calls (fst step) (snd step) st1
    | (Thrown e, st1) => (Thrown e, st1)
    end.
Proof. reflexivity. Qed.

Lemma executeToolCalls_any calls messages toolCalls (st : St World) :
  exists notified,
    trace (snd (all_calls calls messages toolCalls st))
      = (trace st ++ map ToolCallStarted notified)%list
    /\ List.length notified <= List.length calls
    /\ match fst (all_calls calls messages toolCalls st) with
       | Returned (messages', toolCalls') =>
           extends messages messages'
           /\ (exists entries,
                 toolCalls' = (toolCalls ++ entries)%list
                 /\ Forall2 records entries notified)
           /\ map call_id calls = map id notified
       | Thrown e =>
           exists tc, In tc calls /\ JSON_parse (function_arguments tc) = Thrown e
       end.
Proof.
  revert messages toolCalls st.
  induction calls as [|tc calls IH]; intros messages toolCalls st.
  - exists []. cbn [executeToolCalls]. unfold ret. cbn [fst snd map List.length].
    rewrite app_nil_r. split; [reflexivity|]. split; [lia|].
    split; [exists []; now rewrite app_nil_r|].
    split; [|reflexivity].
    exists []. rewrite app_nil_r. split; [reflexivity | constructor].
  - rewrite executeToolCalls_cons.
    pose proof (executeOne_any tc messages toolCalls st) as Hone.
    destruct (JSON_parse (function_arguments tc)) as [parsed|e] eqn:Hp.
    + destruct Hone as (reply & entry & st1 & Hone & Ht1 & Hrec).
      rewrite Hone. cbn [fst snd].
      destruct (IH (messages ++ [reply])%list (toolCalls ++ [entry])%list st1)
        as (notified & Ht & Hlen & Hout).
      exists (mkLLMToolCall (call_id tc) (function_name tc) parsed None None :: notified).
      split; [rewrite Ht, Ht1, <- app_assoc; reflexivity|].
      split; [cbn; lia|].
      destruct (fst (all_calls calls (messages ++ [reply])%list
                       (toolCalls ++ [entry])%list st1)) as [[messages' toolCalls']|e];
        cbv beta iota in Hout |- *.
      * destruct Hout as ((more & ->) & (entries & -> & Hall) & Hids).
        split; [exists (reply :: more); now rewrite <- app_assoc|].
        split.
        -- exists (entry :: entries). rewrite <- app_assoc. split; [reflexivity|].
           now constructor.
        -- cbn [map id]. now rewrite Hids.
      * destruct Hout as (tc' & Hin & Hbad). exists tc'. split; [now right | exact Hbad].
    + rewrite Hone. cbn [fst snd]. exists []. cbn. rewrite app_nil_r.
      split; [reflexivity|]. split; [lia|]. exists tc. split; [now left | exact Hp].
Qed.

Lemma requests_in_app t1 t2 :
  requests_in (t1 ++ t2) = (requests_in t1 ++ requests_in t2)%list.
Proof. apply flat_map_app. Qed.

Lemma started_in_app t1 t2 :
  started_in (t1 ++ t2) = (started_in t1 ++ started_in t2)%list.
Proof. apply flat_map_app. Qed.

Lemma requests_in_started notified : requests_in (map ToolCallStarted notified) = [].
Proof. induction notified; cbn; auto. Qed.

Lemma started_in_started notified : started_in (map ToolCallStarted notified) = notified.
Proof. induction notified as [|c l IH]; cbn; [|rewrite <- IH at 2]; auto. Qed.

Lemma extends_refl a : extends a a.
Proof. exists []. now rewrite app_nil_r. Qed.

Lemma extends_trans a b c : extends a b -> extends b c -> extends a c.
Proof. intros [x ->] [y ->]. exists (x ++ y)%list. now rewrite app_assoc. Qed.

Lemma growing_weaken a b qs : extends a b -> growing b qs -> growing a qs.
Proof.
  destruct qs as [|q qs]; cbn; auto.
  intros Hab [Hb Hq]. split; [eapply extends_trans; eauto | exact Hq].
Qed.

Lemma makeOpenAICall_any messages (st : St World) :
  let q := mkModelRequest "o4-mini" messages (Some getAvailableTools) in
  exists answer,
    trace (snd (makeOpenAICall openai_create messages getAvailableTools st))
      = (trace st ++ [ModelCalled q answer])%list
    /\ match fst (makeOpenAICall openai_create messages getAvailableTools st) with
       | Returned response =>
           answer = Returned response /\ first_message response <> None
       | Thrown e =>
           answer = Thrown e
           \/ exists response, answer = Returned response
                               /\ first_message response = None
       end.
Proof.
  intros q. unfold makeOpenAICall, bind, chat_completions_create. fold q.
  destruct (openai_create q (world st)) as [[response|e] w].
  - exists (Returned response).
    destruct (choices response) as [|choice rest] eqn:Hc; cbn.
    + split; [reflexivity|]. right. exists response.
      unfold first_message. rewrite Hc. auto.
    + destruct (message choice) as [m|] eqn:Hm; cbn.
      * split; [reflexivity|]. split; [reflexivity|].
        unfold first_message. rewrite Hc, Hm. discriminate.
      * split; [reflexivity|]. right. exists response.
        unfold first_message. rewrite Hc, Hm. auto.
  - exists (Thrown e). cbn. auto.
Qed.

Lemma processResponse_any response m messages toolCalls (st : St World) :
  first_message response = Some m ->
  exists notified,
    trace (snd (process response messages toolCalls st))
      = (trace st ++ map ToolCallStarted notified)%list
    /\ match fst (process response messages toolCalls st) with
       | Returned (shouldContinue, (messages', toolCalls')) =>
           extends messages messages'
           /\ (exists entries,
                 toolCalls' = (toolCalls ++ entries)%list
                 /\ Forall2 records entries notified)
           /\ map call_id (requested m) = map id notified
           /\ (shouldContinue = false <-> requested m = [])
       | Thrown e =>
           exists tc, In tc (requested m)
                      /\ JSON_parse (function_arguments tc) = Thrown e
       end.
Proof.
  intros Hm. unfold processResponse, first_message in *.
  destruct (choices response) as [|choice rest]; [discriminate|].
  rewrite Hm. unfold requested.
  destruct (tool_calls m) as [[|c l]|].
  - exists []. cbn. rewrite app_nil_r. split; [reflexivity|].
    split; [eexists; reflexivity|]. split; [|split; [reflexivity | tauto]].
    exists []. rewrite app_nil_r. split; [reflexivity | constructor].
  - destruct (executeToolCalls_any (c :: l) (messages ++ [AssistantReply m])%list
                toolCalls st) as (notified & Ht & _ & Hout).
    exists notified. unfold bind.
    destruct (all_calls (c :: l) (messages ++ [AssistantReply m])%list toolCalls st)
      as [[[messages' toolCalls']|e] st2]; cbn [fst snd] in *.
    + split; [exact Ht|]. unfold ret. cbn [fst].
      destruct Hout as (Hext & Hent & Hids).
      split; [eapply extends_trans; [eexists; reflexivity | exact Hext]|].
      split; [exact Hent|]. split; [exact Hids|].
      split; intros H; discriminate H.
    + split; [exact Ht | exact Hout].
  - exists []. cbn. rewrite app_nil_r. split; [reflexivity|].
    split; [eexists; reflexivity|]. split; [|split; [reflexivity | tauto]].
    exists []. rewrite app_nil_r. split; [reflexivity | constructor].
Qed.

Lemma forced_final_any messages toolCalls (st : St World) :
  let q := mkModelRequest "gpt-4-1106-preview"
             (messages ++ [UserMessage FINAL_PROMPT])%list None in
  exists answer,
    trace (snd (forced_final openai_create span_traceId messages toolCalls st))
      = (trace st ++ [ModelCalled q answer])%list
    /\ match answer with
       | Returned response =>
           exists r,
             fst (forced_final openai_create span_traceId messages toolCalls st)
               = Returned r
             /\ content r = final_content response
             /\ Agent.toolCalls r = toolCalls
       | Thrown e =>
           fst (forced_final openai_create span_traceId messages toolCalls st)
             = Thrown e
       end.
Proof.
  intros q. unfold forced_final, bind, chat_completions_create, ret. fold q.
  destruct (openai_create q (world st)) as [[response|e] w]; cbn.
  - exists (Returned response). split; [reflexivity|].
    eexists. split; [reflexivity|]. cbn. auto.
  - exists (Thrown e). auto.
Qed.

Lemma loop_S n it messages toolCalls (st : St World) :
  the_loop (S n) it messages toolCalls st =
    match makeOpenAICall openai_create messages getAvailableTools st with
    | (Thrown e, st1) => (Thrown e, st1)
    | (Returned response, st1) =>
        match process response messages toolCalls st1 with
        | (Thrown e, st2) => (Thrown e, st2)
        | (Returned (true, (messages', toolCalls')), st2) =>
            the_loop n (S it) messages' toolCalls' st2
        | (Returned (false, (messages', toolCalls')), st2) =>
            (Returned
               (mkLLMResponse (final_content response) toolCalls'
                  ("OpenAI completed research using "
                     ++ decimal (List.length toolCalls')
                     ++ " tool(s) across " ++ decimal (S it)
                     ++ " iteration(s) to provide a comprehensive response.")
                  span_traceId), st2)
        end
    end.
Proof.
  cbn [loop]. unfold bind at 1.
  destruct (makeOpenAICall openai_create messages getAvailableTools st)
    as [[response|e] st1]; [|reflexivity].
  unfold bind at 1.
  destruct (process response messages toolCalls st1)
    as [[[[|] [messages' toolCalls']]|e] st2]; reflexivity.
Qed.

Lemma iterating_request messages :
  iterating (mkModelRequest "o4-mini" messages (Some getAvailableTools)) = true.
Proof. reflexivity. Qed.

Lemma concluding_request messages :
  let q := mkModelRequest "gpt-4-1106-preview"
             (messages ++ [UserMessage FINAL_PROMPT])%list None in
  iterating q = false /\ concluding q.
Proof.
  split; [reflexivity|]. split; [reflexivity|]. split; [reflexivity|].
  now exists messages.
Qed.

Lemma In_started q (e : string) notified :
  ~ In (ModelCalled q (Thrown e)) (map ToolCallStarted notified).
Proof.
  intros H. apply in_map_iff in H. destruct H as (c & Hc & _). discriminate.
Qed.

(** What every run of the loop leaves in the trace, and how its outcome
    relates to it. *)
Lemma loop_any n :
  forall it messages toolCalls (st : St World),
  exists new,
    trace (snd (the_loop n it messages toolCalls st)) = (trace st ++ new)%list
    /\ List.length (filter iterating (requests_in new)) <= n
    /\ List.length (filter (fun q => negb (iterating q)) (requests_in new)) <= 1
    /\ Forall (fun q => iterating q = true \/ concluding q) (requests_in new)
    /\ growing messages (requests_in new)
    /\ (forall q e,
          In (ModelCalled q (Thrown e)) new ->
          fst (the_loop n it messages toolCalls st) = Thrown e
          /\ exists front, new = (front ++ [ModelCalled q (Thrown e)])%list)
    /\ (forall r,
          fst (the_loop n it messages toolCalls st) = Returned r ->
          exists entries,
            Agent.toolCalls r = (toolCalls ++ entries)%list
            /\ Forall2 records entries (started_in new)).
Proof.
  induction n as [|n IH]; intros it messages toolCalls st.
  - cbn [loop].
    destruct (forced_final_any messages toolCalls st) as (answer & Ht & Hans).
    destruct (concluding_request messages) as [Hit Hcon].
    eexists. split; [exact Ht|].
    cbn [requests_in flat_map app filter]. rewrite Hit. cbn [negb filter List.length].
    split; [lia|]. split; [lia|].
    split; [constructor; [now right | constructor]|].
    split; [split; [now exists [UserMessage FINAL_PROMPT] | exact I]|].
    split.
    + intros q e [H|[]]. injection H as <- ->. split; [exact Hans|].
      exists []. reflexivity.
    + intros r Hr. destruct answer as [response|e].
      * destruct Hans as (r' & Hr' & _ & Htc). rewrite Hr in Hr'.
        injection Hr' as <-. exists []. rewrite app_nil_r.
        split; [exact Htc | constructor].
      * congruence.
  - rewrite loop_S.
    destruct (makeOpenAICall_any messages st) as (answer & Ht1 & Hans).
    pose proof (iterating_request messages) as Hit.
    destruct (makeOpenAICall openai_create messages getAvailableTools st)
      as [[response|e] st1]; cbn [fst snd] in Ht1, Hans.
    + destruct Hans as [-> Hsome].
      destruct (first_message response) as [m|] eqn:Hm; [clear Hsome | congruence].
      destruct (processResponse_any response m messages toolCalls st1 Hm)
        as (notified & Ht2 & Hout).
      destruct (process response messages toolCalls st1)
        as [[[[|] [messages' toolCalls']]|e] st2]; cbn [fst snd] in Ht2, Hout.
      * (* another turn *)
        destruct Hout as (Hext & (entries & -> & Hrec) & _ & _).
        destruct (IH (S it) messages' (toolCalls ++ entries)%list st2)
          as (new & Ht & Hn & Hc & Hall & Hgrow & Hfail & Hret).
        exists (ModelCalled (mkModelRequest "o4-mini" messages (Some getAvailableTools))
                  (Returned response) :: map ToolCallStarted notified ++ new)%list.
        split; [rewrite Ht, Ht2, Ht1, <- !app_assoc; reflexivity|].
        cbn [requests_in flat_map app]. fold (requests_in (map ToolCallStarted notified ++ new)).
        rewrite requests_in_app, requests_in_started. cbn [app filter].
        rewrite Hit. cbn [negb List.length].
        split; [lia|]. split; [exact Hc|].
        split; [constructor; [now left | exact Hall]|].
        split; [split; [apply extends_refl | eapply growing_weaken; eauto]|].
        split.
        -- intros q e [H|H]; [discriminate H|].
           apply in_app_or in H. destruct H as [H|H]; [destruct (In_started _ _ _ H)|].
           destruct (Hfail q e H) as (Hthrown & front & ->).
           split; [exact Hthrown|]. eexists. rewrite app_comm_cons, app_assoc. reflexivity.
        -- intros r Hr. destruct (Hret r Hr) as (entries' & Htc & Hrec').
           exists (entries ++ entries')%list. split; [now rewrite Htc, app_assoc|].
           cbn [started_in flat_map app].
           fold (started_in (map ToolCallStarted notified ++ new)).
           rewrite started_in_app, started_in_started. now apply Forall2_app.
      * (* the answer asks for no tool *)
        destruct Hout as (_ & (entries & -> & Hrec) & Hids & Hstop).
        assert (Hnone : notified = []).
        { rewrite (proj1 Hstop eq_refl) in Hids. destruct notified; [auto | discriminate]. }
        subst notified. inversion Hrec; subst. rewrite app_nil_r in *.
        cbn [fst snd]. cbn [map] in Ht2. rewrite ?app_nil_r in Ht2.
        eexists. split; [rewrite Ht2, Ht1; reflexivity|].
        cbn [map app requests_in flat_map filter]. rewrite Hit. cbn [negb filter List.length].
        split; [lia|]. split; [lia|].
        split; [constructor; [now left | constructor]|].
        split; [split; [apply extends_refl | exact I]|].
        split; [intros q e [H|[]]; discriminate H|].
        intros r [= <-]. exists []. rewrite app_nil_r. split; [reflexivity | constructor].
      * (* JSON.parse threw *)
        cbn [fst snd]. eexists. split; [rewrite Ht2, Ht1, <- app_assoc; reflexivity|].
        cbn [app requests_in flat_map].
        fold (requests_in (map ToolCallStarted notified)).
        rewrite requests_in_started. cbn [app filter]. rewrite Hit.
        cbn [negb filter List.length].
        split; [lia|]. split; [lia|].
        split; [constructor; [now left | constructor]|].
        split; [split; [apply extends_refl | exact I]|].
        split; [|intros r Hr; discriminate Hr].
        intros q e' [H|H]; [discriminate H | destruct (In_started _ _ _ H)].
    + cbn [fst snd]. eexists. split; [exact Ht1|].
      cbn [requests_in flat_map app filter]. rewrite Hit. cbn [negb filter List.length].
      split; [lia|]. split; [lia|].
      split; [constructor; [now left | constructor]|].
      split; [split; [apply extends_refl | exact I]|].
      split; [|intros r Hr; discriminate Hr].
      intros q e' [H|[]]. injection H as <- Ha.
      destruct Hans as [->|(response & -> & _)]; [|discriminate Ha].
      injection Ha as ->. split; [reflexivity|]. exists []. reflexivity.
Qed.

(** Why a run can fail. *)
Lemma loop_failure n :
  forall it messages toolCalls (st : St World) e,
  fst (the_loop n it messages toolCalls st) = Thrown e ->
  exists front q answer notified,
    trace (snd (the_loop n it messages toolCalls st))
      = (trace st ++ front ++ ModelCalled q answer :: map ToolCallStarted notified)%list
    /\ (answer = Thrown e
        \/ (exists response,
              answer = Returned response /\ first_message response = None)
        \/ (exists response m tc,
              answer = Returned response
              /\ first_message response = Some m
              /\ In tc (requested m)
              /\ JSON_parse (function_arguments tc) = Thrown e)).
Proof.
  induction n as [|n IH]; intros it messages toolCalls st e.
  - cbn [loop]. intros Hthrown.
    destruct (forced_final_any messages toolCalls st) as (answer & Ht & Hans).
    exists [], (mkModelRequest "gpt-4-1106-preview"
                  (messages ++ [UserMessage FINAL_PROMPT])%list None), answer, [].
    split; [exact Ht|]. left.
    destruct answer as [response|e'].
    + destruct Hans as (r & Hr & _). congruence.
    + congruence.
  - rewrite loop_S.
    destruct (makeOpenAICall_any messages st) as (answer & Ht1 & Hans).
    destruct (makeOpenAICall openai_create messages getAvailableTools st)
      as [[response|e1] st1]; cbn [fst snd] in Ht1, Hans.
    + destruct Hans as [-> Hsome].
      destruct (first_message response) as [m|] eqn:Hm; [clear Hsome | congruence].
      destruct (processResponse_any response m messages toolCalls st1 Hm)
        as (notified & Ht2 & Hout).
      destruct (process response messages toolCalls st1)
        as [[[[|] [messages' toolCalls']]|e2] st2]; cbn [fst snd] in Ht2, Hout.
      * intros Hthrown.
        destruct (IH _ _ _ _ _ Hthrown) as (front & q & answer & notified' & Ht & Hwhy).
        exists (ModelCalled (mkModelRequest "o4-mini" messages (Some getAvailableTools))
                  (Returned response) :: map ToolCallStarted notified ++ front)%list,
          q, answer, notified'.
        split; [|exact Hwhy].
        rewrite Ht, Ht2, Ht1, <- !app_assoc. cbn [app]. rewrite <- !app_assoc.
        reflexivity.
      * cbn [fst]. discriminate.
      * cbn [fst snd]. intros [= ->].
        exists [], (mkModelRequest "o4-mini" messages (Some getAvailableTools)),
          (Returned response), notified.
        split; [rewrite Ht2, Ht1, <- app_assoc; reflexivity|].
        right. right. destruct Hout as (tc & Hin & Hbad).
        exists response, m, tc. auto.
    + cbn [fst snd]. intros [= ->].
      exists [], (mkModelRequest "o4-mini" messages (Some getAvailableTools)), answer, [].
      split; [exact Ht1|].
      destruct Hans as [->|Hans]; [now left | right; left; exact Hans].
Qed.

(** X7.  The cost of a run is bounded whatever the model and the tools do:
    a run sends at most [maxIterations + 1] (6) requests to the model
    boundary, at most [maxIterations] (5) of them to the iterating model
    with the tool schema; any other request is the forced call. *)
Theorem run_sends_at_most_six_requests query chatHistory (st : St World) :
  exists new,
    trace (snd (the_run query chatHistory st)) = (trace st ++ new)%list
    /\ List.length (requests_in new) <= maxIterations + 1
    /\ List.length (filter iterating (requests_in new)) <= maxIterations
    /\ Forall (fun q => iterating q = true \/ concluding q) (requests_in new).
Proof.
  unfold run.
  destruct (loop_any maxIterations 0 (initial_messages query chatHistory) [] st)
    as (new & Ht & Hn & Hc & Hall & _).
  exists new. split; [exact Ht|]. split; [|split; assumption].
  rewrite <- (filter_length iterating (requests_in new)). lia.
Qed.

(** X8.  Within a run the conversation buffer only grows: the first request
    carries the system prompt, the history and the query, and every later
    request carries all the messages of the request before it, followed by
    more. *)
Theorem run_buffer_only_grows query chatHistory (st : St World) :
  exists new,
    trace (snd (the_run query chatHistory st)) = (trace st ++ new)%list
    /\ growing (initial_messages query chatHistory) (requests_in new)
    /\ Forall (fun q =>
                 exists more,
                   request_messages q
                   = (SystemMessage SYSTEM_PROMPT
                        :: map history_message chatHistory
                        ++ UserMessage query :: more)%list)
         (requests_in new).
Proof.
  unfold run.
  destruct (loop_any maxIterations 0 (initial_messages query chatHistory) [] st)
    as (new & Ht & _ & _ & _ & Hgrow & _).
  exists new. split; [exact Ht|]. split; [exact Hgrow|].
  assert (Hall : forall buffer qs,
             growing buffer qs ->
             Forall (fun q => extends buffer (request_messages q)) qs).
  { intros buffer qs. revert buffer.
    induction qs as [|q qs IHq]; intros buffer; cbn; [constructor|].
    intros [Hq Hrest]. constructor; [exact Hq|].
    eapply Forall_impl; [|apply IHq; exact Hrest].
    intros q' Hq'. eapply extends_trans; eauto. }
  eapply Forall_impl; [|apply Hall; exact Hgrow].
  intros q [more ->]. exists more. unfold initial_messages.
  cbn [app]. now rewrite <- app_assoc.
Qed.

Lemma failed_call_after_started notified new front q (e : string) rest :
  (map ToolCallStarted notified ++ new)%list
    = (front ++ ModelCalled q (Thrown e) :: rest)%list ->
  exists front', new = (front' ++ ModelCalled q (Thrown e) :: rest)%list.
Proof.
  revert front. induction notified as [|c l IH]; intros front; cbn [map app].
  - intros ->. now exists front.
  - destruct front as [|x front]; cbn [app]; [discriminate|].
    intros [= _ H]. eapply IH; eauto.
Qed.

Lemma loop_failed_call_last n :
  forall it messages toolCalls (st : St World) new front q e rest,
  trace (snd (the_loop n it messages toolCalls st)) = (trace st ++ new)%list ->
  new = (front ++ ModelCalled q (Thrown e) :: rest)%list ->
  rest = [] /\ fst (the_loop n it messages toolCalls st) = Thrown e.
Proof.
  induction n as [|n IH]; intros it messages toolCalls st new front q e rest.
  - cbn [loop].
    destruct (forced_final_any messages toolCalls st) as (answer & Ht & Hans).
    rewrite Ht. intros Hnew. apply app_inv_head in Hnew. subst new.
    destruct front as [|x front]; cbn [app].
    + intros [= _ -> <-]. auto.
    + intros [= _ H]. destruct front; discriminate H.
  - rewrite loop_S.
    destruct (makeOpenAICall_any messages st) as (answer & Ht1 & Hans).
    destruct (makeOpenAICall openai_create messages getAvailableTools st)
      as [[response|e1] st1]; cbn [fst snd] in Ht1, Hans.
    + destruct Hans as [-> Hsome].
      destruct (first_message response) as [m|] eqn:Hm; [clear Hsome | congruence].
      destruct (processResponse_any response m messages toolCalls st1 Hm)
        as (notified & Ht2 & _).
      destruct (process response messages toolCalls st1)
        as [[[[|] [messages' toolCalls']]|e2] st2]; cbn [fst snd] in Ht2.
      * (* another turn *)
        destruct (loop_any n (S it) messages' toolCalls' st2) as (new' & Ht & _).
        rewrite Ht, Ht2, Ht1, <- !app_assoc. intros Hnew.
        apply app_inv_head in Hnew. subst new. cbn [app].
        destruct front as [|x front]; cbn [app]; [discriminate|].
        intros [= _ H]. apply failed_call_after_started in H.
        destruct H as (front' & H).
        exact (IH _ _ _ _ new' front' q e rest Ht H).
      * cbn [fst snd]. rewrite Ht2, Ht1, <- !app_assoc. intros Hnew.
        apply app_inv_head in Hnew. subst new. cbn [app].
        destruct front as [|x front]; cbn [app]; [discriminate|].
        intros [= _ H]. rewrite <- (app_nil_r (map ToolCallStarted notified)) in H.
        apply failed_call_after_started in H. destruct H as (front' & H).
        destruct front'; discriminate H.
      * cbn [fst snd]. rewrite Ht2, Ht1, <- !app_assoc. intros Hnew.
        apply app_inv_head in Hnew. subst new. cbn [app].
        destruct front as [|x front]; cbn [app]; [discriminate|].
        intros [= _ H]. rewrite <- (app_nil_r (map ToolCallStarted notified)) in H.
        apply failed_call_after_started in H. destruct H as (front' & H).
        destruct front'; discriminate H.
    + cbn [fst snd]. rewrite Ht1. intros Hnew.
      apply app_inv_head in Hnew. subst new.
      destruct front as [|x front]; cbn [app].
      * intros [= _ Ha <-]. split; [reflexivity|].
        destruct Hans as [->|(response & -> & _)]; [|discriminate Ha].
        now injection Ha as ->.
      * intros [= _ H]. destruct front; discriminate H.
Qed.

(** X9.  A failure of the model boundary is final.  If a call to the model
    throws, that call is the last thing the run does (it is not retried, no
    tool is started and no other request is sent after it) and the run
    fails with the same error. *)
Theorem model_failure_ends_the_run query chatHistory (st : St World) q e front rest :
  trace (snd (the_run query chatHistory st))
    = (trace st ++ front ++ ModelCalled q (Thrown e) :: rest)%list ->
  rest = [] /\ fst (the_run query chatHistory st) = Thrown e.
Proof.
  unfold run. intros Ht.
  exact (loop_failed_call_last maxIterations 0 (initial_messages query chatHistory) []
           st _ front q e rest Ht eq_refl).
Qed.

(** X10.  Why a run can fail.  If [run] throws [e], the last request it
    sent to the model either threw [e], or was answered without a message,
    or was answered with a tool-call request whose [arguments] made
    [JSON.parse] throw [e]; after that request only tool calls were
    started.  The failure of a tool is not among the causes. *)
Theorem run_fails_for_three_reasons query chatHistory (st : St World) e :
  fst (the_run query chatHistory st) = Thrown e ->
  exists front q answer notified,
    trace (snd (the_run query chatHistory st))
      = (trace st ++ front ++ ModelCalled q answer :: map ToolCallStarted notified)%list
    /\ (answer = Thrown e
        \/ (exists response,
              answer = Returned response /\ first_message response = None)
        \/ (exists response m tc,
              answer = Returned response
              /\ first_message response = Some m
              /\ In tc (requested m)
              /\ JSON_parse (function_arguments tc) = Thrown e)).
Proof. unfold run. apply loop_failure. Qed.

(** X11.  What a run returns as [toolCalls] is the record of the tool calls
    it started: one entry for each call announced to [onToolCall], in the
    order of the announcements, with the same id, name and arguments, and
    with a result or an error but not both. *)
Theorem toolCalls_record_the_started_calls query chatHistory (st : St World) r :
  fst (the_run query chatHistory st) = Returned r ->
  exists new,
    trace (snd (the_run query chatHistory st)) = (trace st ++ new)%list
    /\ Forall2 records (toolCalls r) (started_in new).
Proof.
  unfold run. intros Hr.
  destruct (loop_any maxIterations 0 (initial_messages query chatHistory) [] st)
    as (new & Ht & _ & _ & _ & _ & _ & Hret).
  exists new. split; [exact Ht|].
  destruct (Hret r Hr) as (entries & Htc & Hrec). now rewrite Htc.
Qed.

(** ** The tools, case by case *)

Lemma get_property_thrown_C v key msg :
  get_property v key = Thrown msg -> exists rest, msg = String "C" rest.
Proof.
  destruct v; cbn; intros [= <-]; eexists; reflexivity.
Qed.

Lemma executeToolCall_declared call (st st' : St World) msg :
  In (name call) declared_names ->
  dispatch call st = (Thrown msg, st') ->
  exists c rest, msg = String c rest /\ c <> "U"%char.
Proof.
  intros Hin. unfold executeToolCall, bind, lift, throw, ret.
  destruct (String.eqb (name call) "search_web") eqn:E1.
  - destruct (get_property (arguments call) "query") eqn:E.
    + destruct (searchWeb fetch JSON_stringify tavilyApiKey a st) as [[x|e] s] eqn:Es;
        [discriminate|].
      intros [= <- _]. apply searchWeb_thrown in Es. destruct Es as [inner ->].
      do 2 eexists. split; [reflexivity | discriminate].
    + intros [= <- _]. apply get_property_thrown_C in E. destruct E as [rest ->].
      do 2 eexists. split; [reflexivity | discriminate].
  - destruct (String.eqb (name call) "fetch_web_content") eqn:E2.
    + destruct (get_property (arguments call) "url") eqn:E.
      * destruct (fetchWebContent fetch extractTitle a st) as [[x|e] s] eqn:Es;
          [discriminate|].
        intros [= <- _]. apply fetchWebContent_thrown in Es. destruct Es as [inner ->].
        do 2 eexists. split; [reflexivity | discriminate].
      * intros [= <- _]. apply get_property_thrown_C in E. destruct E as [rest ->].
        do 2 eexists. split; [reflexivity | discriminate].
    + apply String.eqb_neq in E1, E2. exfalso.
      destruct Hin as [H|[H|[]]]; cbn in H; congruence.
Qed.

(** X12.  The dispatcher and the tool schema agree.  [executeToolCall]
    answers [Unknown tool: <name>] exactly for the names that
    [getAvailableTools] does not declare: every tool offered to the model
    is dispatched, and nothing else is. *)
Theorem schema_and_dispatcher_agree call (st : St World) :
  (exists st', dispatch call st = (Thrown ("Unknown tool: " ++ name call), st'))
  <-> ~ In (name call) declared_names.
Proof.
  split.
  - intros [st' H] Hin.
    destruct (executeToolCall_declared call st st' _ Hin H) as (c & rest & Heq & Hc).
    cbn in Heq. injection Heq as <- _. now apply Hc.
  - intros Hnot. exists st. apply executeToolCall_unknown.
    + intros E. apply Hnot. rewrite E. now left.
    + intros E. apply Hnot. rewrite E. right. now left.
Qed.

Lemma map_results_objects items :
  map_results (map JObject items) = Returned (map result_of_item items).
Proof.
  induction items as [|item items IH]; [reflexivity|].
  cbn [map map_results get_property]. rewrite IH. reflexivity.
Qed.

(** X13.  [searchWeb] sends one POST to the Tavily endpoint carrying the
    key and the query.  If the transport throws [e], it throws
    [Web search failed: e]; on a status that is not a success it throws
    [Web search failed: Tavily API error: <status> <statusText>]; if the
    body is not JSON it throws with the parser's message; and when the body
    is an object whose [results] is an array of objects it returns one
    result for each item, in order, the item's [content] as [snippet]. *)
Theorem searchWeb_outcomes query (st : St World) answer w' :
  fetch (tavily_request JSON_stringify tavilyApiKey query) (world st) = (answer, w') ->
  let after := mkSt w' (trace st) in
  let search := searchWeb fetch JSON_stringify tavilyApiKey query st in
  (forall e, answer = Thrown e ->
             search = (Thrown ("Web search failed: " ++ e), after))
  /\ (forall response,
        answer = Returned response -> ok response = false ->
        search = (Thrown ("Web search failed: Tavily API error: "
                           ++ decimal (status response) ++ " " ++ statusText response),
                  after))
  /\ (forall response e,
        answer = Returned response -> ok response = true ->
        json response = Thrown e ->
        search = (Thrown ("Web search failed: " ++ e), after))
  /\ (forall response fields items,
        answer = Returned response -> ok response = true ->
        json response = Returned (JObject fields) ->
        own_property "results" fields = JArray (map JObject items) ->
        search = (Returned (map result_of_item items), after)).
Proof.
  intros Hfetch after search. unfold search, after, searchWeb.
  unfold try_catch, bind, do_fetch, throw, lift, ret.
  fold (tavily_request JSON_stringify tavilyApiKey query). rewrite Hfetch.
  repeat split.
  - intros e ->. reflexivity.
  - intros response -> Hok. rewrite Hok. reflexivity.
  - intros response e -> Hok Hjson. rewrite Hok, Hjson. reflexivity.
  - intros response fields items -> Hok Hjson Hres. rewrite Hok, Hjson. cbn [negb].
    unfold results_of. cbn [get_property]. rewrite Hres, map_results_objects.
    reflexivity.
Qed.

(** X14.  [fetchWebContent] sends one GET to the address it is given.  If
    the transport throws [e] it throws
    [Failed to fetch content from <url>: e]; on a status that is not a
    success, [Failed to fetch content from <url>: HTTP <status>: <statusText>];
    otherwise it returns the page with the body as [content], the text
    extracted from the body, never more than 10003 code units, and a word
    count of at least one. *)
Theorem fetchWebContent_outcomes target (st : St World) answer w' :
  fetch (page_request target) (world st) = (answer, w') ->
  let after := mkSt w' (trace st) in
  let page := fetchWebContent fetch extractTitle target st in
  (forall e, answer = Thrown e ->
             page = (Thrown ("Failed to fetch content from " ++ ToString target
                               ++ ": " ++ e), after))
  /\ (forall response,
        answer = Returned response -> ok response = false ->
        page = (Thrown ("Failed to fetch content from " ++ ToString target
                          ++ ": " ++ "HTTP " ++ decimal (status response) ++ ": "
                          ++ statusText response), after))
  /\ (forall response,
        answer = Returned response -> ok response = true ->
        exists found,
          page = (Returned found, after)
          /\ page_url found = target
          /\ page_content found = text response
          /\ page_title found = extractTitle (text response)
          /\ extractedText found = HtmlText.extractTextFromHTML (text response)
          /\ List.length (extractedText found) <= 10003
          /\ 1 <= wordCount found).
Proof.
  intros Hfetch after page. unfold page, after, fetchWebContent.
  unfold try_catch, bind, do_fetch, throw, lift, ret.
  fold (page_request target). rewrite Hfetch.
  repeat split.
  - intros e ->. reflexivity.
  - intros response -> Hok. rewrite Hok. reflexivity.
  - intros response -> Hok. rewrite Hok. cbn [negb].
    eexists. split; [reflexivity|]. cbn [page_url page_content page_title extractedText wordCount].
    repeat split; [|lia].
    rewrite HtmlTextFacts.extractTextFromHTML_pipeline.
    apply HtmlTextFacts.truncate_length.
Qed.

(** ** A failed tool call within a run *)

Lemma executeToolCalls_app before after messages toolCalls (st : St World) :
  all_calls (before ++ after) messages toolCalls st =
    match all_calls before messages toolCalls st with
    | (Returned (messages1, toolCalls1), st1) => all_calls after messages1 toolCalls1 st1
    | (Thrown e, st1) => (Thrown e, st1)
    end.
Proof.
  revert messages toolCalls st.
  induction before as [|tc before IH]; intros messages toolCalls st; [reflexivity|].
  cbn [app]. rewrite !executeToolCalls_cons.
  destruct (one_call tc messages toolCalls st) as [[step|e] st1]; [|reflexivity].
  apply IH.
Qed.

Lemma processResponse_requests response m messages toolCalls (st : St World) :
  first_message response = Some m ->
  requested m <> [] ->
  process response messages toolCalls st =
    match all_calls (requested m) (messages ++ [AssistantReply m])%list toolCalls st with
    | (Returned after, st2) => (Returned (true, after), st2)
    | (Thrown e, st2) => (Thrown e, st2)
    end.
Proof.
  intros Hm Hr. unfold processResponse, first_message in *.
  destruct (choices response) as [|choice rest]; [discriminate|].
  rewrite Hm. unfold requested in *.
  destruct (tool_calls m) as [[|c l]|]; try congruence.
  unfold bind, ret.
  destruct (all_calls (c :: l) (messages ++ [AssistantReply m])%list toolCalls st)
    as [[after|e] st2]; reflexivity.
Qed.

(** whatever the loop does next, it begins with a request to the model, and
    the request carries the buffer *)
Lemma loop_first_request n it messages toolCalls (st : St World) :
  exists q answer rest,
    trace (snd (the_loop n it messages toolCalls st))
      = (trace st ++ ModelCalled q answer :: rest)%list
    /\ extends messages (request_messages q).
Proof.
  destruct n as [|n].
  - cbn [loop].
    destruct (forced_final_any messages toolCalls st) as (answer & Ht & _).
    do 2 eexists. exists []. split; [exact Ht|].
    exists [UserMessage FINAL_PROMPT]. reflexivity.
  - rewrite loop_S.
    destruct (makeOpenAICall_any messages st) as (answer & Ht & Hout).
    exists (mkModelRequest "o4-mini" messages (Some getAvailableTools)), answer.
    assert (Hext : extends messages
                     (request_messages
                        (mkModelRequest "o4-mini" messages (Some getAvailableTools))))
      by (exists []; cbn [request_messages]; now rewrite app_nil_r).
    destruct (makeOpenAICall openai_create messages getAvailableTools st)
      as [[response|e] st1]; cbn [fst snd] in Ht, Hout.
    + destruct Hout as [_ Hm].
      destruct (first_message response) as [m|] eqn:Em; [|congruence].
      destruct (processResponse_any response m messages toolCalls st1 Em)
        as (notified & Htp & _).
      destruct (process response messages toolCalls st1)
        as [[[[|] [messages' toolCalls']]|e] st2]; cbn [fst snd] in Htp.
      * destruct (loop_any n (S it) messages' toolCalls' st2) as (new & Hn & _).
        exists (map ToolCallStarted notified ++ new)%list.
        split; [|exact Hext].
        rewrite Hn, Htp, Ht. rewrite <- !app_assoc. reflexivity.
      * exists (map ToolCallStarted notified). split; [|exact Hext].
        cbn [snd]. rewrite Htp, Ht. rewrite <- !app_assoc. reflexivity.
      * exists (map ToolCallStarted notified). split; [|exact Hext].
        cbn [snd]. rewrite Htp, Ht. rewrite <- !app_assoc. reflexivity.
    + exists []. split; [exact Ht | exact Hext].
Qed.

(** C3, as amended.  Let a tool-call request [tc] have [arguments] that
    parse, so that it is dispatched; [call] is what is announced for it.
    A name other than the two known tools makes the dispatch fail with
    [Unknown tool: <name>], in any state.  Now let [tc] stand in an answer
    of the iterating model, after the requests [before] and before the
    requests [after], all with [arguments] that parse; let the requests
    [before] have left the buffer [messages1] and the list [toolCalls1],
    and let the dispatch of [tc] fail with message [msg].  Then [msg] is
    not empty, and [processResponse] returns [true] with the buffer
    [messages1], the tool message [Error: msg], and the replies to the
    requests [after], and with the list [toolCalls1], the entry for [tc]
    with [error = msg] and no result, and one entry for each request
    [after].  The run is not aborted by the failure: the loop goes on to
    its next turn with this buffer and this list, the first thing it does
    there is to send the model a request that carries this buffer (at the
    cap, the forced call), and if the run returns, the [toolCalls] it
    returns begin with this list. *)
Theorem failed_tool_call_does_not_abort tc parsed :
  JSON_parse (function_arguments tc) = Returned parsed ->
  let call := mkLLMToolCall (call_id tc) (function_name tc) parsed None None in
  (function_name tc <> "search_web" ->
   function_name tc <> "fetch_web_content" ->
   forall st : St World,
     dispatch call st = (Thrown ("Unknown tool: " ++ function_name tc), st))
  /\ (forall response m before after msg remaining iteration messages toolCalls
             messages1 toolCalls1 (st st1 stA stB : St World),
        let failed :=
          mkLLMToolCall (call_id tc) (function_name tc) parsed None (Some msg) in
        let reply := ToolMessage ("Error: " ++ msg) (call_id tc) in
        makeOpenAICall openai_create messages getAvailableTools st
          = (Returned response, st1) ->
        first_message response = Some m ->
        requested m = (before ++ tc :: after)%list ->
        Forall parses (requested m) ->
        all_calls before (messages ++ [AssistantReply m])%list toolCalls st1
          = (Returned (messages1, toolCalls1), stA) ->
        dispatch call (started stA call) = (Thrown msg, stB) ->
        msg <> ""
        /\ extends (messages ++ [AssistantReply m])%list messages1
        /\ (exists entriesBefore, toolCalls1 = (toolCalls ++ entriesBefore)%list)
        /\ exists repliesAfter entriesAfter st2,
             let messages' := (messages1 ++ reply :: repliesAfter)%list in
             let toolCalls' := (toolCalls1 ++ failed :: entriesAfter)%list in
             List.length entriesAfter = List.length after
             /\ process response messages toolCalls st1
                = (Returned (true, (messages', toolCalls')), st2)
             /\ the_loop (S remaining) iteration messages toolCalls st
                = the_loop remaining (S iteration) messages' toolCalls' st2
             /\ (exists q answer rest,
                   trace (snd (the_loop remaining (S iteration) messages' toolCalls' st2))
                     = (trace st2 ++ ModelCalled q answer :: rest)%list
                   /\ extends messages' (request_messages q))
             /\ (forall r,
                   fst (the_loop (S remaining) iteration messages toolCalls st)
                     = Returned r ->
                   exists later, Agent.toolCalls r = (toolCalls' ++ later)%list)).
Proof.
  intros Hp call. split.
  - intros H1 H2 st. exact (executeToolCall_unknown call st H1 H2).
  - intros response m before after msg remaining iteration messages toolCalls
      messages1 toolCalls1 st st1 stA stB failed reply Hcall Hm Hreq Hall Hpre Hd.
    split; [exact (executeToolCall_thrown call _ _ msg Hd)|].
    pose proof (executeToolCalls_any before (messages ++ [AssistantReply m])%list
                  toolCalls st1) as (notified & _ & _ & Hbefore).
    rewrite Hpre in Hbefore. cbn [fst] in Hbefore.
    destruct Hbefore as (Hext & (entriesBefore & Hentries & _) & _).
    split; [exact Hext|]. split; [exists entriesBefore; exact Hentries|].
    assert (Hafter : Forall parses after).
    { rewrite Hreq in Hall. apply Forall_app in Hall. destruct Hall as [_ Hall].
      now inversion Hall. }
    destruct (executeToolCalls_return after (messages1 ++ [reply])%list
                (toolCalls1 ++ [failed])%list stB Hafter)
      as (repliesAfter & entriesAfter & st2 & announced & Hrest & _ & _ & Hlen).
    exists repliesAfter, entriesAfter, st2. cbv zeta.
    assert (Hproc : process response messages toolCalls st1
                    = (Returned (true, ((messages1 ++ reply :: repliesAfter)%list,
                                        (toolCalls1 ++ failed :: entriesAfter)%list)),
                       st2)).
    { rewrite (processResponse_requests response m messages toolCalls st1 Hm)
        by (rewrite Hreq; intros E; destruct before; discriminate E).
      rewrite Hreq, executeToolCalls_app, Hpre, executeToolCalls_cons.
      rewrite (executeOne_parsed tc parsed messages1 toolCalls1 stA Hp).
      cbv zeta. fold call. rewrite Hd. cbn [fst snd]. fold failed reply.
      rewrite Hrest. rewrite <- !app_assoc. reflexivity. }
    pose proof (loop_step remaining iteration messages toolCalls st st1 st2 response
                  _ _ Hcall Hproc) as Hstep.
    split; [exact Hlen|]. split; [exact Hproc|]. split; [exact Hstep|].
    split; [apply loop_first_request|].
    intros r Hr. rewrite Hstep in Hr.
    destruct (loop_any remaining (S iteration)
                (messages1 ++ reply :: repliesAfter)%list
                (toolCalls1 ++ failed :: entriesAfter)%list st2)
      as (new & _ & _ & _ & _ & _ & _ & Hret).
    destruct (Hret r Hr) as (entries & Htc & _). exists entries. exact Htc.
Qed.

End Facts.

(** ** The claims with concrete collaborators *)

Section Samples.
Import Scenarios.

Lemma stubborn_model_always_requests_tools args :
  always_requests_tools (stubborn_model args).
Proof.
  intros request w. do 2 eexists. split; [reflexivity|].
  intros _. eexists. split; [reflexivity | discriminate].
Qed.

(** C1 as stated fails: the model answers every call with a tool-call
    request, but the [arguments] string is not valid JSON; [JSON.parse]
    throws outside the [try] of [executeToolCalls], and the run fails with
    that error after its first model call. *)
Lemma malformed_arguments_abort_run :
  always_requests_tools (stubborn_model "{")
  /\ (exists st',
        sample_run (stubborn_model "{") "What is MLflow?"
          = (Thrown "Unexpected end of JSON input", st')
        /\ List.length (model_calls (trace st')) = 1)
  /\ ~ ends_with_forced_call (stubborn_model "{") dead_network parse_sample
         stringify_sample stringify_result_sample title_sample "tvly-key" "trace-1"
         "What is MLflow?" [] start.
Proof.
  split; [apply stubborn_model_always_requests_tools|]. split.
  - eexists. split; vm_compute; reflexivity.
  - intros (r & st' & rounds & buffer & answer & Hrun & _).
    vm_compute in Hrun. discriminate Hrun.
Qed.

Lemma tool_hungry_model_gets_forced_call_witness :
  always_requests_tools (stubborn_model "{}")
  /\ arguments_parse (stubborn_model "{}") parse_sample
  /\ ends_with_forced_call (stubborn_model "{}") dead_network parse_sample
       stringify_sample stringify_result_sample title_sample "tvly-key" "trace-1"
       "What is MLflow?" [] start.
Proof.
  assert (H1 : always_requests_tools (stubborn_model "{}")).
  { intros request w. do 2 eexists. split; [reflexivity|].
    intros _. eexists. split; [reflexivity | discriminate]. }
  assert (H2 : arguments_parse (stubborn_model "{}") parse_sample).
  { intros request w response w' m Hc Hm.
    injection Hc as <- _. injection Hm as <-.
    constructor; [|constructor]. exists (JObject []). reflexivity. }
  split; [exact H1|]. split; [exact H2|].
  apply (tool_hungry_model_gets_forced_call unit (stubborn_model "{}") dead_network
           parse_sample stringify_sample stringify_result_sample title_sample
           "tvly-key" "trace-1" "What is MLflow?" [] start H1 H2).
Defined.

Lemma no_tool_request_returns_at_once_witness :
  let response :=
    mkChatCompletion [mkChoice (Some (mkAssistantMessage (Some "Hello!") None))] in
  plain_model
    (mkModelRequest "o4-mini" (initial_messages "Hi" []) (Some getAvailableTools))
    (world start) = (Returned response, tt)
  /\ content_and_calls (sample_run plain_model "Hi") = Some ("Hello!", [])
  /\ List.length (model_calls (trace (snd (sample_run plain_model "Hi")))) = 1.
Proof.
  intros response.
  assert (H : plain_model
                (mkModelRequest "o4-mini" (initial_messages "Hi" [])
                   (Some getAvailableTools))
                (world start) = (Returned response, tt)) by reflexivity.
  split; [exact H|].
  unfold sample_run.
  rewrite (no_tool_request_returns_at_once unit plain_model dead_network parse_sample
             stringify_sample stringify_result_sample title_sample "tvly-key"
             "trace-1" "Hi" [] start response tt
             (mkAssistantMessage (Some "Hello!") None) H eq_refl eq_refl).
  split; reflexivity.
Defined.

(** C3 as stated fails.  The model asks for two tool calls in one answer:
    an unknown tool, whose dispatch fails, and then a web search whose
    [arguments] are not valid JSON.  The failed dispatch is announced, but
    [JSON.parse] of the second request throws outside the [try]: the run
    is aborted after its first model call, there is no next iteration,
    and no [toolCalls] entry reaches the caller. *)
Lemma malformed_sibling_aborts_run :
  let tc := mkToolCallRequest "call_1" "delete_everything" "{}" in
  let bad := mkToolCallRequest "call_2" "search_web" "{" in
  let call := mkLLMToolCall "call_1" "delete_everything" (JObject []) None None in
  let q := mkModelRequest "o4-mini" (initial_messages "What is MLflow?" [])
             (Some getAvailableTools) in
  let answer :=
    mkChatCompletion
      [mkChoice (Some (mkAssistantMessage (Some "thinking") (Some [tc; bad])))] in
  let st1 := mkSt tt [ModelCalled q (Returned answer)] in
  parse_sample (function_arguments tc) = Returned (JObject [])
  /\ executeToolCall dead_network stringify_sample title_sample "tvly-key" call
       (started st1 call)
     = (Thrown "Unknown tool: delete_everything", started st1 call)
  /\ sample_run (requesting_model [tc; bad]) "What is MLflow?"
     = (Thrown "Unexpected end of JSON input",
        mkSt tt [ModelCalled q (Returned answer); ToolCallStarted call]).
Proof. repeat split. Qed.

Lemma failed_tool_call_does_not_abort_witness :
  let first := mkToolCallRequest "call_1" "search_web" "{}" in
  let tc := mkToolCallRequest "call_2" "delete_everything" "{}" in
  let last := mkToolCallRequest "call_3" "search_web" "{}" in
  let m := mkAssistantMessage (Some "thinking") (Some [first; tc; last]) in
  let response := mkChatCompletion [mkChoice (Some m)] in
  let messages := initial_messages "What is MLflow?" [] in
  let q := mkModelRequest "o4-mini" messages (Some getAvailableTools) in
  let st1 := mkSt tt [ModelCalled q (Returned response)] in
  let call := mkLLMToolCall "call_2" "delete_everything" (JObject []) None None in
  let failed :=
    mkLLMToolCall "call_2" "delete_everything" (JObject []) None
      (Some "Unknown tool: delete_everything") in
  let reply := ToolMessage "Error: Unknown tool: delete_everything" "call_2" in
  parse_sample (function_arguments tc) = Returned (JObject [])
  /\ makeOpenAICall (requesting_model [first; tc; last]) messages getAvailableTools start
     = (Returned response, st1)
  /\ Forall (parses parse_sample) (requested m)
  /\ exists messages' toolCalls' st2,
       processResponse dead_network parse_sample stringify_sample
         stringify_result_sample title_sample "tvly-key" response messages [] st1
         = (Returned (true, (messages', toolCalls')), st2)
       /\ In reply messages'
       /\ In failed toolCalls'
       /\ List.length toolCalls' = 3
       /\ loop (requesting_model [first; tc; last]) dead_network parse_sample
            stringify_sample stringify_result_sample title_sample "tvly-key" "trace-1"
            5 0 messages [] start
          = loop (requesting_model [first; tc; last]) dead_network parse_sample
              stringify_sample stringify_result_sample title_sample "tvly-key" "trace-1"
              4 1 messages' toolCalls' st2.
Proof.
  intros first tc last m response messages q st1 call failed reply.
  set (searched := mkLLMToolCall "call_1" "search_web" (JObject []) None None).
  set (messages1 := (messages ++ [AssistantReply m]
                       ++ [ToolMessage "Error: Web search failed: fetch failed" "call_1"])%list).
  set (toolCalls1 := [mkLLMToolCall "call_1" "search_web" (JObject []) None
                        (Some "Web search failed: fetch failed")]).
  set (stA := started st1 searched).
  assert (H0 : parse_sample (function_arguments tc) = Returned (JObject []))
    by reflexivity.
  assert (H1 : makeOpenAICall (requesting_model [first; tc; last]) messages
                 getAvailableTools start = (Returned response, st1)) by reflexivity.
  assert (H2 : first_message response = Some m) by reflexivity.
  assert (H3 : requested m = ([first] ++ tc :: [last])%list) by reflexivity.
  assert (H4 : Forall (parses parse_sample) (requested m))
    by (repeat constructor; exists (JObject []); reflexivity).
  assert (H5 : executeToolCalls dead_network parse_sample stringify_sample
                 stringify_result_sample title_sample "tvly-key" [first]
                 (messages ++ [AssistantReply m])%list [] st1
               = (Returned (messages1, toolCalls1), stA)) by reflexivity.
  assert (H6 : executeToolCall dead_network stringify_sample title_sample "tvly-key"
                 call (started stA call)
               = (Thrown "Unknown tool: delete_everything", started stA call))
    by reflexivity.
  split; [exact H0|]. split; [exact H1|]. split; [exact H4|].
  pose proof (proj2 (failed_tool_call_does_not_abort unit
                       (requesting_model [first; tc; last]) dead_network parse_sample
                       stringify_sample stringify_result_sample title_sample
                       "tvly-key" "trace-1" tc (JObject []) H0)
                response m [first] [last] "Unknown tool: delete_everything" 4 0
                messages [] messages1 toolCalls1 start st1 stA (started stA call)
                H1 H2 H3 H4 H5 H6) as P.
  cbv zeta in P.
  destruct P as (_ & _ & _ & repliesAfter & entriesAfter & st2 & Hlen & Hproc & Hstep & _).
  exists (messages1 ++ reply :: repliesAfter)%list,
    (toolCalls1 ++ failed :: entriesAfter)%list, st2.
  split; [exact Hproc|].
  split; [apply in_or_app; right; left; reflexivity|].
  split; [apply in_or_app; right; left; reflexivity|].
  split; [rewrite length_app; cbn [List.length toolCalls1]; rewrite Hlen; reflexivity|].
  exact Hstep.
Defined.

End Samples.


(** ** The further properties with concrete collaborators *)

Section MoreSamples.
Import Scenarios.

Lemma model_failure_ends_the_run_witness :
  let q := mkModelRequest "o4-mini" (initial_messages "Hi" []) (Some getAvailableTools) in
  trace (snd (sample_run broken_model "Hi"))
    = (trace start ++ [] ++ [ModelCalled q (Thrown "503 Service Unavailable")])%list
  /\ fst (sample_run broken_model "Hi") = Thrown "503 Service Unavailable".
Proof.
  intros q.
  assert (H : trace (snd (sample_run broken_model "Hi"))
              = (trace start ++ []
                   ++ ModelCalled q (Thrown "503 Service Unavailable") :: [])%list)
    by reflexivity.
  split; [exact H|].
  exact (proj2 (model_failure_ends_the_run unit broken_model dead_network parse_sample
                  stringify_sample stringify_result_sample title_sample "tvly-key"
                  "trace-1" "Hi" [] start q "503 Service Unavailable" [] [] H)).
Defined.

Lemma run_fails_for_three_reasons_witness :
  let out := sample_run (stubborn_model "{") "What is MLflow?" in
  fst out = Thrown "Unexpected end of JSON input"
  /\ exists front q answer notified,
       trace (snd out)
         = (trace start ++ front ++ ModelCalled q answer :: map ToolCallStarted notified)%list
       /\ (answer = Thrown "Unexpected end of JSON input"
           \/ (exists response,
                 answer = Returned response /\ first_message response = None)
           \/ (exists response m tc,
                 answer = Returned response
                 /\ first_message response = Some m
                 /\ In tc (requested m)
                 /\ parse_sample (function_arguments tc)
                    = Thrown "Unexpected end of JSON input")).
Proof.
  intros out.
  assert (H : fst out = Thrown "Unexpected end of JSON input") by reflexivity.
  split; [exact H|].
  exact (run_fails_for_three_reasons unit (stubborn_model "{") dead_network parse_sample
           stringify_sample stringify_result_sample title_sample "tvly-key" "trace-1"
           "What is MLflow?" [] start "Unexpected end of JSON input" H).
Defined.

Lemma toolCalls_record_the_started_calls_witness :
  let out := sample_run (stubborn_model "{}") "What is MLflow?" in
  exists r,
    fst out = Returned r
    /\ List.length (toolCalls r) = 5
    /\ exists new,
         trace (snd out) = (trace start ++ new)%list
         /\ Forall2 records (toolCalls r) (started_in new).
Proof.
  intros out.
  set (r := match fst out with
            | Returned r => r
            | Thrown _ => mkLLMResponse "" [] "" ""
            end).
  exists r.
  assert (H : fst out = Returned r) by reflexivity.
  split; [exact H|]. split; [reflexivity|].
  exact (toolCalls_record_the_started_calls unit (stubborn_model "{}") dead_network
           parse_sample stringify_sample stringify_result_sample title_sample
           "tvly-key" "trace-1" "What is MLflow?" [] start r H).
Defined.

Lemma schema_and_dispatcher_agree_witness :
  let call := mkLLMToolCall "call_9" "delete_everything" (JObject []) None None in
  ~ In (name call) declared_names
  /\ exists st',
       executeToolCall dead_network stringify_sample title_sample "tvly-key" call start
       = (Thrown "Unknown tool: delete_everything", st').
Proof.
  intros call.
  assert (H : ~ In (name call) declared_names)
    by (intros [H|[H|[]]]; discriminate H).
  split; [exact H|].
  exact (proj2 (schema_and_dispatcher_agree unit dead_network stringify_sample
                  title_sample "tvly-key" call start) H).
Defined.

Lemma searchWeb_outcomes_witness :
  let query := JString "mlflow" in
  let body := [("results", JArray [JObject found_item])] in
  let response := mkHttpResponse true 200 "OK" sample_page (Returned (JObject body)) in
  live_network (tavily_request stringify_sample "tvly-key" query) (world start)
    = (Returned response, tt)
  /\ searchWeb live_network stringify_sample "tvly-key" query start
     = (Returned [result_of_item found_item], mkSt tt (trace start)).
Proof.
  intros query body response.
  assert (H : live_network (tavily_request stringify_sample "tvly-key" query)
                (world start) = (Returned response, tt)) by reflexivity.
  split; [exact H|].
  pose proof (searchWeb_outcomes unit live_network stringify_sample "tvly-key" query
                start (Returned response) tt H) as P.
  cbv zeta in P. destruct P as (_ & _ & _ & P).
  exact (P response body [found_item] eq_refl eq_refl eq_refl eq_refl).
Defined.

Lemma fetchWebContent_outcomes_witness :
  let target := JString "https://mlflow.org" in
  let response :=
    mkHttpResponse true 200 "OK" sample_page
      (Returned (JObject [("results", JArray [JObject found_item])])) in
  live_network (page_request target) (world start) = (Returned response, tt)
  /\ exists found,
       fetchWebContent live_network HtmlText.extractTitle target start
         = (Returned found, mkSt tt (trace start))
       /\ page_url found = target
       /\ page_content found = sample_page
       /\ page_title found = HtmlText.extractTitle sample_page
       /\ extractedText found = HtmlText.extractTextFromHTML sample_page
       /\ List.length (extractedText found) <= 10003
       /\ 1 <= wordCount found.
Proof.
  intros target response.
  assert (H : live_network (page_request target) (world start)
              = (Returned response, tt)) by reflexivity.
  split; [exact H|].
  pose proof (fetchWebContent_outcomes unit live_network HtmlText.extractTitle target
                start (Returned response) tt H) as P.
  cbv zeta in P. destruct P as (_ & _ & P).
  exact (P response eq_refl eq_refl).
Defined.

End MoreSamples.

End AgentFacts.

(* ================================================================== *)
(** * Properties of the chat turn *)
(* ================================================================== *)

Module ServerFacts.
Import SessionManager Server.
Import SessionStoreFacts.

Section TurnFacts.
Variable World : Type.
Variable openai_create :
  Agent.ModelRequest -> World -> Agent.Outcome Agent.ChatCompletion * World.
Variable fetch : Agent.Request -> World -> Agent.Outcome Agent.HttpResponse * World.
Variable JSON_parse : string -> Agent.Outcome Agent.JsValue.
Variable JSON_stringify : Agent.JsValue -> string.
Variable JSON_stringify_result : Agent.ToolResult -> string.
Variable extractTitle : HtmlText.jsstring -> HtmlText.jsstring.
Variable tavilyApiKey : string.
Variable span_traceId : string.
Variable clock : nat -> Z.
Variable randomId : nat -> string.

Local Notation turn :=
  (research_query openai_create fetch JSON_parse JSON_stringify JSON_stringify_result
     extractTitle tavilyApiKey span_traceId clock randomId).
Local Notation the_run :=
  (Agent.run openai_create fetch JSON_parse JSON_stringify JSON_stringify_result
     extractTitle tavilyApiKey span_traceId).
Local Notation resolve := (get_or_create clock randomId).

(** X21.  A turn that fails stores nothing.  When the agent's run throws,
    the handler emits [research-error] with the error's message, and the
    store is left as the reading of the history and the other handlers left
    it: neither the user's message nor an answer is added to any session. *)
Theorem failed_turn_stores_nothing data meanwhile store agent e agent' :
  let start := resolve (sessionId data) store in
  let read := getMessages clock (fst start) (snd start) in
  the_run (message data) (fst read) agent = (Agent.Thrown e, agent') ->
  turn data meanwhile (store, agent)
    = (ResearchError e, (exec_all clock randomId meanwhile (snd read), agent')).
Proof.
  intros start read Hrun. unfold research_query. cbn [fst snd].
  fold start. destruct start as [identifier store1]. cbn [fst snd] in *.
  fold read. destruct read as [chatHistory store2]. cbn [fst snd] in *.
  rewrite Hrun. reflexivity.
Qed.

(** X22.  A turn that succeeds stores the exchange.  When the run returns
    and the session is still in the store and alive after the wait, the
    handler emits [research-complete] with the run's content, the number of
    its tool calls and the session's identifier, and the session's
    messages become the former ones followed by the user's message and
    the assistant's answer, cut to the last 100. *)
Theorem completed_turn_stores_the_exchange
        data meanwhile store agent results agent' s :
  let start := resolve (sessionId data) store in
  let read := getMessages clock (fst start) (snd start) in
  let waited := exec_all clock randomId meanwhile (snd read) in
  let t := ticks waited in
  the_run (message data) (fst read) agent = (Agent.Returned results, agent') ->
  Map_get (fst start) (sessions waited) = Some s ->
  expired_at (clock t) s = false ->
  (clock (t + 4) - clock (t + 3) <= SESSION_EXPIRE_MS)%Z ->
  exists final session',
    turn data meanwhile (store, agent)
      = (ResearchComplete (clock (t + 8)) (Agent.content results)
           (Agent.reasoning results) (List.length (Agent.toolCalls results))
           (Agent.traceId results) (fst start),
         (final, agent'))
    /\ Map_get (fst start) (sessions final) = Some session'
    /\ messages session'
       = latest MAX_MESSAGES_PER_SESSION
           (messages s
              ++ [mkChatMessage user (message data) (clock (t + 2));
                  mkChatMessage assistant (Agent.content results) (clock (t + 6))]).
Proof.
  intros start read waited t Hrun Hget Halive Hsoon.
  unfold research_query. cbn [fst snd].
  fold start. destruct start as [identifier store1]. cbn [fst snd] in *.
  fold read. destruct read as [chatHistory store2]. cbn [fst snd] in *.
  rewrite Hrun. fold waited.
  rewrite (addMessage_alive clock waited identifier user (message data) s Hget Halive).
  fold t.
  set (first := mkChatSession (id s)
                  (latest MAX_MESSAGES_PER_SESSION
                     (messages s ++ [mkChatMessage user (message data) (clock (t + 2))]))
                  (createdAt s) (clock (t + 3))).
  set (store4 := mkState _ (t + 4) (draws waited)).
  assert (Hget4 : Map_get identifier (sessions store4) = Some first)
    by apply Map_get_set_same.
  assert (Halive4 : expired_at (clock (ticks store4)) first = false).
  { unfold expired_at. cbn [ticks lastActivity first].
    rewrite Z.gtb_ltb. apply Z.ltb_ge. exact Hsoon. }
  rewrite (addMessage_alive clock store4 identifier assistant (Agent.content results)
             first Hget4 Halive4).
  cbn [ticks draws store4]. unfold new_Date. cbn [ticks sessions draws].
  replace (t + 4 + 2) with (t + 6) by lia.
  replace (t + 4 + 3) with (t + 7) by lia.
  replace (t + 4 + 4) with (t + 8) by lia.
  do 2 eexists. split; [reflexivity|]. cbn [sessions].
  split; [apply Map_get_set_same|].
  cbn [messages first].
  rewrite latest_latest by (unfold MAX_MESSAGES_PER_SESSION; lia).
  now rewrite <- app_assoc.
Qed.

(** X23.  A turn without a usable session starts afresh.  When the query
    carries no session identifier, or an empty one, or one that
    [getSession] does not find (unknown or expired), the handler creates a
    session, works under the identifier [createSession] returns, and hands
    the agent an empty history. *)
Theorem turn_without_session_starts_afresh wanted store :
  NoDup (keys (sessions store)) ->
  wanted = None \/ wanted = Some ""%string
  \/ (exists w, wanted = Some w /\ fst (getSession clock w store) = None) ->
  let start := resolve wanted store in
  fst start = randomId (draws store)
  /\ fst (getMessages clock (fst start) (snd start)) = [].
Proof.
  intros Hnd Hwanted start.
  assert (Hcreate : exists store1,
             NoDup (keys (sessions store1)) /\ draws store1 = draws store
             /\ start = createSession clock randomId store1).
  { unfold start, get_or_create.
    destruct Hwanted as [->|[->|(w & -> & Hnone)]].
    - exists store. auto.
    - exists store. auto.
    - destruct (String.eqb w "") eqn:E; [exists store; auto|].
      exists (snd (getSession clock w store)).
      split; [now apply getSession_NoDup|]. split.
      + destruct (Map_get w (sessions store)) as [c|] eqn:Eg.
        * destruct (expired_at (clock (ticks store)) c) eqn:Ee.
          -- now rewrite (getSession_expired clock store w c Eg Ee).
          -- now rewrite (getSession_alive clock store w c Eg Ee).
        * now rewrite (getSession_absent clock store w Eg).
      + destruct (getSession clock w store) as [[found|] store1]; [discriminate Hnone|].
        reflexivity. }
  destruct Hcreate as (store1 & Hnd1 & Hdraws & ->).
  rewrite createSession_result, Hdraws. split; [reflexivity|].
  rewrite getMessages_eq. cbn [fst]. rewrite getSession_result.
  rewrite <- Hdraws.
  destruct (Map_get (randomId (draws store1))
              (sessions (snd (createSession clock randomId store1)))) as [s|] eqn:Es;
    [|reflexivity].
  pose proof (createSession_stored clock randomId store1 s Hnd1 Es) as Hempty.
  destruct (_ >? _)%Z; [reflexivity|]. cbn [touch messages]. exact Hempty.
Qed.

(** X24.  A turn with a live session continues it.  When the query names a
    session that is in the store and alive, the handler creates nothing,
    works under that identifier, and hands the agent the session's stored
    messages as history. *)
Theorem turn_with_live_session_continues_it w store s :
  w <> ""%string ->
  Map_get w (sessions store) = Some s ->
  expired_at (clock (ticks store)) s = false ->
  (clock (ticks store + 2) - clock (ticks store + 1) <= SESSION_EXPIRE_MS)%Z ->
  let start := resolve (Some w) store in
  fst start = w
  /\ draws (snd start) = draws store
  /\ fst (getMessages clock (fst start) (snd start)) = messages s.
Proof.
  intros Hw Hget Halive Hsoon start. unfold start, get_or_create.
  apply String.eqb_neq in Hw. rewrite Hw.
  rewrite (getSession_alive clock store w s Hget Halive). cbn [fst snd draws].
  split; [reflexivity|]. split; [reflexivity|].
  rewrite getMessages_eq. cbn [fst].
  set (touched := touch (clock (ticks store + 1)) s).
  set (store1 := mkState _ _ _).
  assert (Hget1 : Map_get w (sessions store1) = Some touched)
    by apply Map_get_set_same.
  assert (Halive1 : expired_at (clock (ticks store1)) touched = false).
  { unfold expired_at. cbn [ticks store1 touched touch lastActivity].
    rewrite Z.gtb_ltb. apply Z.ltb_ge. exact Hsoon. }
  rewrite (getSession_alive clock store1 w touched Hget1 Halive1). reflexivity.
Qed.

(** X25.  An exchange can be lost without notice.  When the run returns but
    the session is no longer in the store after the wait (deleted, evicted
    or swept in the meantime), both [addMessage] calls fail, their result
    is not looked at, and the handler still emits [research-complete] with
    the session's identifier: the store is left without the exchange and
    without the session. *)
Theorem exchange_is_lost_when_session_is_gone
        data meanwhile store agent results agent' :
  let start := resolve (sessionId data) store in
  let read := getMessages clock (fst start) (snd start) in
  let waited := exec_all clock randomId meanwhile (snd read) in
  the_run (message data) (fst read) agent = (Agent.Returned results, agent') ->
  Map_get (fst start) (sessions waited) = None ->
  turn data meanwhile (store, agent)
    = (ResearchComplete (clock (ticks waited)) (Agent.content results)
         (Agent.reasoning results) (List.length (Agent.toolCalls results))
         (Agent.traceId results) (fst start),
       (mkState (sessions waited) (S (ticks waited)) (draws waited), agent')).
Proof.
  intros start read waited Hrun Hgone.
  unfold research_query. cbn [fst snd].
  fold start. destruct start as [identifier store1]. cbn [fst snd] in *.
  fold read. destruct read as [chatHistory store2]. cbn [fst snd] in *.
  rewrite Hrun. fold waited.
  rewrite !(addMessage_absent clock waited identifier _ _ Hgone).
  reflexivity.
Qed.

End TurnFacts.

(** ** The turn with concrete collaborators *)

Section Turns.
Import Scenarios.
Local Open Scope string_scope.

Local Notation sample_turn model :=
  (research_query model dead_network parse_sample stringify_sample
     stringify_result_sample title_sample "tvly-key" "trace-1" (frozen 0) same_id).

Lemma failed_turn_stores_nothing_witness :
  let data := mkQuery "Hi" (Some "abc") in
  let store := one_session [hello] 0 in
  let out :=
    Agent.run broken_model dead_network parse_sample stringify_sample
      stringify_result_sample title_sample "tvly-key" "trace-1" "Hi" [hello] start in
  out = (Agent.Thrown "503 Service Unavailable", snd out)
  /\ sample_turn broken_model data [OpCleanup] (store, start)
     = (ResearchError "503 Service Unavailable",
        (mkState [("abc", mkChatSession "abc" [hello] 0 0)] 5 0, snd out)).
Proof.
  intros data store out.
  assert (H : out = (Agent.Thrown "503 Service Unavailable", snd out)) by reflexivity.
  split; [exact H|].
  exact (failed_turn_stores_nothing unit broken_model dead_network parse_sample
           stringify_sample stringify_result_sample title_sample "tvly-key" "trace-1"
           (frozen 0) same_id data [OpCleanup] store start "503 Service Unavailable"
           (snd out) H).
Defined.

Lemma completed_turn_stores_the_exchange_witness :
  let data := mkQuery "Hi" (Some "abc") in
  let store := one_session [hello] 0 in
  let s := mkChatSession "abc" [hello] 0 0 in
  let out :=
    Agent.run plain_model dead_network parse_sample stringify_sample
      stringify_result_sample title_sample "tvly-key" "trace-1" "Hi" [hello] start in
  exists results,
    out = (Agent.Returned results, snd out)
    /\ Agent.content results = "Hello!"
    /\ exists final session',
         fst (sample_turn plain_model data [] (store, start))
           = ResearchComplete 0 "Hello!" (Agent.reasoning results) 0 "trace-1" "abc"
         /\ snd (sample_turn plain_model data [] (store, start)) = (final, snd out)
         /\ Map_get "abc" (sessions final) = Some session'
         /\ messages session'
            = [hello; mkChatMessage user "Hi" 0; mkChatMessage assistant "Hello!" 0].
Proof.
  intros data store s out.
  set (results := match fst out with
                  | Agent.Returned r => r
                  | Agent.Thrown _ => Agent.mkLLMResponse "" [] "" ""
                  end).
  exists results.
  assert (H1 : out = (Agent.Returned results, snd out)) by reflexivity.
  split; [exact H1|]. split; [reflexivity|].
  pose proof (completed_turn_stores_the_exchange unit plain_model dead_network
                parse_sample stringify_sample stringify_result_sample title_sample
                "tvly-key" "trace-1" (frozen 0) same_id data [] store start results
                (snd out) s) as P.
  cbv zeta in P.
  destruct (P H1 eq_refl eq_refl ltac:(discriminate)) as (final & session' & E & G & M).
  exists final, session'.
  split; [rewrite E; reflexivity|]. split; [rewrite E; reflexivity|].
  split; [exact G | exact M].
Defined.

Lemma turn_without_session_starts_afresh_witness :
  let store := one_session [hello] 0 in
  let start := get_or_create (frozen 0) same_id (Some "never-issued") store in
  NoDup (keys (sessions store))
  /\ fst (getSession (frozen 0) "never-issued" store) = None
  /\ fst start = "k3x9a2b7c"
  /\ fst (getMessages (frozen 0) (fst start) (snd start)) = [].
Proof.
  intros store start.
  assert (H1 : NoDup (keys (sessions store)))
    by (constructor; [intros [] | constructor]).
  assert (H2 : fst (getSession (frozen 0) "never-issued" store) = None) by reflexivity.
  split; [exact H1|]. split; [exact H2|].
  exact (turn_without_session_starts_afresh (frozen 0) same_id (Some "never-issued")
           store H1
           (or_intror (or_intror (ex_intro _ "never-issued" (conj eq_refl H2))))).
Defined.

Lemma turn_with_live_session_continues_it_witness :
  let store := one_session [hello] 0 in
  let start := get_or_create (frozen 0) same_id (Some "abc") store in
  Map_get "abc" (sessions store) = Some (mkChatSession "abc" [hello] 0 0)
  /\ fst start = "abc"
  /\ draws (snd start) = 0
  /\ fst (getMessages (frozen 0) (fst start) (snd start)) = [hello].
Proof.
  intros store start.
  assert (H : Map_get "abc" (sessions store) = Some (mkChatSession "abc" [hello] 0 0))
    by reflexivity.
  split; [exact H|].
  exact (turn_with_live_session_continues_it (frozen 0) same_id "abc" store
           (mkChatSession "abc" [hello] 0 0) ltac:(discriminate) H eq_refl
           ltac:(discriminate)).
Defined.

Lemma exchange_is_lost_when_session_is_gone_witness :
  let data := mkQuery "Hi" (Some "abc") in
  let store := one_session [hello] 0 in
  let out :=
    Agent.run plain_model dead_network parse_sample stringify_sample
      stringify_result_sample title_sample "tvly-key" "trace-1" "Hi" [hello] start in
  exists results,
    out = (Agent.Returned results, snd out)
    /\ sample_turn plain_model data [OpDeleteSession "abc"] (store, start)
       = (ResearchComplete 0 "Hello!" (Agent.reasoning results) 0 "trace-1" "abc",
          (mkState [] 5 0, snd out)).
Proof.
  intros data store out.
  set (results := match fst out with
                  | Agent.Returned r => r
                  | Agent.Thrown _ => Agent.mkLLMResponse "" [] "" ""
                  end).
  exists results.
  assert (H : out = (Agent.Returned results, snd out)) by reflexivity.
  split; [exact H|].
  exact (exchange_is_lost_when_session_is_gone unit plain_model dead_network
           parse_sample stringify_sample stringify_result_sample title_sample
           "tvly-key" "trace-1" (frozen 0) same_id data [OpDeleteSession "abc"] store
           start results (snd out) H eq_refl).
Defined.

End Turns.

End ServerFacts.
